(** * Formula engine of blocks-finance: a shallow embedding

    This development embeds [backend/app/formula_engine.py] (the
    [FormulaEngine] class with [validate], [_validate_node], [evaluate],
    [_eval_node], and the batch driver [compute_all_formulas]) and proves
    properties of the embedded functions.

    Python values are modelled by the type [pyval]: [None], [bool], [int]
    (unbounded, as [Z]), [float] (IEEE binary64, as [spec_float] with
    precision 53 and maximal exponent 1024) and [str].  Exceptions are values
    of type [exn]; a computation that may raise returns [result].

    Conventions of the model:
    - a Python dictionary is the list of its items in insertion order; its
      keys are distinct, as those of a dictionary are;
    - [str.lower] and [str.upper] act on ASCII letters, and the characters
      of a string are its bytes;
    - values of other Python types (dates, complex numbers, bytes) are not
      modelled; the column [as_of] holds some [pyval];
    - the functions of the C library behind [math.log], [math.exp], [**] on
      floats and [%] on floats, and a few built-ins used with uncommon
      arguments, are fields of the record [Runtime], a parameter of the
      embedding; the arithmetic of [float] itself ([+], [-], [*], [/],
      square root, comparisons, conversions) is computed by [SpecFloat];
    - the file has three parts: the model, the notions the statements use,
      and the proofs. *)

From Stdlib Require Import ZArith QArith Lia String Ascii List Bool.
From Stdlib Require Import SpecFloat.
From stdpp Require Import base option gmap strings list fin_maps.

Set Warnings "-register-all".

Local Open Scope string_scope.
Local Open Scope list_scope.
Local Open Scope Z_scope.

(** ** Binary64 floating point numbers *)

Module Float.

Definition prec : Z := 53.
Definition emax : Z := 1024.

Definition zero : spec_float := S754_zero false.
Definition nan : spec_float := S754_nan.

Definition add := SFadd prec emax.
Definition sub := SFsub prec emax.
Definition mul := SFmul prec emax.
Definition div := SFdiv prec emax.
Definition sqrt := SFsqrt prec emax.
Definition opp := SFopp.
Definition abs := SFabs.

Definition is_nan (f : spec_float) : bool :=
  match f with S754_nan => true | _ => false end.

Definition is_inf (f : spec_float) : bool :=
  match f with S754_infinity _ => true | _ => false end.

Definition is_zero (f : spec_float) : bool :=
  match f with S754_zero _ => true | _ => false end.

(** sign bit; NaN counts as unsigned *)
Definition signbit (f : spec_float) : bool :=
  match f with
  | S754_zero s | S754_infinity s | S754_finite s _ _ => s
  | S754_nan => false
  end.

(** [x < 0.0] in the IEEE order (false for NaN and for both zeros) *)
Definition is_neg (f : spec_float) : bool := SFltb f zero.

(** nearest binary64 to an integer, ties to even; overflow gives infinity *)
Definition of_Z (z : Z) : spec_float := binary_normalize prec emax z 0 false.

(** nearest binary64 to the quotient [n / d] of two positive integers *)
Definition of_ratio (s : bool) (n d : positive) : spec_float :=
  let '(q, e, l) := SFdiv_core_binary prec emax (Zpos n) 0 (Zpos d) 0 in
  binary_round_aux prec emax s q e l.

(** the rational number a finite float stands for *)
Definition to_Q (f : spec_float) : option Q :=
  match f with
  | S754_zero _ => Some 0%Q
  | S754_finite s m e =>
      let n := if s then Zneg m else Zpos m in
      Some (match e with
            | Z0 => inject_Z n
            | Zpos p => inject_Z (n * 2 ^ Zpos p)
            | Zneg p => Qmake n (2 ^ p)
            end)
  | _ => None
  end.

(** [floor] of a finite float, as an integer *)
Definition floor (f : spec_float) : option Z :=
  match f with
  | S754_zero _ => Some 0
  | S754_finite s m e =>
      let n := if s then Zneg m else Zpos m in
      Some (match e with
            | Zneg p => Z.shiftr n (Zpos p)
            | _ => Z.shiftl n e
            end)
  | _ => None
  end.

Definition ceil (f : spec_float) : option Z :=
  match floor (opp f) with Some z => Some (- z) | None => None end.

(** nearest integer, ties to even (Python's one-argument [round]) *)
Definition round_half_even (f : spec_float) : option Z :=
  match f with
  | S754_zero _ => Some 0
  | S754_finite s m e =>
      let n := if s then Zneg m else Zpos m in
      Some (match e with
            | Zneg p =>
                let q := Z.shiftr n (Zpos p) in
                let r := n - Z.shiftl q (Zpos p) in
                match Z.compare (2 * r) (2 ^ Zpos p) with
                | Lt => q
                | Gt => q + 1
                | Eq => if Z.even q then q else q + 1
                end
            | _ => Z.shiftl n e
            end)
  | _ => None
  end.

(** exact comparison of an integer with a float (no conversion of the
    integer, which could round) *)
Definition compare_Z (z : Z) (f : spec_float) : option comparison :=
  match f with
  | S754_nan => None
  | S754_infinity s => Some (if s then Gt else Lt)
  | S754_zero _ => Some (Z.compare z 0)
  | S754_finite s m e =>
      let n := if s then Zneg m else Zpos m in
      Some (match e with
            | Zneg p => Z.compare (Z.shiftl z (Zpos p)) n
            | _ => Z.compare z (Z.shiftl n e)
            end)
  end.

End Float.

(** ** Python values, exceptions and results *)

Inductive pyval : Type :=
| VNone
| VBool (b : bool)
| VInt (z : Z)
| VFloat (f : spec_float)
| VStr (s : string).

(** The exception classes the engine can meet.  The payload is [str(e)];
    for [KeyError] that is the [repr] of the missing key.  Every class is a
    subclass of Python's [Exception]. *)
Inductive exn : Type :=
| SyntaxError (msg : string)
| ZeroDivisionError (msg : string)
| ValueError (msg : string)
| KeyError (key_repr : string)
| TypeError (msg : string)
| OverflowError (msg : string)
| AttributeError (msg : string).

Inductive result (A : Type) : Type :=
| Ok (a : A)
| Raise (e : exn).
Arguments Ok {A} a.
Arguments Raise {A} e.

Definition bind {A B : Type} (m : result A) (k : A -> result B) : result B :=
  match m with
  | Ok a => k a
  | Raise e => Raise e
  end.

Notation "'let*' x ':=' m 'in' k" := (bind m (fun x => k))
  (at level 10, x pattern, m at level 200, k at level 200).

Global Instance spec_float_eq_dec : EqDecision spec_float.
Proof. solve_decision. Defined.

Global Instance pyval_eq_dec : EqDecision pyval.
Proof. solve_decision. Defined.

Global Instance exn_eq_dec : EqDecision exn.
Proof. solve_decision. Defined.

Definition is_none (v : pyval) : bool :=
  match v with VNone => true | _ => false end.

(** [type(v).__name__] *)
Definition type_name (v : pyval) : string :=
  match v with
  | VNone => "NoneType"
  | VBool _ => "bool"
  | VInt _ => "int"
  | VFloat _ => "float"
  | VStr _ => "str"
  end.

(** [repr] of a string without quotes or escapes, as identifiers are *)
Definition repr_str (s : string) : string := "'" +:+ s +:+ "'".

(** truth value of an object, as [if v:] and [not v] test it *)
Definition truthy (v : pyval) : bool :=
  match v with
  | VNone => false
  | VBool b => b
  | VInt z => negb (z =? 0)
  | VFloat f => negb (Float.is_zero f)
  | VStr s => negb (String.eqb s "")
  end.

(** The numeric tower: [bool] is a subclass of [int]. *)
Inductive num : Type :=
| NInt (z : Z)
| NFloat (f : spec_float).

Definition as_num (v : pyval) : option num :=
  match v with
  | VBool b => Some (NInt (Z.b2z b))
  | VInt z => Some (NInt z)
  | VFloat f => Some (NFloat f)
  | _ => None
  end.

Definition is_number (v : pyval) : bool :=
  match as_num v with Some _ => true | None => false end.

(** numeric zero: [0], [False], [0.0] and [-0.0] *)
Definition num_is_zero (n : num) : bool :=
  match n with
  | NInt z => z =? 0
  | NFloat f => Float.is_zero f
  end.

(** [PyLong_AsDouble] / [PyFloat_AsDouble] on a number *)
Definition to_float (n : num) : result spec_float :=
  match n with
  | NFloat f => Ok f
  | NInt z =>
      let f := Float.of_Z z in
      if Float.is_inf f then Raise (OverflowError "int too large to convert to float")
      else Ok f
  end.

(** ** Runtime operations taken as parameters

    The C library functions and the Python built-ins below have no
    counterpart in [SpecFloat]; they are parameters of the embedding.  The
    engine never inspects how they compute. *)
Record Runtime : Type := {
  (** [float.__pow__(x, y)] *)
  float_pow : spec_float -> spec_float -> result pyval;
  (** three-argument [pow(a, b, m)] *)
  pow3 : pyval -> pyval -> pyval -> result pyval;
  (** C [log], on a positive finite argument *)
  c_log : spec_float -> spec_float;
  (** C [log10], on a positive finite argument *)
  c_log10 : spec_float -> spec_float;
  (** C [exp], on a finite argument *)
  c_exp : spec_float -> spec_float;
  (** C [fmod], with a divisor that is not zero *)
  c_fmod : spec_float -> spec_float -> spec_float;
  (** [str.__mod__(s, v)], printf-style formatting *)
  str_mod : string -> pyval -> result pyval;
  (** two-argument [round(x, ndigits)] *)
  round_ndigits : pyval -> pyval -> result pyval;
}.

(** ** The operators of [SAFE_OPERATORS] *)

Definition unsupported_operand (op : string) (a b : pyval) : exn :=
  TypeError ("unsupported operand type(s) for " +:+ op +:+ ": '" +:+ type_name a
             +:+ "' and '" +:+ type_name b +:+ "'").

Definition bad_unary_operand (op : string) (a : pyval) : exn :=
  TypeError ("bad operand type for unary " +:+ op +:+ ": '" +:+ type_name a +:+ "'").

Definition not_supported_between (op : string) (a b : pyval) : exn :=
  TypeError ("'" +:+ op +:+ "' not supported between instances of '" +:+ type_name a
             +:+ "' and '" +:+ type_name b +:+ "'").

(** [s * n] for a string [s]: [n] copies, none when [n <= 0] *)
Fixpoint str_repeat (n : nat) (s : string) : string :=
  match n with
  | O => ""
  | S n' => s +:+ str_repeat n' s
  end.

(** Binary arithmetic on the numeric tower: two integers stay integers,
    otherwise both operands are converted to [float]. *)
Definition arith (iop : Z -> Z -> result pyval)
    (fop : spec_float -> spec_float -> result pyval) (a b : num) : result pyval :=
  match a, b with
  | NInt x, NInt y => iop x y
  | _, _ =>
      let* x := to_float a in
      let* y := to_float b in
      fop x y
  end.

(** [int.__truediv__]: the correctly rounded quotient *)
Definition int_truediv (a b : Z) : result pyval :=
  if b =? 0 then Raise (ZeroDivisionError "division by zero")
  else if a =? 0 then Ok (VFloat (S754_zero (b <? 0)))
  else
    let f := Float.of_ratio (xorb (a <? 0) (b <? 0))
                            (Z.to_pos (Z.abs a)) (Z.to_pos (Z.abs b)) in
    if Float.is_inf f
    then Raise (OverflowError "integer division result too large for a float")
    else Ok (VFloat f).

Definition float_truediv (x y : spec_float) : result pyval :=
  if Float.is_zero y then Raise (ZeroDivisionError "float division by zero")
  else Ok (VFloat (Float.div x y)).

Definition int_mod (a b : Z) : result pyval :=
  if b =? 0 then Raise (ZeroDivisionError "integer modulo by zero")
  else Ok (VInt (a mod b)).

Section Operators.

Variable rt : Runtime.

(** [float.__mod__]: C [fmod], then the sign of the divisor *)
Definition float_mod (x y : spec_float) : result pyval :=
  if Float.is_zero y then Raise (ZeroDivisionError "float modulo by zero")
  else
    let m := c_fmod rt x y in
    if Float.is_zero m then Ok (VFloat (S754_zero (Float.signbit y)))
    else if xorb (Float.is_neg y) (Float.is_neg m) then Ok (VFloat (Float.add m y))
    else Ok (VFloat m).

(** [operator.add] *)
Definition py_add (a b : pyval) : result pyval :=
  match as_num a, as_num b with
  | Some x, Some y =>
      arith (fun x y => Ok (VInt (x + y))) (fun x y => Ok (VFloat (Float.add x y))) x y
  | _, _ =>
      match a, b with
      | VStr s, VStr t => Ok (VStr (s +:+ t))
      | _, _ => Raise (unsupported_operand "+" a b)
      end
  end.

(** [operator.sub] *)
Definition py_sub (a b : pyval) : result pyval :=
  match as_num a, as_num b with
  | Some x, Some y =>
      arith (fun x y => Ok (VInt (x - y))) (fun x y => Ok (VFloat (Float.sub x y))) x y
  | _, _ => Raise (unsupported_operand "-" a b)
  end.

(** [operator.mul] *)
Definition py_mul (a b : pyval) : result pyval :=
  match as_num a, as_num b with
  | Some x, Some y =>
      arith (fun x y => Ok (VInt (x * y))) (fun x y => Ok (VFloat (Float.mul x y))) x y
  | Some (NInt n), None =>
      match b with
      | VStr s => Ok (VStr (str_repeat (Z.to_nat n) s))
      | _ => Raise (unsupported_operand "*" a b)
      end
  | None, Some (NInt n) =>
      match a with
      | VStr s => Ok (VStr (str_repeat (Z.to_nat n) s))
      | _ => Raise (unsupported_operand "*" a b)
      end
  | _, _ =>
      match a, b with
      | VStr _, VFloat _ | VFloat _, VStr _ =>
          Raise (TypeError "can't multiply sequence by non-int of type 'float'")
      | VStr _, VStr _ =>
          Raise (TypeError "can't multiply sequence by non-int of type 'str'")
      | _, _ => Raise (unsupported_operand "*" a b)
      end
  end.

(** [operator.truediv] *)
Definition py_truediv (a b : pyval) : result pyval :=
  match as_num a, as_num b with
  | Some x, Some y => arith int_truediv float_truediv x y
  | _, _ => Raise (unsupported_operand "/" a b)
  end.

(** [operator.mod] *)
Definition py_mod (a b : pyval) : result pyval :=
  match a with
  | VStr s => str_mod rt s b
  | _ =>
      match as_num a, as_num b with
      | Some x, Some y => arith int_mod float_mod x y
      | _, _ => Raise (unsupported_operand "%" a b)
      end
  end.

(** [operator.pow]: a non-negative integer power of an integer is exact;
    everything else is [float.__pow__] *)
Definition py_pow (a b : pyval) : result pyval :=
  match as_num a, as_num b with
  | Some x, Some y =>
      match x, y with
      | NInt m, NInt n =>
          if 0 <=? n then Ok (VInt (m ^ n))
          else
            let* fm := to_float x in
            let* fn := to_float y in
            float_pow rt fm fn
      | _, _ =>
          let* fm := to_float x in
          let* fn := to_float y in
          float_pow rt fm fn
      end
  | _, _ => Raise (unsupported_operand "** or pow()" a b)
  end.

(** [operator.neg] *)
Definition py_neg (a : pyval) : result pyval :=
  match as_num a with
  | Some (NInt z) => Ok (VInt (- z))
  | Some (NFloat f) => Ok (VFloat (Float.opp f))
  | None => Raise (bad_unary_operand "-" a)
  end.

(** [operator.pos] *)
Definition py_pos (a : pyval) : result pyval :=
  match as_num a with
  | Some (NInt z) => Ok (VInt z)
  | Some (NFloat f) => Ok (VFloat f)
  | None => Raise (bad_unary_operand "+" a)
  end.

(** [operator.not_] *)
Definition py_not (a : pyval) : result pyval := Ok (VBool (negb (truthy a))).

End Operators.

(** *** Comparisons *)

(** Numbers compare by value, exactly, also across [int] and [float];
    [None] is the answer when a NaN is involved. *)
Definition num_compare (a b : num) : option comparison :=
  match a, b with
  | NInt x, NInt y => Some (x ?= y)
  | NFloat x, NFloat y => SFcompare x y
  | NInt x, NFloat y => Float.compare_Z x y
  | NFloat x, NInt y => CompOpp <$> Float.compare_Z y x
  end.

Definition is_lt (c : option comparison) : bool :=
  match c with Some Lt => true | _ => false end.
Definition is_gt (c : option comparison) : bool :=
  match c with Some Gt => true | _ => false end.
Definition is_le (c : option comparison) : bool :=
  match c with Some (Lt | Eq) => true | _ => false end.
Definition is_ge (c : option comparison) : bool :=
  match c with Some (Gt | Eq) => true | _ => false end.
Definition is_eq (c : option comparison) : bool :=
  match c with Some Eq => true | _ => false end.

(** an ordering operator: numbers among themselves, strings among themselves *)
Definition py_order (sym : string) (test : option comparison -> bool)
    (a b : pyval) : result pyval :=
  match as_num a, as_num b with
  | Some x, Some y => Ok (VBool (test (num_compare x y)))
  | _, _ =>
      match a, b with
      | VStr s, VStr t => Ok (VBool (test (Some (String.compare s t))))
      | _, _ => Raise (not_supported_between sym a b)
      end
  end.

(** [operator.gt], [operator.lt], [operator.ge], [operator.le] *)
Definition py_gt := py_order ">" is_gt.
Definition py_lt := py_order "<" is_lt.
Definition py_ge := py_order ">=" is_ge.
Definition py_le := py_order "<=" is_le.

(** [a == b] as a boolean: objects of unrelated types are unequal *)
Definition values_equal (a b : pyval) : bool :=
  match as_num a, as_num b with
  | Some x, Some y => is_eq (num_compare x y)
  | _, _ =>
      match a, b with
      | VStr s, VStr t => String.eqb s t
      | VNone, VNone => true
      | _, _ => false
      end
  end.

(** [operator.eq], [operator.ne] *)
Definition py_eq (a b : pyval) : result pyval := Ok (VBool (values_equal a b)).
Definition py_ne (a b : pyval) : result pyval := Ok (VBool (negb (values_equal a b))).

(** ** The functions of [SAFE_FUNCTIONS]

    A registry entry is called as [func( *args )] on the list of evaluated
    arguments. *)

Definition pyfunc : Type := list pyval -> result pyval.

(** a call with a number of arguments the function does not take: a
    [TypeError], which [evaluate] reports as an evaluation error.  Python's
    message depends on the function and the count; the model has one wording,
    and no statement below depends on the wording. *)
Definition arity_error (name : string) : exn :=
  TypeError (name +:+ "() called with a wrong number of arguments").

Definition not_iterable (v : pyval) : exn :=
  TypeError ("'" +:+ type_name v +:+ "' object is not iterable").

Definition must_be_real (v : pyval) : exn :=
  TypeError ("must be real number, not " +:+ type_name v).

(** [iter(v)]: of the modelled values only a string is iterable, and it
    yields its characters *)
Definition py_iter (v : pyval) : result (list pyval) :=
  match v with
  | VStr s => Ok ((fun c => VStr (String c "")) <$> list_ascii_of_string s)
  | _ => Raise (not_iterable v)
  end.

(** [float(v)] as the [math] module converts its arguments *)
Definition as_double (v : pyval) : result spec_float :=
  match as_num v with
  | Some n => to_float n
  | None => Raise (must_be_real v)
  end.

(** the integer a float truncates, floors or rounds to *)
Definition float_to_int (conv : spec_float -> option Z) (f : spec_float) : result pyval :=
  match conv f with
  | Some z => Ok (VInt z)
  | None =>
      if Float.is_nan f then Raise (ValueError "cannot convert float NaN to integer")
      else Raise (OverflowError "cannot convert float infinity to integer")
  end.

(** the loop of [max] and [min]: a later item replaces the current choice
    when [better item choice] holds *)
Fixpoint select_loop (better : pyval -> pyval -> result pyval)
    (choice : pyval) (items : list pyval) : result pyval :=
  match items with
  | [] => Ok choice
  | item :: rest =>
      let* b := better item choice in
      if truthy b then select_loop better item rest
      else select_loop better choice rest
  end.

(** [max( *args )] and [min( *args )]: one argument is an iterable, two or
    more are the items *)
Definition select (name : string) (better : pyval -> pyval -> result pyval)
    (args : list pyval) : result pyval :=
  match args with
  | [] => Raise (TypeError (name +:+ " expected at least 1 argument, got 0"))
  | [v] =>
      let* items := py_iter v in
      match items with
      | [] => Raise (ValueError (name +:+ "() arg is an empty sequence"))
      | first :: rest => select_loop better first rest
      end
  | first :: rest => select_loop better first rest
  end.

Section Functions.

Variable rt : Runtime.

(** [start + items[0] + items[1] + ...], from left to right *)
Fixpoint sum_loop (acc : pyval) (items : list pyval) : result pyval :=
  match items with
  | [] => Ok acc
  | item :: rest =>
      let* acc' := py_add acc item in
      sum_loop acc' rest
  end.

(** [math.sqrt] *)
Definition fn_SQRT : pyfunc := fun args =>
  match args with
  | [v] =>
      let* x := as_double v in
      let r := Float.sqrt x in
      if Float.is_nan r && negb (Float.is_nan x)
      then Raise (ValueError "math domain error")
      else Ok (VFloat r)
  | _ => Raise (arity_error "sqrt")
  end.

(** [abs] *)
Definition fn_ABS : pyfunc := fun args =>
  match args with
  | [v] =>
      match as_num v with
      | Some (NInt z) => Ok (VInt (Z.abs z))
      | Some (NFloat f) => Ok (VFloat (Float.abs f))
      | None => Raise (TypeError ("bad operand type for abs(): '" +:+ type_name v +:+ "'"))
      end
  | _ => Raise (arity_error "abs")
  end.

(** [max] and [min] *)
Definition fn_MAX : pyfunc := select "max" py_gt.
Definition fn_MIN : pyfunc := select "min" py_lt.

(** [lambda *args: sum(args) / len(args) if args else 0] *)
Definition fn_AVG : pyfunc := fun args =>
  match args with
  | [] => Ok (VInt 0)
  | _ =>
      let* s := sum_loop (VInt 0) args in
      py_truediv s (VInt (Z.of_nat (length args)))
  end.

(** [sum]: [sum(iterable)] or [sum(iterable, start)] *)
Definition fn_SUM : pyfunc := fun args =>
  match args with
  | [v] =>
      let* items := py_iter v in
      sum_loop (VInt 0) items
  | [v; start] =>
      let* items := py_iter v in
      match start with
      | VStr _ => Raise (TypeError "sum() can't sum strings [use ''.join(seq) instead]")
      | _ => sum_loop start items
      end
  | _ => Raise (arity_error "sum")
  end.

(** [pow] *)
Definition fn_POW : pyfunc := fun args =>
  match args with
  | [a; b] => py_pow rt a b
  | [a; b; m] => pow3 rt a b m
  | _ => Raise (arity_error "pow")
  end.

(** the argument check of [math.log] and [math.log10]; [c_fn] is the C
    function.  An integer too large for a [float] is split into mantissa
    and exponent first. *)
Definition log_helper (c_fn : spec_float -> spec_float) (v : pyval) : result spec_float :=
  match as_num v with
  | None => Raise (must_be_real v)
  | Some (NInt z) =>
      if z <=? 0 then Raise (ValueError "math domain error")
      else
        let f := Float.of_Z z in
        if Float.is_inf f then
          let e := Z.log2 z + 1 in
          let x := binary_normalize Float.prec Float.emax z (- e) false in
          let '(x, e) := if SFeqb x (Float.of_Z 1) then (Float.of_ratio false 1 2, e + 1)
                         else (x, e) in
          Ok (Float.add (c_fn x) (Float.mul (c_fn (Float.of_Z 2)) (Float.of_Z e)))
        else Ok (c_fn f)
  | Some (NFloat f) =>
      match f with
      | S754_nan => Ok f
      | S754_infinity false => Ok f
      | S754_finite false _ _ => Ok (c_fn f)
      | _ => Raise (ValueError "math domain error")
      end
  end.

(** [math.log]: [log(x)] or [log(x, base)] *)
Definition fn_LOG : pyfunc := fun args =>
  match args with
  | [v] =>
      let* r := log_helper (c_log rt) v in
      Ok (VFloat r)
  | [v; base] =>
      let* n := log_helper (c_log rt) v in
      let* d := log_helper (c_log rt) base in
      float_truediv n d
  | _ => Raise (arity_error "log")
  end.

(** [math.log10] *)
Definition fn_LOG10 : pyfunc := fun args =>
  match args with
  | [v] =>
      let* r := log_helper (c_log10 rt) v in
      Ok (VFloat r)
  | _ => Raise (arity_error "log10")
  end.

(** [math.exp] *)
Definition fn_EXP : pyfunc := fun args =>
  match args with
  | [v] =>
      let* x := as_double v in
      match x with
      | S754_nan => Ok (VFloat x)
      | S754_infinity false => Ok (VFloat x)
      | S754_infinity true => Ok (VFloat Float.zero)
      | _ =>
          let r := c_exp rt x in
          if Float.is_inf r then Raise (OverflowError "math range error")
          else Ok (VFloat r)
      end
  | _ => Raise (arity_error "exp")
  end.

(** [round]: [round(x)] is the nearest integer, ties to even *)
Definition fn_ROUND : pyfunc := fun args =>
  match args with
  | [v] =>
      match as_num v with
      | Some (NInt z) => Ok (VInt z)
      | Some (NFloat f) => float_to_int Float.round_half_even f
      | None =>
          Raise (TypeError ("type " +:+ type_name v +:+ " doesn't define __round__ method"))
      end
  | [v; n] => round_ndigits rt v n
  | _ => Raise (arity_error "round")
  end.

(** [math.floor] and [math.ceil] *)
Definition fn_FLOOR : pyfunc := fun args =>
  match args with
  | [v] =>
      match as_num v with
      | Some (NInt z) => Ok (VInt z)
      | Some (NFloat f) => float_to_int Float.floor f
      | None => Raise (must_be_real v)
      end
  | _ => Raise (arity_error "floor")
  end.

Definition fn_CEIL : pyfunc := fun args =>
  match args with
  | [v] =>
      match as_num v with
      | Some (NInt z) => Ok (VInt z)
      | Some (NFloat f) => float_to_int Float.ceil f
      | None => Raise (must_be_real v)
      end
  | _ => Raise (arity_error "ceil")
  end.

(** [lambda cond, true_val, false_val: true_val if cond else false_val] *)
Definition fn_IF : pyfunc := fun args =>
  match args with
  | [cond; true_val; false_val] => Ok (if truthy cond then true_val else false_val)
  | _ => Raise (arity_error "<lambda>")
  end.

(** [lambda *args: next((a for a in args if a is not None), None)] *)
Fixpoint fn_COALESCE (args : list pyval) : result pyval :=
  match args with
  | [] => Ok VNone
  | a :: rest => if is_none a then fn_COALESCE rest else Ok a
  end.

(** [lambda x: x is None] *)
Definition fn_ISNULL : pyfunc := fun args =>
  match args with
  | [x] => Ok (VBool (is_none x))
  | _ => Raise (arity_error "<lambda>")
  end.

(** [lambda a, b: None if a == b else a] *)
Definition fn_NULLIF : pyfunc := fun args =>
  match args with
  | [a; b] => Ok (if values_equal a b then VNone else a)
  | _ => Raise (arity_error "<lambda>")
  end.

Definition SAFE_FUNCTIONS : gmap string pyfunc :=
  list_to_map
    [ ("SQRT", fn_SQRT); ("ABS", fn_ABS); ("MAX", fn_MAX); ("MIN", fn_MIN);
      ("AVG", fn_AVG); ("SUM", fn_SUM); ("POW", fn_POW); ("LOG", fn_LOG);
      ("LOG10", fn_LOG10); ("EXP", fn_EXP); ("ROUND", fn_ROUND);
      ("FLOOR", fn_FLOOR); ("CEIL", fn_CEIL); ("IF", fn_IF);
      ("COALESCE", fn_COALESCE); ("ISNULL", fn_ISNULL); ("NULLIF", fn_NULLIF) ].

End Functions.

(** ** The syntax trees of Python's [ast] module

    Only the node classes the engine distinguishes are kept apart; any other
    expression node is [Other] with its class name.  Constants are those of
    the modelled value types. *)

Module ast.

Inductive operator : Type :=
| Add | Sub | Mult | MatMult | Div | Mod | Pow
| LShift | RShift | BitOr | BitXor | BitAnd | FloorDiv.

Inductive unaryop : Type := Invert | Not | UAdd | USub.

Inductive cmpop : Type :=
| Eq | NotEq | Lt | LtE | Gt | GtE | Is | IsNot | In | NotIn.

Inductive boolop : Type := And | Or.

Inductive expr : Type :=
| Constant (value : pyval)
| Name (id : string)
| BinOp (left : expr) (op : operator) (right : expr)
| UnaryOp (op : unaryop) (operand : expr)
| Compare (left : expr) (ops : list cmpop) (comparators : list expr)
| BoolOp (op : boolop) (values : list expr)
| Call (func : expr) (args : list expr)
| IfExp (test : expr) (body : expr) (orelse : expr)
| Other (kind : string).

(** the class of an operator node, a key of [SAFE_OPERATORS] *)
Inductive op_class : Type :=
| OfOperator (op : operator)
| OfUnaryop (op : unaryop)
| OfCmpop (op : cmpop)
| OfBoolop (op : boolop).

Definition operator_name (op : operator) : string :=
  match op with
  | Add => "Add" | Sub => "Sub" | Mult => "Mult" | MatMult => "MatMult"
  | Div => "Div" | Mod => "Mod" | Pow => "Pow" | LShift => "LShift"
  | RShift => "RShift" | BitOr => "BitOr" | BitXor => "BitXor"
  | BitAnd => "BitAnd" | FloorDiv => "FloorDiv"
  end.

Definition unaryop_name (op : unaryop) : string :=
  match op with
  | Invert => "Invert" | Not => "Not" | UAdd => "UAdd" | USub => "USub"
  end.

Definition cmpop_name (op : cmpop) : string :=
  match op with
  | Eq => "Eq" | NotEq => "NotEq" | Lt => "Lt" | LtE => "LtE" | Gt => "Gt"
  | GtE => "GtE" | Is => "Is" | IsNot => "IsNot" | In => "In" | NotIn => "NotIn"
  end.

Definition boolop_name (op : boolop) : string :=
  match op with And => "And" | Or => "Or" end.

(** [type(op).__name__] *)
Definition class_name (c : op_class) : string :=
  match c with
  | OfOperator op => operator_name op
  | OfUnaryop op => unaryop_name op
  | OfCmpop op => cmpop_name op
  | OfBoolop op => boolop_name op
  end.

(** [type(node).__name__] *)
Definition node_name (node : expr) : string :=
  match node with
  | Constant _ => "Constant"
  | Name _ => "Name"
  | BinOp _ _ _ => "BinOp"
  | UnaryOp _ _ => "UnaryOp"
  | Compare _ _ _ => "Compare"
  | BoolOp _ _ => "BoolOp"
  | Call _ _ => "Call"
  | IfExp _ _ _ => "IfExp"
  | Other kind => kind
  end.

(** Induction on trees, with the hypothesis available for every element
    of the argument lists. *)
Section expr_induction.
Variable P : expr -> Prop.
Hypothesis HConstant : forall v, P (Constant v).
Hypothesis HName : forall id, P (Name id).
Hypothesis HBinOp : forall l op r, P l -> P r -> P (BinOp l op r).
Hypothesis HUnaryOp : forall op e, P e -> P (UnaryOp op e).
Hypothesis HCompare : forall l ops cs, P l -> Forall P cs -> P (Compare l ops cs).
Hypothesis HBoolOp : forall op vs, Forall P vs -> P (BoolOp op vs).
Hypothesis HCall : forall f args, P f -> Forall P args -> P (Call f args).
Hypothesis HIfExp : forall t b o, P t -> P b -> P o -> P (IfExp t b o).
Hypothesis HOther : forall k, P (Other k).

Fixpoint expr_ind' (e : expr) : P e :=
  let fix all (l : list expr) : Forall P l :=
    match l with
    | [] => List.Forall_nil P
    | x :: l' => List.Forall_cons P x l' (expr_ind' x) (all l')
    end in
  match e with
  | Constant v => HConstant v
  | Name id => HName id
  | BinOp l op r => HBinOp l op r (expr_ind' l) (expr_ind' r)
  | UnaryOp op e' => HUnaryOp op e' (expr_ind' e')
  | Compare l ops cs => HCompare l ops cs (expr_ind' l) (all cs)
  | BoolOp op vs => HBoolOp op vs (all vs)
  | Call f args => HCall f args (expr_ind' f) (all args)
  | IfExp t b o => HIfExp t b o (expr_ind' t) (expr_ind' b) (expr_ind' o)
  | Other k => HOther k
  end.
End expr_induction.

End ast.

(** ** Strings as the engine normalises them

    [str.lower] and [str.upper] are modelled on ASCII letters, which is what
    Python identifiers of the formulas are made of. *)

Definition ascii_lower (c : ascii) : ascii :=
  let n := N_of_ascii c in
  if (65 <=? n)%N && (n <=? 90)%N then ascii_of_N (n + 32) else c.

Definition ascii_upper (c : ascii) : ascii :=
  let n := N_of_ascii c in
  if (97 <=? n)%N && (n <=? 122)%N then ascii_of_N (n - 32) else c.

Fixpoint map_chars (f : ascii -> ascii) (s : string) : string :=
  match s with
  | EmptyString => EmptyString
  | String c s' => String (f c) (map_chars f s')
  end.

(** [s.lower()], [s.upper()] *)
Definition lower : string -> string := map_chars ascii_lower.
Definition upper : string -> string := map_chars ascii_upper.

(** [s.replace(" ", "_")] *)
Definition spaces_to_underscores : string -> string :=
  map_chars (fun c => if Ascii.eqb c " "%char then "_"%char else c).

(** [list(set(l))]: the distinct elements of [l], each once.  Python leaves
    their order unspecified; the model lists them in one fixed order. *)
Definition list_of_set (l : list string) : list string := remove_dups l.

(** ** Result records *)

Module FormulaResult.
Record t : Type := mk {
  value : pyval;
  error : option string;
  fields_used : list string;
}.
End FormulaResult.

Module ValidationResult.
Record t : Type := mk {
  is_valid : bool;
  errors : list string;
  fields_used : list string;
  functions_used : list string;
}.
End ValidationResult.

(** All available fields from the fundamentals table *)
Definition FUNDAMENTALS_FIELDS : gset string :=
  list_to_set
    [ "ticker"; "as_of"; "ebit"; "enterprise_value"; "net_working_capital";
      "revenue"; "revenue_growth_yoy"; "gross_margin"; "operating_margin";
      "net_margin"; "free_cash_flow"; "fcf_yield"; "total_debt"; "total_equity";
      "debt_to_equity"; "interest_coverage"; "book_value"; "tangible_book_value";
      "book_value_per_share"; "market_cap"; "price"; "shares_outstanding";
      "pe_ratio"; "pb_ratio"; "ps_ratio"; "ev_to_ebitda"; "dividend_yield";
      "payout_ratio"; "eps"; "eps_growth_yoy" ].

(** ** Callables and the operator table *)

Inductive callable : Type :=
| Unary (f : pyval -> result pyval)
| Binary (f : pyval -> pyval -> result pyval)
| Variadic (f : list pyval -> result pyval).

(** [f( *args )] *)
Definition call (f : callable) (args : list pyval) : result pyval :=
  match f, args with
  | Unary g, [a] => g a
  | Binary g, [a; b] => g a b
  | Variadic g, _ => g args
  | _, _ => Raise (TypeError "operator called with a wrong number of arguments")
  end.

(** [repr] of an [ast] class, as [str(KeyError(cls))] shows it *)
Definition repr_class (c : ast.op_class) : string :=
  "<class 'ast." +:+ ast.class_name c +:+ "'>".

Section Engine.

Variable rt : Runtime.

(** Python's [ast.parse(expression, mode="eval")], giving [tree.body] *)
Variable ast_parse : string -> result ast.expr.

Definition SAFE_OPERATORS (c : ast.op_class) : option callable :=
  match c with
  | ast.OfOperator ast.Add => Some (Binary py_add)
  | ast.OfOperator ast.Sub => Some (Binary py_sub)
  | ast.OfOperator ast.Mult => Some (Binary py_mul)
  | ast.OfOperator ast.Div => Some (Binary py_truediv)
  | ast.OfOperator ast.Pow => Some (Binary (py_pow rt))
  | ast.OfOperator ast.Mod => Some (Binary (py_mod rt))
  | ast.OfUnaryop ast.USub => Some (Unary py_neg)
  | ast.OfUnaryop ast.UAdd => Some (Unary py_pos)
  | ast.OfCmpop ast.Gt => Some (Binary py_gt)
  | ast.OfCmpop ast.Lt => Some (Binary py_lt)
  | ast.OfCmpop ast.GtE => Some (Binary py_ge)
  | ast.OfCmpop ast.LtE => Some (Binary py_le)
  | ast.OfCmpop ast.Eq => Some (Binary py_eq)
  | ast.OfCmpop ast.NotEq => Some (Binary py_ne)
  | ast.OfBoolop ast.And => Some (Variadic (fun args => Ok (VBool (forallb truthy args))))
  | ast.OfBoolop ast.Or => Some (Variadic (fun args => Ok (VBool (existsb truthy args))))
  | ast.OfUnaryop ast.Not => Some (Unary py_not)
  | _ => None
  end.

(** [SAFE_OPERATORS[cls]] *)
Definition operator_lookup (c : ast.op_class) : result callable :=
  match SAFE_OPERATORS c with
  | Some f => Ok f
  | None => Raise (KeyError (repr_class c))
  end.

(** The engine object: [self.functions] and [self._computed_cache]. *)
Record FormulaEngine : Type := {
  functions : gmap string pyfunc;
  _computed_cache : gmap string pyval;
}.

(** [FormulaEngine.__init__] *)
Definition FormulaEngine_init (additional_functions : option (gmap string pyfunc))
    : FormulaEngine :=
  {| functions :=
       match additional_functions with
       | Some extra => extra ∪ SAFE_FUNCTIONS rt
       | None => SAFE_FUNCTIONS rt
       end;
     _computed_cache := ∅ |}.

Variable self : FormulaEngine.

(** *** Validation *)

(** the three lists [_validate_node] appends to *)
Record vstate : Type := {
  v_errors : list string;
  v_fields : list string;
  v_funcs : list string;
}.

Definition add_error (msg : string) (st : vstate) : vstate :=
  {| v_errors := v_errors st ++ [msg]; v_fields := v_fields st; v_funcs := v_funcs st |}.
Definition add_field (name : string) (st : vstate) : vstate :=
  {| v_errors := v_errors st; v_fields := v_fields st ++ [name]; v_funcs := v_funcs st |}.
Definition add_func (name : string) (st : vstate) : vstate :=
  {| v_errors := v_errors st; v_fields := v_fields st; v_funcs := v_funcs st ++ [name] |}.

(** [if type(op) not in SAFE_OPERATORS: errors.append(...)] *)
Definition check_operator (what : string) (c : ast.op_class) (st : vstate) : vstate :=
  match SAFE_OPERATORS c with
  | Some _ => st
  | None => add_error (what +:+ ast.class_name c) st
  end.

Fixpoint _validate_node (node : ast.expr) (st : vstate) : vstate :=
  match node with
  | ast.Constant v =>
      match v with
      | VStr _ => add_error "Unsupported constant type: <class 'str'>" st
      | _ => st
      end
  | ast.Name id =>
      let name := lower id in
      (* a name outside the catalog and the cache is allowed: [pass] *)
      add_field name st
  | ast.BinOp lhs op rhs =>
      let st := check_operator "Unsupported operator: " (ast.OfOperator op) st in
      let st := _validate_node lhs st in
      _validate_node rhs st
  | ast.UnaryOp op operand =>
      let st := check_operator "Unsupported unary operator: " (ast.OfUnaryop op) st in
      _validate_node operand st
  | ast.Compare lhs ops comparators =>
      let st := _validate_node lhs st in
      (fix each (ops : list ast.cmpop) (comparators : list ast.expr) (st : vstate)
           {struct comparators} : vstate :=
         match ops, comparators with
         | op :: ops', comparator :: rest =>
             let st := check_operator "Unsupported comparison: " (ast.OfCmpop op) st in
             let st := _validate_node comparator st in
             each ops' rest st
         | _, _ => st
         end) ops comparators st
  | ast.BoolOp _ values =>
      fold_left (fun st value => _validate_node value st) values st
  | ast.Call func args =>
      match func with
      | ast.Name id =>
          let func_name := upper id in
          let st := match functions self !! func_name with
                    | Some _ => st
                    | None => add_error ("Unknown function: " +:+ func_name) st
                    end in
          let st := add_func func_name st in
          fold_left (fun st arg => _validate_node arg st) args st
      | _ => add_error "Only simple function calls are supported" st
      end
  | ast.IfExp test body orelse =>
      let st := _validate_node test st in
      let st := _validate_node body st in
      _validate_node orelse st
  | ast.Other kind => add_error ("Unsupported expression type: " +:+ kind) st
  end.

(** [FormulaEngine.validate].  Only [SyntaxError] is caught; any other
    exception of the parser leaves [validate]. *)
Definition validate (expression : string) : result ValidationResult.t :=
  let start := {| v_errors := []; v_fields := []; v_funcs := [] |} in
  let* st :=
    match ast_parse expression with
    | Ok body => Ok (_validate_node body start)
    | Raise (SyntaxError msg) => Ok (add_error ("Syntax error: " +:+ msg) start)
    | Raise e => Raise e
    end in
  Ok {| ValidationResult.is_valid := Nat.eqb (length (v_errors st)) 0;
        ValidationResult.errors := v_errors st;
        ValidationResult.fields_used := list_of_set (v_fields st);
        ValidationResult.functions_used := list_of_set (v_funcs st) |}.

(** *** Evaluation *)

(** [_eval_node] returns a value and leaves the list [fields_used]
    extended, or raises. *)
Definition outcome : Type := result (pyval * list string).

Section Loops.

(** the recursive call, with the context fixed *)
Variable ev : ast.expr -> list string -> outcome.

(** [[self._eval_node(arg, context, fields_used) for arg in node.args]] *)
Fixpoint eval_args (args : list ast.expr) (fields_used : list string)
    : result (list pyval * list string) :=
  match args with
  | [] => Ok ([], fields_used)
  | arg :: rest =>
      let* (v, fields_used) := ev arg fields_used in
      let* (vs, fields_used) := eval_args rest fields_used in
      Ok (v :: vs, fields_used)
  end.

(** [for op, comparator in zip(node.ops, node.comparators): ...] *)
Fixpoint compare_loop (ops : list ast.cmpop) (comparators : list ast.expr)
    (lhs : pyval) (fields_used : list string) {struct comparators} : outcome :=
  match ops, comparators with
  | op :: ops', comparator :: rest =>
      let* (rhs, fields_used) := ev comparator fields_used in
      if is_none rhs then Ok (VNone, fields_used)
      else
        let* op_func := operator_lookup (ast.OfCmpop op) in
        let* holds := call op_func [lhs; rhs] in
        if negb (truthy holds) then Ok (VBool false, fields_used)
        else compare_loop ops' rest rhs fields_used
  | _, _ => Ok (VBool true, fields_used)
  end.

(** the loop of [BoolOp] with [And] *)
Fixpoint and_loop (values : list ast.expr) (fields_used : list string) : outcome :=
  match values with
  | [] => Ok (VBool true, fields_used)
  | value :: rest =>
      let* (r, fields_used) := ev value fields_used in
      if negb (truthy r) then Ok (VBool false, fields_used)
      else and_loop rest fields_used
  end.

(** the loop of [BoolOp] with [Or] *)
Fixpoint or_loop (values : list ast.expr) (fields_used : list string) : outcome :=
  match values with
  | [] => Ok (VBool false, fields_used)
  | value :: rest =>
      let* (r, fields_used) := ev value fields_used in
      if truthy r then Ok (VBool true, fields_used)
      else or_loop rest fields_used
  end.

End Loops.

(** [func_name in ("COALESCE", "IF", "ISNULL")] *)
Definition null_aware (func_name : string) : bool :=
  String.eqb func_name "COALESCE" || String.eqb func_name "IF"
  || String.eqb func_name "ISNULL".

Fixpoint _eval_node (node : ast.expr) (context : gmap string pyval)
    (fields_used : list string) : outcome :=
  match node with
  | ast.Constant value => Ok (value, fields_used)
  | ast.Name id =>
      let name := lower id in
      let fields_used := fields_used ++ [name] in
      match context !! name with
      | None => Raise (KeyError (repr_str name))
      | Some v => Ok (v, fields_used)
      end
  | ast.BinOp lhs op rhs =>
      let* (l, fields_used) := _eval_node lhs context fields_used in
      let* (r, fields_used) := _eval_node rhs context fields_used in
      if is_none l || is_none r then Ok (VNone, fields_used)
      else
        let* op_func := operator_lookup (ast.OfOperator op) in
        let* v := call op_func [l; r] in
        Ok (v, fields_used)
  | ast.UnaryOp op operand =>
      let* (x, fields_used) := _eval_node operand context fields_used in
      if is_none x then Ok (VNone, fields_used)
      else
        let* op_func := operator_lookup (ast.OfUnaryop op) in
        let* v := call op_func [x] in
        Ok (v, fields_used)
  | ast.Compare lhs ops comparators =>
      let* (l, fields_used) := _eval_node lhs context fields_used in
      if is_none l then Ok (VNone, fields_used)
      else compare_loop (fun e fu => _eval_node e context fu) ops comparators l fields_used
  | ast.BoolOp ast.And values =>
      and_loop (fun e fu => _eval_node e context fu) values fields_used
  | ast.BoolOp ast.Or values =>
      or_loop (fun e fu => _eval_node e context fu) values fields_used
  | ast.Call func args =>
      match func with
      | ast.Name id =>
          let func_name := upper id in
          match functions self !! func_name with
          | None => Raise (KeyError (repr_str func_name))
          | Some f =>
              let* (vs, fields_used) :=
                eval_args (fun e fu => _eval_node e context fu) args fields_used in
              if null_aware func_name then
                let* v := f vs in Ok (v, fields_used)
              else if existsb is_none vs then Ok (VNone, fields_used)
              else
                let* v := f vs in Ok (v, fields_used)
          end
      | _ =>
          Raise (AttributeError ("'" +:+ ast.node_name func
                                 +:+ "' object has no attribute 'id'"))
      end
  | ast.IfExp test body orelse =>
      let* (t, fields_used) := _eval_node test context fields_used in
      if truthy t then _eval_node body context fields_used
      else _eval_node orelse context fields_used
  | ast.Other kind => Raise (ValueError ("Cannot evaluate node type: " +:+ kind))
  end.

(** [{k.lower(): v for k, v in items}], the items taken in order *)
Definition dict_lower (items : list (string * pyval)) : gmap string pyval :=
  fold_left (fun m kv => <[lower kv.1 := kv.2]> m) items ∅.

(** The context of [evaluate]: the entries of [data] whose value is not
    [None], then [context.update(...)] with the overlay when that is
    neither [None] nor empty.  [data] and the overlay are the item lists
    of Python dictionaries. *)
Definition build_context (data : list (string * pyval))
    (computed_fields : option (list (string * pyval))) : gmap string pyval :=
  let context := dict_lower (List.filter (fun kv => negb (is_none kv.2)) data) in
  match computed_fields with
  | Some overlay =>
      match overlay with
      | [] => context
      | _ :: _ => dict_lower overlay ∪ context
      end
  | None => context
  end.

(** the [except] clauses of [evaluate], in their order *)
Definition on_exception (e : exn) : FormulaResult.t :=
  let failed (msg : string) := FormulaResult.mk VNone (Some msg) [] in
  match e with
  | ZeroDivisionError _ => failed "Division by zero"
  | ValueError msg => failed ("Math error: " +:+ msg)
  | KeyError k => failed ("Missing field: " +:+ k)
  | SyntaxError msg | TypeError msg | OverflowError msg | AttributeError msg =>
      failed ("Evaluation error: " +:+ msg)
  end.

(** [FormulaEngine.evaluate] *)
Definition evaluate (expression : string) (data : list (string * pyval))
    (computed_fields : option (list (string * pyval))) : FormulaResult.t :=
  let context := build_context data computed_fields in
  match (let* tree := ast_parse expression in _eval_node tree context []) with
  | Ok (value, fields_used) => FormulaResult.mk value None fields_used
  | Raise e => on_exception e
  end.

End Engine.

(** ** A model of [ast.parse(text, mode="eval")]

    The parser of the Python standard library is modelled on the fragment
    of the expression grammar that formulas are written in: decimal integer
    and float literals, plain string literals, [True], [False], [None],
    names, parentheses, calls with positional arguments, the unary and
    binary operators, comparisons with their chaining, [not], [and], [or]
    and conditional expressions.  Precedence and associativity are those of
    the Python grammar. *)

Module Syntax.

Inductive keyword : Type := KAnd | KOr | KNot | KIf | KElse | KIn | KIs.

Inductive punct : Type :=
| PPlus | PMinus | PStar | PSlash | PDoubleSlash | PPercent | PAt | PDoubleStar
| PPipe | PCaret | PAmp | PTilde | PLShift | PRShift
| PLt | PGt | PLtE | PGtE | PEqEq | PNotEq
| PLPar | PRPar | PComma.

Inductive token : Type :=
| TConst (v : pyval)
| TName (id : string)
| TKw (k : keyword)
| TPunct (p : punct).

Definition is_digit (c : ascii) : bool :=
  let n := N_of_ascii c in (48 <=? n)%N && (n <=? 57)%N.

Definition is_name_start (c : ascii) : bool :=
  let n := N_of_ascii c in
  ((65 <=? n)%N && (n <=? 90)%N) || ((97 <=? n)%N && (n <=? 122)%N) || (n =? 95)%N.

Definition is_name_char (c : ascii) : bool := is_name_start c || is_digit c.

Definition is_blank (c : ascii) : bool :=
  let n := N_of_ascii c in (n =? 32)%N || (n =? 9)%N.

Definition is_quote (c : ascii) : bool :=
  let n := N_of_ascii c in (n =? 39)%N || (n =? 34)%N.

Fixpoint span (p : ascii -> bool) (cs : list ascii) : list ascii * list ascii :=
  match cs with
  | c :: rest =>
      if p c then let '(taken, others) := span p rest in (c :: taken, others)
      else ([], cs)
  | [] => ([], [])
  end.

Definition digits_value (ds : list ascii) : Z :=
  fold_left (fun acc c => 10 * acc + (Z.of_N (N_of_ascii c) - 48)) ds 0.

(** the float nearest to [m * 10 ^ e10], for a decimal literal *)
Definition decimal_float (m e10 : Z) : spec_float :=
  if m =? 0 then Float.zero
  else if 0 <=? e10 then Float.of_Z (m * 10 ^ e10)
  else Float.of_ratio false (Z.to_pos m) (Z.to_pos (10 ^ (- e10))).

Definition starts_with (p : ascii -> bool) (cs : list ascii) : bool :=
  match cs with c :: _ => p c | [] => false end.

Definition is_char (n : N) (c : ascii) : bool := (N_of_ascii c =? n)%N.

(** a decimal integer or float literal at the head of [cs] *)
Definition lex_number (cs : list ascii) : option (pyval * list ascii) :=
  let '(ip, r1) := span is_digit cs in
  let '(fp, has_dot, r2) :=
    match r1 with
    | c :: r => if is_char 46 c then let '(fp, r') := span is_digit r in (fp, true, r')
                else ([], false, r1)
    | [] => ([], false, r1)
    end in
  '(ex, has_exp, r3) ←
    match r2 with
    | c :: r =>
        if is_char 101 c || is_char 69 c then
          let '(sgn, r') :=
            match r with
            | s :: r' => if is_char 43 s then (1, r')
                         else if is_char 45 s then (-1, r') else (1, r)
            | [] => (1, r)
            end in
          let '(ed, r'') := span is_digit r' in
          match ed with
          | [] => None
          | _ => Some (sgn * digits_value ed, true, r'')
          end
        else Some (0, false, r2)
    | [] => Some (0, false, r2)
    end;
  if starts_with (fun c => is_name_char c || is_char 46 c) r3 then None
  else
    match ip ++ fp with
    | [] => None
    | ds =>
        if has_dot || has_exp
        then Some (VFloat (decimal_float (digits_value ds) (ex - Z.of_nat (length fp))), r3)
        else
          let leading_zero := starts_with (is_char 48) ip && negb (digits_value ip =? 0) in
          if leading_zero then None else Some (VInt (digits_value ip), r3)
    end.

Definition classify_word (w : string) : option token :=
  if String.eqb w "and" then Some (TKw KAnd)
  else if String.eqb w "or" then Some (TKw KOr)
  else if String.eqb w "not" then Some (TKw KNot)
  else if String.eqb w "if" then Some (TKw KIf)
  else if String.eqb w "else" then Some (TKw KElse)
  else if String.eqb w "in" then Some (TKw KIn)
  else if String.eqb w "is" then Some (TKw KIs)
  else if String.eqb w "True" then Some (TConst (VBool true))
  else if String.eqb w "False" then Some (TConst (VBool false))
  else if String.eqb w "None" then Some (TConst VNone)
  else if existsb (String.eqb w)
            [ "as"; "assert"; "async"; "await"; "break"; "class"; "continue"; "def";
              "del"; "elif"; "except"; "finally"; "for"; "from"; "global"; "import";
              "lambda"; "nonlocal"; "pass"; "raise"; "return"; "try"; "while";
              "with"; "yield" ]
  then None
  else Some (TName w).

Definition punct2 (a b : ascii) : option punct :=
  if is_char 42 a && is_char 42 b then Some PDoubleStar
  else if is_char 47 a && is_char 47 b then Some PDoubleSlash
  else if is_char 60 a && is_char 60 b then Some PLShift
  else if is_char 62 a && is_char 62 b then Some PRShift
  else if is_char 60 a && is_char 61 b then Some PLtE
  else if is_char 62 a && is_char 61 b then Some PGtE
  else if is_char 61 a && is_char 61 b then Some PEqEq
  else if is_char 33 a && is_char 61 b then Some PNotEq
  else None.

Definition punct1 (a : ascii) : option punct :=
  if is_char 43 a then Some PPlus
  else if is_char 45 a then Some PMinus
  else if is_char 42 a then Some PStar
  else if is_char 47 a then Some PSlash
  else if is_char 37 a then Some PPercent
  else if is_char 64 a then Some PAt
  else if is_char 124 a then Some PPipe
  else if is_char 94 a then Some PCaret
  else if is_char 38 a then Some PAmp
  else if is_char 126 a then Some PTilde
  else if is_char 60 a then Some PLt
  else if is_char 62 a then Some PGt
  else if is_char 40 a then Some PLPar
  else if is_char 41 a then Some PRPar
  else if is_char 44 a then Some PComma
  else None.

(** the token at the head of [cs] (not blank), and the rest *)
Definition lex_token (cs : list ascii) : option (token * list ascii) :=
  match cs with
  | [] => None
  | c :: rest =>
      if is_digit c || (is_char 46 c && starts_with is_digit rest) then
        '(v, r) ← lex_number cs; Some (TConst v, r)
      else if is_name_start c then
        let '(w, r) := span is_name_char cs in
        if starts_with is_quote r then None
        else tok ← classify_word (string_of_list_ascii w); Some (tok, r)
      else if is_quote c then
        let '(body, r) := span (fun x => negb (Ascii.eqb x c || is_char 92 x || is_char 10 x)) rest in
        match r with
        | q :: r' =>
            if Ascii.eqb q c && negb (starts_with is_quote r')
            then Some (TConst (VStr (string_of_list_ascii body)), r')
            else None
        | [] => None
        end
      else
        match rest with
        | d :: rest' =>
            match punct2 c d with
            | Some p =>
                (* [**=], [//=], [<<=], [>>=] and [===] are not operators of
                   expressions *)
                if starts_with (is_char 61) rest' then None else Some (TPunct p, rest')
            | None => p ← punct1 c; if is_char 61 d && negb (starts_with (is_char 61) rest')
                                     then None else Some (TPunct p, rest)
            end
        | [] => p ← punct1 c; Some (TPunct p, rest)
        end
  end.

Fixpoint tokens (fuel : nat) (cs : list ascii) : option (list token) :=
  match fuel with
  | O => None
  | S fuel =>
      match cs with
      | [] => Some []
      | c :: rest =>
          if is_blank c then tokens fuel rest
          else '(tok, r) ← lex_token cs; ts ← tokens fuel r; Some (tok :: ts)
      end
  end.

(** the tokens of an expression; leading blanks are an indentation error *)
Definition tokenize (text : string) : option (list token) :=
  let cs := list_ascii_of_string text in
  if starts_with is_blank cs then None
  else tokens (S (length cs)) cs.

(** *** The grammar *)

(** the levels of the expression grammar, loosest first *)
Inductive level : Type :=
| Expression | Disjunction | Conjunction | Inversion | Comparison
| BitwiseOr | BitwiseXor | BitwiseAnd | Shift | Sum | Term | Factor | Power
| Primary.

(** the binary operators of a left-associative level, and the next level *)
Definition binary_level (lv : level) : option (list (punct * ast.operator) * level) :=
  match lv with
  | BitwiseOr => Some ([(PPipe, ast.BitOr)], BitwiseXor)
  | BitwiseXor => Some ([(PCaret, ast.BitXor)], BitwiseAnd)
  | BitwiseAnd => Some ([(PAmp, ast.BitAnd)], Shift)
  | Shift => Some ([(PLShift, ast.LShift); (PRShift, ast.RShift)], Sum)
  | Sum => Some ([(PPlus, ast.Add); (PMinus, ast.Sub)], Term)
  | Term => Some ([(PStar, ast.Mult); (PSlash, ast.Div); (PDoubleSlash, ast.FloorDiv);
                   (PPercent, ast.Mod); (PAt, ast.MatMult)], Factor)
  | _ => None
  end.

Global Instance punct_eq_dec : EqDecision punct.
Proof. solve_decision. Defined.

Definition operator_of (table : list (punct * ast.operator)) (p : punct)
    : option ast.operator :=
  snd <$> List.find (fun entry => bool_decide (entry.1 = p)) table.

(** a comparison operator at the head of the tokens *)
Definition lex_cmpop (toks : list token) : option (ast.cmpop * list token) :=
  match toks with
  | TPunct PLt :: r => Some (ast.Lt, r)
  | TPunct PGt :: r => Some (ast.Gt, r)
  | TPunct PLtE :: r => Some (ast.LtE, r)
  | TPunct PGtE :: r => Some (ast.GtE, r)
  | TPunct PEqEq :: r => Some (ast.Eq, r)
  | TPunct PNotEq :: r => Some (ast.NotEq, r)
  | TKw KNot :: TKw KIn :: r => Some (ast.NotIn, r)
  | TKw KIn :: r => Some (ast.In, r)
  | TKw KIs :: TKw KNot :: r => Some (ast.IsNot, r)
  | TKw KIs :: r => Some (ast.Is, r)
  | _ => None
  end.

Fixpoint parse (fuel : nat) (lv : level) (toks : list token) {struct fuel}
    : option (ast.expr * list token) :=
  match fuel with
  | O => None
  | S fuel =>
      match lv with
      | Expression =>
          '(body, toks) ← parse fuel Disjunction toks;
          match toks with
          | TKw KIf :: toks =>
              '(test, toks) ← parse fuel Disjunction toks;
              match toks with
              | TKw KElse :: toks =>
                  '(orelse, toks) ← parse fuel Expression toks;
                  Some (ast.IfExp test body orelse, toks)
              | _ => None
              end
          | _ => Some (body, toks)
          end
      | Disjunction =>
          '(first, toks) ← parse fuel Conjunction toks;
          '(more, toks) ← operands fuel KOr Conjunction toks;
          Some (match more with
                | [] => first
                | _ => ast.BoolOp ast.Or (first :: more)
                end, toks)
      | Conjunction =>
          '(first, toks) ← parse fuel Inversion toks;
          '(more, toks) ← operands fuel KAnd Inversion toks;
          Some (match more with
                | [] => first
                | _ => ast.BoolOp ast.And (first :: more)
                end, toks)
      | Inversion =>
          match toks with
          | TKw KNot :: toks =>
              '(operand, toks) ← parse fuel Inversion toks;
              Some (ast.UnaryOp ast.Not operand, toks)
          | _ => parse fuel Comparison toks
          end
      | Comparison =>
          '(first, toks) ← parse fuel BitwiseOr toks;
          '(ops, comparators, toks) ← comparisons fuel toks;
          Some (match ops with
                | [] => first
                | _ => ast.Compare first ops comparators
                end, toks)
      | BitwiseOr | BitwiseXor | BitwiseAnd | Shift | Sum | Term =>
          '(table, next) ← binary_level lv;
          '(first, toks) ← parse fuel next toks;
          binary_chain fuel table next first toks
      | Factor =>
          match toks with
          | TPunct PPlus :: toks =>
              '(operand, toks) ← parse fuel Factor toks;
              Some (ast.UnaryOp ast.UAdd operand, toks)
          | TPunct PMinus :: toks =>
              '(operand, toks) ← parse fuel Factor toks;
              Some (ast.UnaryOp ast.USub operand, toks)
          | TPunct PTilde :: toks =>
              '(operand, toks) ← parse fuel Factor toks;
              Some (ast.UnaryOp ast.Invert operand, toks)
          | _ => parse fuel Power toks
          end
      | Power =>
          '(base, toks) ← parse fuel Primary toks;
          match toks with
          | TPunct PDoubleStar :: toks =>
              '(exponent, toks) ← parse fuel Factor toks;
              Some (ast.BinOp base ast.Pow exponent, toks)
          | _ => Some (base, toks)
          end
      | Primary =>
          '(atom, toks) ←
            match toks with
            | TConst v :: toks => Some (ast.Constant v, toks)
            | TName id :: toks => Some (ast.Name id, toks)
            | TPunct PLPar :: toks =>
                '(inner, toks) ← parse fuel Expression toks;
                match toks with
                | TPunct PRPar :: toks => Some (inner, toks)
                | _ => None
                end
            | _ => None
            end;
          calls fuel atom toks
      end
  end

(** [('or' conjunction)*] and [('and' inversion)*] *)
with operands (fuel : nat) (kw : keyword) (lv : level) (toks : list token) {struct fuel}
    : option (list ast.expr * list token) :=
  match fuel with
  | O => None
  | S fuel =>
      match toks with
      | TKw k :: toks' =>
          match kw, k with
          | KOr, KOr | KAnd, KAnd =>
              '(e, toks) ← parse fuel lv toks';
              '(es, toks) ← operands fuel kw lv toks;
              Some (e :: es, toks)
          | _, _ => Some ([], toks)
          end
      | _ => Some ([], toks)
      end
  end

(** [(compare_op bitwise_or)*] *)
with comparisons (fuel : nat) (toks : list token) {struct fuel}
    : option (list ast.cmpop * list ast.expr * list token) :=
  match fuel with
  | O => None
  | S fuel =>
      match lex_cmpop toks with
      | Some (op, toks) =>
          '(e, toks) ← parse fuel BitwiseOr toks;
          '(ops, es, toks) ← comparisons fuel toks;
          Some (op :: ops, e :: es, toks)
      | None => Some ([], [], toks)
      end
  end

(** the rest of a left-associative chain whose left operand is [lhs] *)
with binary_chain (fuel : nat) (table : list (punct * ast.operator)) (next : level)
    (lhs : ast.expr) (toks : list token) {struct fuel} : option (ast.expr * list token) :=
  match fuel with
  | O => None
  | S fuel =>
      match toks with
      | TPunct p :: toks' =>
          match operator_of table p with
          | Some op =>
              '(rhs, toks) ← parse fuel next toks';
              binary_chain fuel table next (ast.BinOp lhs op rhs) toks
          | None => Some (lhs, toks)
          end
      | _ => Some (lhs, toks)
      end
  end

(** the call suffixes of a primary *)
with calls (fuel : nat) (func : ast.expr) (toks : list token) {struct fuel}
    : option (ast.expr * list token) :=
  match fuel with
  | O => None
  | S fuel =>
      match toks with
      | TPunct PLPar :: TPunct PRPar :: toks => calls fuel (ast.Call func []) toks
      | TPunct PLPar :: toks =>
          '(args, toks) ← arguments fuel toks;
          calls fuel (ast.Call func args) toks
      | _ => Some (func, toks)
      end
  end

(** positional arguments up to the closing parenthesis; a trailing comma
    is allowed *)
with arguments (fuel : nat) (toks : list token) {struct fuel}
    : option (list ast.expr * list token) :=
  match fuel with
  | O => None
  | S fuel =>
      '(arg, toks) ← parse fuel Expression toks;
      match toks with
      | TPunct PRPar :: toks => Some ([arg], toks)
      | TPunct PComma :: TPunct PRPar :: toks => Some ([arg], toks)
      | TPunct PComma :: toks =>
          '(args, toks) ← arguments fuel toks;
          Some (arg :: args, toks)
      | _ => None
      end
  end.

(** the tree of an expression text of the fragment *)
Definition parse_expression (text : string) : option ast.expr :=
  toks ← tokenize text;
  '(tree, rest) ← parse (20 * S (length toks)) Expression toks;
  match rest with
  | [] => Some tree
  | _ => None
  end.

End Syntax.

(** [ast.parse(text, mode="eval").body].  Text that the fragment does not
    derive is answered with a syntax error; that is Python's answer for
    malformed text, while for Python syntax outside the fragment (attribute
    access, subscripts, collection displays, lambdas, keyword arguments, ...)
    Python builds a tree.  The fragment also leaves out numerals written
    with underscores or in another base, comments and line breaks, and a
    text with a NUL byte, which Python refuses with its own exception.  The
    payload is the message without the position Python appends.  No
    statement below depends on the answer for text outside the fragment. *)
Definition ast_parse (text : string) : result ast.expr :=
  match Syntax.parse_expression text with
  | Some tree => Ok tree
  | None => Raise (SyntaxError "invalid syntax")
  end.

(** ** Batch computation: [compute_all_formulas]

    The connection is modelled by the three tables the function touches.
    [formula_definitions] lists the rows [(id, name, expression)] in the
    order the query [ORDER BY category] returns them, [fundamentals] the rows
    in the order their query returns them.  A row of [fundamentals] has the
    columns [ticker] and [as_of] first, as the table declares them. *)

Record fundamentals_row : Type := {
  ticker : pyval;
  as_of : pyval;
  other_columns : list (string * pyval);
}.

(** [dict(zip(columns, row))] *)
Definition row_data (row : fundamentals_row) : list (string * pyval) :=
  ("ticker", ticker row) :: ("as_of", as_of row) :: other_columns row.

(** a row of [computed_metrics]; its key is [(ticker, as_of, metric_name)],
    and [metric_value] is the column [value DOUBLE]: a float, or [VNone] for
    NULL *)
Record metric : Type := {
  metric_ticker : pyval;
  metric_as_of : pyval;
  metric_name : string;
  metric_formula_id : string;
  metric_value : pyval;
}.

Record Connection : Type := {
  formula_definitions : list (string * string * string);
  fundamentals : list fundamentals_row;
  computed_metrics : list metric;
}.

Definition same_key (a b : metric) : bool :=
  bool_decide (metric_ticker a = metric_ticker b)
  && bool_decide (metric_as_of a = metric_as_of b)
  && String.eqb (metric_name a) (metric_name b).

(** [INSERT ... ON CONFLICT (ticker, as_of, metric_name) DO UPDATE SET
    formula_id = ..., value = ...] *)
Fixpoint upsert (new : metric) (table : list metric) : list metric :=
  match table with
  | [] => [new]
  | old :: rest => if same_key old new then new :: rest else old :: upsert new rest
  end.

(** [d[k] = v] on the items of a dictionary *)
Fixpoint dict_set (k : string) (v : pyval) (items : list (string * pyval))
    : list (string * pyval) :=
  match items with
  | [] => [(k, v)]
  | (k', v') :: rest =>
      if String.eqb k' k then (k, v) :: rest else (k', v') :: dict_set k v rest
  end.

(** [formula_name.lower().replace(" ", "_")] *)
Definition synthetic_name (formula_name : string) : string :=
  spaces_to_underscores (lower formula_name).

(** The INSERT binds [result.value] to the column [value DOUBLE]: the
    database converts the value to a double and stores that, or its
    conversion raises and [conn.execute] with it (a text such as a ticker
    is refused).  The function catches nothing, so the exception leaves both
    loops and the function: no count is returned, and the formulas and rows
    that were still to come are not evaluated.  The connection opens no
    transaction, so the statements executed before stay.

    An [attempt] is how a part of the function ends: it passes with its
    state, or an INSERT raised and the connection is left as it was at that
    INSERT. *)
Inductive attempt (A : Type) : Type :=
| Passed (a : A)
| Raised (conn : Connection).

Arguments Passed {A} a.
Arguments Raised {A} conn.

Section Batch.

Variable rt : Runtime.
Variable ast_parse : string -> result ast.expr.

(** the double the database stores for a bound value, or [None] when the
    conversion of the value raises *)
Variable sql_double : pyval -> option spec_float.

(** the state of the loops: the connection, [row_computed] and
    [computed_count] *)
Definition loop_state : Type := Connection * list (string * pyval) * Z.

(** the body of [for formula_id, formula_name, expression in formulas] *)
Definition formula_step (engine : FormulaEngine) (row : fundamentals_row)
    (st : loop_state) (formula : string * string * string) : attempt loop_state :=
  let '(conn, row_computed, computed_count) := st in
  let '(formula_id, formula_name, expression) := formula in
  let r := evaluate rt ast_parse engine expression (row_data row) (Some row_computed) in
  if is_none (FormulaResult.value r) then Passed st
  else
    match sql_double (FormulaResult.value r) with
    | None => Raised conn
    | Some stored_value =>
        let conn :=
          {| formula_definitions := formula_definitions conn;
             fundamentals := fundamentals conn;
             computed_metrics :=
               upsert {| metric_ticker := ticker row;
                         metric_as_of := as_of row;
                         metric_name := formula_name;
                         metric_formula_id := formula_id;
                         metric_value := VFloat stored_value |}
                      (computed_metrics conn) |} in
        Passed (conn,
                dict_set (synthetic_name formula_name) (FormulaResult.value r) row_computed,
                computed_count + 1)
    end.

(** [for formula_id, formula_name, expression in formulas]: left at the
    first INSERT that raises *)
Fixpoint formulas_loop (engine : FormulaEngine) (row : fundamentals_row)
    (formulas : list (string * string * string)) (st : loop_state) : attempt loop_state :=
  match formulas with
  | [] => Passed st
  | formula :: rest =>
      match formula_step engine row st formula with
      | Passed st => formulas_loop engine row rest st
      | Raised conn => Raised conn
      end
  end.

(** the body of [for row in rows]: [row_computed] starts empty *)
Definition row_step (engine : FormulaEngine) (formulas : list (string * string * string))
    (st : Connection * Z) (row : fundamentals_row) : attempt (Connection * Z) :=
  let '(conn, computed_count) := st in
  match formulas_loop engine row formulas (conn, [], computed_count) with
  | Passed (conn, _, computed_count) => Passed (conn, computed_count)
  | Raised conn => Raised conn
  end.

(** [for row in rows] *)
Fixpoint rows_loop (engine : FormulaEngine) (formulas : list (string * string * string))
    (rows : list fundamentals_row) (st : Connection * Z) : attempt (Connection * Z) :=
  match rows with
  | [] => Passed st
  | row :: rest =>
      match row_step engine formulas st row with
      | Passed st => rows_loop engine formulas rest st
      | Raised conn => Raised conn
      end
  end.

(** [SELECT * FROM fundamentals WHERE ticker IN (...)], the clause being
    there when [universe] is neither [None] nor empty *)
Definition select_fundamentals (conn : Connection) (universe : option (list string))
    : list fundamentals_row :=
  match universe with
  | Some tickers =>
      match tickers with
      | [] => fundamentals conn
      | _ :: _ =>
          List.filter (fun row => bool_decide (ticker row ∈ VStr <$> tickers))
                      (fundamentals conn)
      end
  | None => fundamentals conn
  end.

(** [compute_all_formulas(conn, universe)]: it returns the count, the
    connection being as the loops left it, or an INSERT raised *)
Definition compute_all_formulas (conn : Connection) (universe : option (list string))
    : attempt (Connection * Z) :=
  let formulas := formula_definitions conn in
  let engine := FormulaEngine_init rt None in
  let rows := select_fundamentals conn universe in
  rows_loop engine formulas rows (conn, 0).

End Batch.

(** ** Evaluation for a universe: [evaluate_formula_for_universe]

    The function validates the text, then evaluates it once for each row
    that the query

      [SELECT * FROM fundamentals WHERE ticker IN (...) AND as_of = ?
       ORDER BY ticker, as_of DESC]

    returns, each clause being there when its argument is neither [None] nor
    empty.  Three things belong to the database and to Python's [str] and
    are parameters: how a value of the column [as_of] compares with the text
    of the argument, the order [ORDER BY ticker, as_of DESC] puts rows in,
    and the text [str] gives for a value of the column [as_of]. *)

(** ["; ".join(errors)] *)
Fixpoint join (sep : string) (items : list string) : string :=
  match items with
  | [] => ""
  | [item] => item
  | item :: rest => item +:+ sep +:+ join sep rest
  end.

Section Universe.

Variable rt : Runtime.
Variable ast_parse : string -> result ast.expr.

(** [as_of = ?] in the [WHERE] clause *)
Variable as_of_equals : pyval -> string -> bool.
(** [ORDER BY ticker, as_of DESC] *)
Variable order_by_ticker_as_of_desc : list fundamentals_row -> list fundamentals_row.
(** [str(value)] *)
Variable py_str : pyval -> string.

(** the rows of the query *)
Definition select_for_universe (conn : Connection) (universe : option (list string))
    (as_of_filter : option string) : list fundamentals_row :=
  let rows := select_fundamentals conn universe in
  let rows :=
    match as_of_filter with
    | Some day =>
        if String.eqb day "" then rows
        else List.filter (fun row => as_of_equals (as_of row) day) rows
    | None => rows
    end in
  order_by_ticker_as_of_desc rows.

(** [result.error] as the value of a dictionary *)
Definition error_value (error : option string) : pyval :=
  match error with
  | Some msg => VStr msg
  | None => VNone
  end.

(** the dictionary appended for one row *)
Definition universe_entry (engine : FormulaEngine) (expression : string)
    (row : fundamentals_row) : list (string * pyval) :=
  let data := row_data row in
  let r := evaluate rt ast_parse engine expression data None in
  [ ("ticker", ticker row);
    ("as_of", VStr (py_str (as_of row)));
    ("value", FormulaResult.value r);
    ("error", error_value (FormulaResult.error r)) ].

(** [evaluate_formula_for_universe(conn, expression, universe, as_of)]: the
    list of dictionaries, each as its items *)
Definition evaluate_formula_for_universe (conn : Connection) (expression : string)
    (universe : option (list string)) (as_of_filter : option string)
    : result (list (list (string * pyval))) :=
  let engine := FormulaEngine_init rt None in
  let* validation := validate rt ast_parse engine expression in
  if negb (ValidationResult.is_valid validation)
  then Ok [[("error", VStr (join "; " (ValidationResult.errors validation)))]]
  else
    let rows := select_for_universe conn universe as_of_filter in
    Ok (map (universe_entry engine expression) rows).

End Universe.

(** ** Translation to SQL: [generate_sql_expression] *)

(** [s.replace("", new)]: [new] before every character and at the end *)
Fixpoint interleave (new s : string) : string :=
  match s with
  | EmptyString => new
  | String c rest => new +:+ String c (interleave new rest)
  end.

(** the scan of [s.replace(old, new)] for an [old] that is not empty, from
    left to right; [skip] counts the characters of a match still to pass *)
Fixpoint replace_scan (old new : string) (skip : nat) (s : string) : string :=
  match s with
  | EmptyString => EmptyString
  | String c rest =>
      match skip with
      | S n => replace_scan old new n rest
      | O =>
          if String.prefix old s
          then new +:+ replace_scan old new (String.length old - 1) rest
          else String c (replace_scan old new O rest)
      end
  end.

(** [s.replace(old, new)] *)
Definition str_replace (old new s : string) : string :=
  match old with
  | EmptyString => interleave new s
  | String _ _ => replace_scan old new O s
  end.

(** the dictionary [sql_functions], in the order of its items *)
Definition sql_functions : list (string * string) :=
  [ ("SQRT", "SQRT"); ("ABS", "ABS"); ("MAX", "GREATEST"); ("MIN", "LEAST");
    ("AVG", "AVG"); ("ROUND", "ROUND"); ("FLOOR", "FLOOR"); ("CEIL", "CEILING");
    ("COALESCE", "COALESCE"); ("IF", "CASE WHEN"); ("LOG", "LN"); ("LOG10", "LOG10");
    ("EXP", "EXP"); ("POW", "POWER") ].

Definition generate_sql_expression (expression : string) : string :=
  fold_left (fun sql_expr pair => str_replace (pair.1 +:+ "(") (pair.2 +:+ "(") sql_expr)
            sql_functions expression.

(** * Notions used in the statements *)

(** ** A runtime and an engine for closed examples

    The closed examples below need some value of type [Runtime].  This one
    answers NaN, or raises, wherever the C library or a built-in outside the
    model would be called; none of the examples reaches such a call. *)

Definition example_runtime : Runtime := {|
  float_pow := fun _ _ => Ok (VFloat Float.nan);
  pow3 := fun _ _ _ => Raise (TypeError "pow() with three arguments");
  c_log := fun _ => Float.nan;
  c_log10 := fun _ => Float.nan;
  c_exp := fun _ => Float.nan;
  c_fmod := fun _ _ => Float.nan;
  str_mod := fun _ _ => Raise (TypeError "string formatting");
  round_ndigits := fun _ _ => Raise (TypeError "round() with two arguments");
|}.

(** [FormulaEngine()] *)
Definition example_engine : FormulaEngine := FormulaEngine_init example_runtime None.

(** the float a decimal literal denotes: [float_lit m e] is [m * 10 ^ e] *)
Definition float_lit (m e10 : Z) : pyval := VFloat (Syntax.decimal_float m e10).

Section EvaluationPaths.

Variable rt : Runtime.
Variable self : FormulaEngine.
Variable context : gmap string pyval.

(** [null_inside e fu]: while [e] is evaluated from the state [fu], some
    operand reached through arithmetic nodes only evaluates to [None]. *)
Inductive null_inside : ast.expr -> list string -> Prop :=
| null_here e fu fu' :
    _eval_node rt self e context fu = Ok (VNone, fu') -> null_inside e fu
| null_in_left lhs op rhs fu :
    null_inside lhs fu -> null_inside (ast.BinOp lhs op rhs) fu
| null_in_right lhs op rhs fu l fu1 :
    _eval_node rt self lhs context fu = Ok (l, fu1) ->
    null_inside rhs fu1 -> null_inside (ast.BinOp lhs op rhs) fu
| null_in_operand op operand fu :
    null_inside operand fu -> null_inside (ast.UnaryOp op operand) fu.

Local Abbreviation ev := (fun e fu => _eval_node rt self e context fu).

(** [visits e fu sub fu']: the evaluation of [e] started with the list
    [fu] calls [_eval_node] on the node [sub] with the list [fu'].  The
    rules follow the order of evaluation of [_eval_node]: an operand is
    reached when the operands before it returned, a comparator when the
    links before it held, an operand of [and] ([or]) when those before
    it were truthy (falsy), a branch of a conditional when the test chose
    it. *)
Inductive visits : ast.expr -> list string -> ast.expr -> list string -> Prop :=
| visits_here e fu : visits e fu e fu
| visits_binop_left lhs op rhs fu sub fu' :
    visits lhs fu sub fu' -> visits (ast.BinOp lhs op rhs) fu sub fu'
| visits_binop_right lhs op rhs fu l fu1 sub fu' :
    ev lhs fu = Ok (l, fu1) ->
    visits rhs fu1 sub fu' -> visits (ast.BinOp lhs op rhs) fu sub fu'
| visits_unaryop op operand fu sub fu' :
    visits operand fu sub fu' -> visits (ast.UnaryOp op operand) fu sub fu'
| visits_compare_left lhs ops comparators fu sub fu' :
    visits lhs fu sub fu' -> visits (ast.Compare lhs ops comparators) fu sub fu'
| visits_compare_chain lhs ops comparators fu l fu1 sub fu' :
    ev lhs fu = Ok (l, fu1) -> is_none l = false ->
    visits_chain ops comparators l fu1 sub fu' ->
    visits (ast.Compare lhs ops comparators) fu sub fu'
| visits_boolop_and values fu sub fu' :
    visits_and values fu sub fu' -> visits (ast.BoolOp ast.And values) fu sub fu'
| visits_boolop_or values fu sub fu' :
    visits_or values fu sub fu' -> visits (ast.BoolOp ast.Or values) fu sub fu'
| visits_call id args f fu sub fu' :
    functions self !! upper id = Some f ->
    visits_args args fu sub fu' -> visits (ast.Call (ast.Name id) args) fu sub fu'
| visits_ifexp_test test body orelse fu sub fu' :
    visits test fu sub fu' -> visits (ast.IfExp test body orelse) fu sub fu'
| visits_ifexp_body test body orelse fu t fu1 sub fu' :
    ev test fu = Ok (t, fu1) -> truthy t = true ->
    visits body fu1 sub fu' -> visits (ast.IfExp test body orelse) fu sub fu'
| visits_ifexp_orelse test body orelse fu t fu1 sub fu' :
    ev test fu = Ok (t, fu1) -> truthy t = false ->
    visits orelse fu1 sub fu' -> visits (ast.IfExp test body orelse) fu sub fu'

with visits_chain
     : list ast.cmpop -> list ast.expr -> pyval -> list string ->
       ast.expr -> list string -> Prop :=
| visits_chain_head op ops comparator rest lhs fu sub fu' :
    visits comparator fu sub fu' ->
    visits_chain (op :: ops) (comparator :: rest) lhs fu sub fu'
| visits_chain_tail op ops comparator rest lhs fu rhs fu1 op_func holds sub fu' :
    ev comparator fu = Ok (rhs, fu1) -> is_none rhs = false ->
    operator_lookup rt (ast.OfCmpop op) = Ok op_func ->
    call op_func [lhs; rhs] = Ok holds -> truthy holds = true ->
    visits_chain ops rest rhs fu1 sub fu' ->
    visits_chain (op :: ops) (comparator :: rest) lhs fu sub fu'

with visits_and : list ast.expr -> list string -> ast.expr -> list string -> Prop :=
| visits_and_head value rest fu sub fu' :
    visits value fu sub fu' -> visits_and (value :: rest) fu sub fu'
| visits_and_tail value rest fu r fu1 sub fu' :
    ev value fu = Ok (r, fu1) -> truthy r = true ->
    visits_and rest fu1 sub fu' -> visits_and (value :: rest) fu sub fu'

with visits_or : list ast.expr -> list string -> ast.expr -> list string -> Prop :=
| visits_or_head value rest fu sub fu' :
    visits value fu sub fu' -> visits_or (value :: rest) fu sub fu'
| visits_or_tail value rest fu r fu1 sub fu' :
    ev value fu = Ok (r, fu1) -> truthy r = false ->
    visits_or rest fu1 sub fu' -> visits_or (value :: rest) fu sub fu'

with visits_args : list ast.expr -> list string -> ast.expr -> list string -> Prop :=
| visits_args_head arg rest fu sub fu' :
    visits arg fu sub fu' -> visits_args (arg :: rest) fu sub fu'
| visits_args_tail arg rest fu v fu1 sub fu' :
    ev arg fu = Ok (v, fu1) ->
    visits_args rest fu1 sub fu' -> visits_args (arg :: rest) fu sub fu'.

(** [links_hold ops comparators lhs fu last fu']: the links of a chained
    comparison, evaluated from the left operand [lhs] and the state [fu],
    all hold; [last] is the value of the last comparator and [fu'] the state
    after it. *)
Inductive links_hold
  : list ast.cmpop -> list ast.expr -> pyval -> list string ->
    pyval -> list string -> Prop :=
| links_hold_nil lhs fu : links_hold [] [] lhs fu lhs fu
| links_hold_cons op ops comparator rest lhs fu rhs fu1 op_func holds last fu' :
    ev comparator fu = Ok (rhs, fu1) -> is_none rhs = false ->
    operator_lookup rt (ast.OfCmpop op) = Ok op_func ->
    call op_func [lhs; rhs] = Ok holds -> truthy holds = true ->
    links_hold ops rest rhs fu1 last fu' ->
    links_hold (op :: ops) (comparator :: rest) lhs fu last fu'.

(** [faults e fu]: the node [e], evaluated from the state [fu], divides a
    number by a numeric zero ([/] or [%]), takes the square root of a number
    below zero, or takes a logarithm of a numeric zero. *)
Inductive faults : ast.expr -> list string -> Prop :=
| faults_division lhs op rhs fu l fu1 r fu2 nl nr :
    op = ast.Div \/ op = ast.Mod ->
    ev lhs fu = Ok (l, fu1) -> ev rhs fu1 = Ok (r, fu2) ->
    as_num l = Some nl -> as_num r = Some nr -> num_is_zero nr = true ->
    faults (ast.BinOp lhs op rhs) fu
| faults_sqrt id arg fu v fu1 x :
    upper id = "SQRT" ->
    ev arg fu = Ok (v, fu1) -> as_double v = Ok x -> Float.is_neg x = true ->
    faults (ast.Call (ast.Name id) [arg]) fu
| faults_log id arg fu v fu1 n :
    upper id = "LOG" \/ upper id = "LOG10" ->
    ev arg fu = Ok (v, fu1) -> as_num v = Some n -> num_is_zero n = true ->
    faults (ast.Call (ast.Name id) [arg]) fu.

Scheme visits_min := Minimality for visits Sort Prop
  with visits_chain_min := Minimality for visits_chain Sort Prop
  with visits_and_min := Minimality for visits_and Sort Prop
  with visits_or_min := Minimality for visits_or Sort Prop
  with visits_args_min := Minimality for visits_args Sort Prop.

Combined Scheme visits_mutual_ind
  from visits_min, visits_chain_min, visits_and_min, visits_or_min, visits_args_min.

End EvaluationPaths.

(** the exceptions a faulting node raises *)
Definition fault_exception (x : exn) : Prop :=
  (exists msg, x = ZeroDivisionError msg)
  \/ x = ValueError "math domain error"
  \/ x = OverflowError "int too large to convert to float".

(** closes a goal [exists x, m = Raise x /\ P x] once [m] is a [Raise] *)
Ltac raise_with tac := eexists; split; [reflexivity | tac].

(** the rational number a Python number stands for; infinities and NaN
    stand for none *)
Definition value_as_Q (v : pyval) : option Q :=
  match as_num v with
  | Some (NInt z) => Some (inject_Z z)
  | Some (NFloat f) => Float.to_Q f
  | None => None
  end.

(** [v] is a number strictly between 0 and 1 *)
Definition strictly_between_0_and_1 (v : pyval) : Prop :=
  exists q, value_as_Q v = Some q /\ (0 < q)%Q /\ (q < 1)%Q.

(** the tree of the text [0 < x < 1] *)
Definition unit_interval_test : ast.expr :=
  ast.Compare (ast.Constant (VInt 0)) [ast.Lt; ast.Lt]
              [ast.Name "x"; ast.Constant (VInt 1)].

(** ** Batch computation, row by row

    What [compute_all_formulas] does to one row, written without the
    connection and the counter: the results of the formulas in order, the
    synthetic fields registered so far, the rows written, and whether an
    INSERT raised. *)

(** what a formula does to [computed_metrics]: its value is [None] and no
    INSERT is executed, or the INSERT stores a row, or the INSERT raises *)
Inductive insertion : Type :=
| NoInsert
| Inserts (m : metric)
| InsertRaises.

(** the rows written in order up to the end, or up to an INSERT that
    raised: the flag tells which *)
Definition write_log : Type := list metric * bool.

(** the writes [first], then the writes [next] unless [first] raised *)
Definition then_writes (first next : write_log) : write_log :=
  if first.2 then first else (first.1 ++ next.1, next.2).

Section BatchByRow.

Variable rt : Runtime.
Variable parse : string -> result ast.expr.
Variable sql_double : pyval -> option spec_float.
Variable engine : FormulaEngine.
Variable row : fundamentals_row.

(** the result of one formula, given the synthetic fields registered so far *)
Definition formula_result (row_computed : list (string * pyval))
    (formula : string * string * string) : FormulaResult.t :=
  evaluate rt parse engine formula.2 (row_data row) (Some row_computed).

(** the synthetic fields after one more formula whose INSERT, if there was
    one, did not raise *)
Definition register (row_computed : list (string * pyval))
    (formula : string * string * string) : list (string * pyval) :=
  let v := FormulaResult.value (formula_result row_computed formula) in
  if is_none v then row_computed
  else dict_set (synthetic_name formula.1.2) v row_computed.

(** the synthetic fields after the formulas [done], starting from [start] *)
Definition synthetic_fields_after (start : list (string * pyval))
    (done : list (string * string * string)) : list (string * pyval) :=
  fold_left register done start.

(** what a formula does to [computed_metrics] *)
Definition formula_write (row_computed : list (string * pyval))
    (formula : string * string * string) : insertion :=
  let v := FormulaResult.value (formula_result row_computed formula) in
  if is_none v then NoInsert
  else
    match sql_double v with
    | Some stored_value =>
        Inserts {| metric_ticker := ticker row;
                   metric_as_of := as_of row;
                   metric_name := formula.1.2;
                   metric_formula_id := formula.1.1;
                   metric_value := VFloat stored_value |}
    | None => InsertRaises
    end.

(** the rows written for this row of [fundamentals], in order, up to the
    first INSERT that raises *)
Fixpoint row_writes (row_computed : list (string * pyval))
    (formulas : list (string * string * string)) : write_log :=
  match formulas with
  | [] => ([], false)
  | formula :: rest =>
      match formula_write row_computed formula with
      | NoInsert => row_writes (register row_computed formula) rest
      | Inserts m =>
          let later := row_writes (register row_computed formula) rest in
          (m :: later.1, later.2)
      | InsertRaises => ([], true)
      end
  end.

End BatchByRow.

(** [d.get(k)] on the items of a dictionary *)
Fixpoint dict_get (k : string) (items : list (string * pyval)) : option pyval :=
  match items with
  | [] => None
  | (k', v) :: rest => if String.eqb k' k then Some v else dict_get k rest
  end.

(** all rows written by a batch, up to the first INSERT that raises: the
    rows of [fundamentals] in order, each starting from no synthetic field *)
Fixpoint batch_writes (rt : Runtime) (parse : string -> result ast.expr)
    (sql_double : pyval -> option spec_float)
    (engine : FormulaEngine) (formulas : list (string * string * string))
    (rows : list fundamentals_row) : write_log :=
  match rows with
  | [] => ([], false)
  | row :: rest =>
      then_writes (row_writes rt parse sql_double engine row [] formulas)
                  (batch_writes rt parse sql_double engine formulas rest)
  end.

(** the table after the writes [ws], applied in order *)
Definition apply_writes (ws : list metric) (table : list metric) : list metric :=
  fold_left (fun t w => upsert w t) ws table.

(** the connection with another [computed_metrics] table *)
Definition with_metrics (conn : Connection) (table : list metric) : Connection :=
  {| formula_definitions := formula_definitions conn;
     fundamentals := fundamentals conn;
     computed_metrics := table |}.

(** the keys of a dictionary are distinct, and here they are lower case *)
Definition synthetic_keys (items : list (string * pyval)) : Prop :=
  NoDup (map fst items) /\ forall k v, In (k, v) items -> lower k = k.

(** how [compute_all_formulas] ends after the writes [ws] on [conn]: it
    returns their number, or it raises when their last INSERT did *)
Definition batch_outcome (conn : Connection) (ws : write_log) : attempt (Connection * Z) :=
  let after := with_metrics conn (apply_writes ws.1 (computed_metrics conn)) in
  if ws.2 then Raised after else Passed (after, Z.of_nat (length ws.1)).

(** the key of a row of [computed_metrics] *)
Definition metric_key (m : metric) : pyval * pyval * string :=
  (metric_ticker m, metric_as_of m, metric_name m).

(** [SELECT ... WHERE (ticker, as_of, metric_name) = key of w] *)
Definition stored (w : metric) (table : list metric) : option metric :=
  List.find (fun m => same_key m w) table.

(** *** An example batch: two seeded formulas, two rows *)

Definition graham_number : string * string * string :=
  ("formula:graham_number", "Graham Number", "SQRT(22.5 * eps * book_value_per_share)").

Definition margin_of_safety : string * string * string :=
  ("formula:margin_of_safety", "Margin of Safety",
   "(graham_number - price) / graham_number * 100").

Definition example_row_complete : fundamentals_row :=
  {| ticker := VStr "AAPL"; as_of := VStr "2024-12-31";
     other_columns := [("eps", float_lit 5 0); ("book_value_per_share", float_lit 20 0);
                       ("price", float_lit 30 0)] |}.

Definition example_row_without_eps : fundamentals_row :=
  {| ticker := VStr "MSFT"; as_of := VStr "2024-12-31";
     other_columns := [("eps", VNone); ("book_value_per_share", float_lit 20 0);
                       ("price", float_lit 30 0)] |}.

Definition example_connection : Connection :=
  {| formula_definitions := [graham_number; margin_of_safety];
     fundamentals := [example_row_without_eps; example_row_complete];
     computed_metrics := [] |}.

(** the conversion of the examples: a float is stored as it is, an integer
    as the nearest double, a boolean as 1 or 0, and a text is refused, as
    the database refuses the text of a ticker; the examples bind floats and
    tickers only *)
Definition example_sql_double (v : pyval) : option spec_float :=
  match v with
  | VFloat f => Some f
  | VInt z => Some (Float.of_Z z)
  | VBool b => Some (Float.of_Z (if b then 1 else 0))
  | VStr _ => None
  | VNone => None
  end.

(** a formula whose value is a text: the ticker of the row *)
Definition ticker_symbol : string * string * string :=
  ("formula:ticker_symbol", "Ticker Symbol", "ticker").

(** the example batch with that formula first *)
Definition example_text_connection : Connection :=
  {| formula_definitions := [ticker_symbol; graham_number];
     fundamentals := [example_row_complete; example_row_without_eps];
     computed_metrics := [] |}.

(** * Further notions *)

(** [framed fu r]: the outcome [r] of an evaluation that started with the
    empty list of fields, as it is when the evaluation starts with [fu] *)
Definition framed {A : Type} (fu : list string) (r : result (A * list string))
    : result (A * list string) :=
  match r with
  | Ok (v, used) => Ok (v, fu ++ used)
  | Raise x => Raise x
  end.

(** ** The lists of [_validate_node] *)

(** the three empty lists [validate] starts from *)
Definition vstart : vstate := {| v_errors := []; v_fields := []; v_funcs := [] |}.

(** the lists of [a], each followed by the one of [b] *)
Definition vappend (a b : vstate) : vstate :=
  {| v_errors := v_errors a ++ v_errors b;
     v_fields := v_fields a ++ v_fields b;
     v_funcs := v_funcs a ++ v_funcs b |}.

(** the loop of [_validate_node] over the links of a comparison *)
Fixpoint validate_links (rt : Runtime) (self : FormulaEngine)
    (ops : list ast.cmpop) (comparators : list ast.expr) (st : vstate)
    {struct comparators} : vstate :=
  match ops, comparators with
  | op :: ops', comparator :: rest =>
      let st := check_operator rt "Unsupported comparison: " (ast.OfCmpop op) st in
      let st := _validate_node rt self comparator st in
      validate_links rt self ops' rest st
  | _, _ => st
  end.

(** the loop of [_validate_node] over a list of nodes *)
Definition validate_each (rt : Runtime) (self : FormulaEngine)
    (nodes : list ast.expr) (st : vstate) : vstate :=
  fold_left (fun st node => _validate_node rt self node st) nodes st.

(** ** The trees validation accepts *)

Definition supported_operator (op : ast.operator) : bool :=
  match op with
  | ast.Add | ast.Sub | ast.Mult | ast.Div | ast.Pow | ast.Mod => true
  | _ => false
  end.

Definition supported_unaryop (op : ast.unaryop) : bool :=
  match op with
  | ast.USub | ast.UAdd | ast.Not => true
  | ast.Invert => false
  end.

Definition supported_cmpop (op : ast.cmpop) : bool :=
  match op with
  | ast.Gt | ast.Lt | ast.GtE | ast.LtE | ast.Eq | ast.NotEq => true
  | _ => false
  end.

(** [supported self e]: the tree [e] is made of constants other than
    strings, names, the arithmetic operators [+ - * / ** %], the unary
    operators [- + not], comparisons with [> < >= <= == !=], [and], [or],
    conditional expressions, and calls [name(...)] of a function that
    [self] holds under the upper-cased name. *)
Fixpoint supported (self : FormulaEngine) (e : ast.expr) {struct e} : bool :=
  match e with
  | ast.Constant v => match v with VStr _ => false | _ => true end
  | ast.Name _ => true
  | ast.BinOp lhs op rhs => supported_operator op && supported self lhs && supported self rhs
  | ast.UnaryOp op operand => supported_unaryop op && supported self operand
  | ast.Compare lhs ops comparators =>
      supported self lhs
      && (fix links (ops : list ast.cmpop) (comparators : list ast.expr)
              {struct comparators} : bool :=
            match ops, comparators with
            | op :: ops', comparator :: rest =>
                supported_cmpop op && supported self comparator && links ops' rest
            | _, _ => true
            end) ops comparators
  | ast.BoolOp _ values => forallb (supported self) values
  | ast.Call func args =>
      match func with
      | ast.Name id =>
          match functions self !! upper id with
          | Some _ => forallb (supported self) args
          | None => false
          end
      | _ => false
      end
  | ast.IfExp test body orelse =>
      supported self test && supported self body && supported self orelse
  | ast.Other _ => false
  end.

(** the links of a comparison, as [supported] goes through them *)
Fixpoint supported_links (self : FormulaEngine) (ops : list ast.cmpop)
    (comparators : list ast.expr) {struct comparators} : bool :=
  match ops, comparators with
  | op :: ops', comparator :: rest =>
      supported_cmpop op && supported self comparator && supported_links self ops' rest
  | _, _ => true
  end.

(** ** Exceptions that are not a [KeyError] *)

(** [r] is a value or an exception other than [KeyError] *)
Definition no_key_error {A : Type} (r : result A) : Prop :=
  forall k, r <> Raise (KeyError k).

(** The built-ins behind the runtime's parameters raise no [KeyError] on
    the modelled values: [float.__pow__], three-argument [pow] and [round]
    with [ndigits] raise [TypeError], [ValueError], [ZeroDivisionError] or
    [OverflowError], and printf-style formatting raises [KeyError] only for a
    mapping key, which needs a dictionary operand. *)
Definition runtime_no_key_error (rt : Runtime) : Prop :=
  (forall x y, no_key_error (float_pow rt x y))
  /\ (forall a b m, no_key_error (pow3 rt a b m))
  /\ (forall s v, no_key_error (str_mod rt s v))
  /\ (forall v n, no_key_error (round_ndigits rt v n)).

(** no entry of the items of a dictionary has the value [None] *)
Definition no_null_value (items : list (string * pyval)) : Prop :=
  forall k v, In (k, v) items -> v <> VNone.

(** the table holds a row under the key of [w] *)
Definition has_key (w : metric) (table : list metric) : bool :=
  existsb (fun m => same_key m w) table.

(** the functions a caller adds to the registry raise no [KeyError] *)
Definition functions_no_key_error (fs : gmap string pyfunc) : Prop :=
  forall name f vs, fs !! name = Some f -> no_key_error (f vs).

(** ** Screening: the formulas of [run_screen]

    For each row of its query, [run_screen] (main.py) evaluates the chosen
    formulas in order on the dictionary of the row's columns, storing each
    value in that dictionary under the formula's name, and then replaces a
    date under ["as_of"] by its text. *)

(** an entry of [formulas_to_eval] *)
Record screen_formula : Type := {
  sf_id : string;
  sf_name : string;
  sf_expression : string;
  sf_format : pyval;
}.

Section Screen.

Variable rt : Runtime.
Variable ast_parse : string -> result ast.expr.
(** [str(value)] *)
Variable py_str : pyval -> string.

(** the body of [for formula in formulas_to_eval] *)
Definition screen_step (engine : FormulaEngine) (row_data : list (string * pyval))
    (formula : screen_formula) : list (string * pyval) :=
  let r := evaluate rt ast_parse engine (sf_expression formula) row_data None in
  dict_set (sf_name formula) (FormulaResult.value r) row_data.

(** the body of [for row in rows], from [row_data = dict(zip(...))] on *)
Definition screen_row (engine : FormulaEngine) (formulas : list screen_formula)
    (row_data : list (string * pyval)) : list (string * pyval) :=
  let row_data := fold_left (screen_step engine) formulas row_data in
  match dict_get "as_of" row_data with
  | Some day =>
      if truthy day then dict_set "as_of" (VStr (py_str day)) row_data else row_data
  | None => row_data
  end.

End Screen.

(** ** How a batch ends *)

(** the connection a run leaves, whether it returned or raised *)
Definition connection_after (run : attempt (Connection * Z)) : Connection :=
  match run with
  | Passed (conn, _) => conn
  | Raised conn => conn
  end.

(** the count a run returns, when it returns *)
Definition returned_count (run : attempt (Connection * Z)) : option Z :=
  match run with
  | Passed (_, count) => Some count
  | Raised _ => None
  end.

(** * Properties *)

(** ** Null propagation through arithmetic nodes *)

Section NullPropagation.

Variable rt : Runtime.
Variable self : FormulaEngine.
Variable context : gmap string pyval.

Lemma binop_null lhs op rhs fu l fu1 r fu2 :
  _eval_node rt self lhs context fu = Ok (l, fu1) ->
  _eval_node rt self rhs context fu1 = Ok (r, fu2) ->
  l = VNone \/ r = VNone ->
  _eval_node rt self (ast.BinOp lhs op rhs) context fu = Ok (VNone, fu2).
Proof.
  intros Hl Hr Hnull. simpl. rewrite Hl. simpl. rewrite Hr. simpl.
  destruct Hnull as [-> | ->]; simpl; [reflexivity |].
  rewrite orb_true_r. reflexivity.
Qed.

Lemma unaryop_null op operand fu fu1 :
  _eval_node rt self operand context fu = Ok (VNone, fu1) ->
  _eval_node rt self (ast.UnaryOp op operand) context fu = Ok (VNone, fu1).
Proof. intros H. simpl. rewrite H. reflexivity. Qed.

Lemma null_inside_result e fu :
  null_inside rt self context e fu ->
  forall v fu', _eval_node rt self e context fu = Ok (v, fu') -> v = VNone.
Proof.
  induction 1 as [e fu fu0 H | lhs op rhs fu _ IH | lhs op rhs fu l fu1 Hl _ IH
                 | op operand fu _ IH]; intros v fu' Hev.
  - rewrite H in Hev. congruence.
  - simpl in Hev.
    destruct (_eval_node rt self lhs context fu) as [[l fu1] | ex] eqn:El; [| discriminate].
    rewrite (IH l fu1 eq_refl) in Hev. simpl in Hev.
    destruct (_eval_node rt self rhs context fu1) as [[r fu2] | ex]; simpl in Hev; congruence.
  - simpl in Hev. rewrite Hl in Hev. simpl in Hev.
    destruct (_eval_node rt self rhs context fu1) as [[r fu2] | ex] eqn:Er; [| discriminate].
    rewrite (IH r fu2 eq_refl) in Hev. simpl in Hev.
    rewrite orb_true_r in Hev. congruence.
  - simpl in Hev.
    destruct (_eval_node rt self operand context fu) as [[x fu1] | ex] eqn:Ex; [| discriminate].
    rewrite (IH x fu1 eq_refl) in Hev. simpl in Hev. congruence.
Qed.

End NullPropagation.

(** C1.  A binary or unary operation one of whose evaluated operands is
    [None] evaluates to [None]; a [None] reached through arithmetic nodes
    makes every enclosing arithmetic node [None]; and [eps * null_field]
    evaluates to [None], without an error, in a context where [null_field]
    is present with the value [None] (through [evaluate]: as an entry of
    the overlay).  With [null_field] an entry of [data] the value of the
    result is [None] as well. *)
Theorem null_operand_makes_operation_null :
  forall (rt : Runtime) (self : FormulaEngine) (context : gmap string pyval),
    (forall lhs op rhs fu l fu1 r fu2,
        _eval_node rt self lhs context fu = Ok (l, fu1) ->
        _eval_node rt self rhs context fu1 = Ok (r, fu2) ->
        l = VNone \/ r = VNone ->
        _eval_node rt self (ast.BinOp lhs op rhs) context fu = Ok (VNone, fu2))
    /\ (forall op operand fu fu1,
        _eval_node rt self operand context fu = Ok (VNone, fu1) ->
        _eval_node rt self (ast.UnaryOp op operand) context fu = Ok (VNone, fu1))
    /\ (forall e fu v fu',
        null_inside rt self context e fu ->
        _eval_node rt self e context fu = Ok (v, fu') -> v = VNone)
    /\ ast_parse "eps * null_field"
       = Ok (ast.BinOp (ast.Name "eps") ast.Mult (ast.Name "null_field"))
    /\ (forall eps,
        context !! "eps" = Some eps ->
        context !! "null_field" = Some VNone ->
        _eval_node rt self (ast.BinOp (ast.Name "eps") ast.Mult (ast.Name "null_field"))
                   context []
        = Ok (VNone, ["eps"; "null_field"]))
    /\ (forall eps,
        eps <> VNone ->
        evaluate rt ast_parse self "eps * null_field"
                 [("eps", eps)] (Some [("null_field", VNone)])
        = FormulaResult.mk VNone None ["eps"; "null_field"])
    /\ (forall eps,
        FormulaResult.value
          (evaluate rt ast_parse self "eps * null_field"
                    [("eps", eps); ("null_field", VNone)] None) = VNone).
Proof.
  intros rt self context. split; [| split; [| split; [| split; [| split; [| split]]]]].
  - apply binop_null.
  - apply unaryop_null.
  - intros e fu v fu' Hin Hev. exact (null_inside_result rt self context e fu Hin v fu' Hev).
  - vm_compute. reflexivity.
  - intros eps He Hn.
    apply binop_null with (l := eps) (fu1 := ["eps"]) (r := VNone).
    + simpl. change (lower "eps") with "eps". rewrite He. reflexivity.
    + simpl. change (lower "null_field") with "null_field". rewrite Hn. reflexivity.
    + right. reflexivity.
  - intros eps Heps. destruct eps; [congruence | vm_compute; reflexivity ..].
  - intros eps. destruct eps; vm_compute; reflexivity.
Qed.

Lemma null_operand_makes_operation_null_witness :
  let context : gmap string pyval := <["null_field" := VNone]> {["eps" := float_lit 5 0]} in
  _eval_node example_runtime example_engine
    (ast.BinOp (ast.Name "eps") ast.Mult (ast.Name "null_field")) context []
  = Ok (VNone, ["eps"; "null_field"])
  /\ _eval_node example_runtime example_engine
       (ast.UnaryOp ast.USub (ast.Name "null_field")) context []
     = Ok (VNone, ["null_field"])
  /\ (forall v fu',
        _eval_node example_runtime example_engine
          (ast.BinOp (ast.Constant (VInt 1)) ast.Add
             (ast.UnaryOp ast.USub
                (ast.BinOp (ast.Name "eps") ast.Mult (ast.Name "null_field"))))
          context [] = Ok (v, fu') -> v = VNone).
Proof.
  intros context.
  pose proof (null_operand_makes_operation_null example_runtime example_engine context)
    as (Hbin & Hun & Hin & _).
  split; [| split].
  - apply Hbin with (l := float_lit 5 0) (fu1 := ["eps"]) (r := VNone).
    + vm_compute; reflexivity.
    + vm_compute; reflexivity.
    + right; reflexivity.
  - apply Hun. vm_compute; reflexivity.
  - intros v fu'. apply Hin.
    apply null_in_right with (l := VInt 1) (fu1 := []); [reflexivity |].
    apply null_in_operand.
    apply null_in_right with (l := float_lit 5 0) (fu1 := ["eps"]); [vm_compute; reflexivity |].
    apply null_here with (fu' := ["eps"; "null_field"]). vm_compute; reflexivity.
Defined.

(** ** Exceptions leave every enclosing node *)

Section RaisePropagation.

Variable rt : Runtime.
Variable self : FormulaEngine.
Variable context : gmap string pyval.

Local Abbreviation ev := (fun e fu => _eval_node rt self e context fu).

Lemma eval_call_eq id args fu :
  _eval_node rt self (ast.Call (ast.Name id) args) context fu
  = match functions self !! upper id with
    | None => Raise (KeyError (repr_str (upper id)))
    | Some f =>
        let* (vs, fields_used) := eval_args ev args fu in
        if null_aware (upper id) then let* v := f vs in Ok (v, fields_used)
        else if existsb is_none vs then Ok (VNone, fields_used)
        else let* v := f vs in Ok (v, fields_used)
    end.
Proof. reflexivity. Qed.

Lemma raise_propagates_mutual :
  (forall e fu sub fu', visits rt self context e fu sub fu' ->
     forall x, ev sub fu' = Raise x -> ev e fu = Raise x)
  /\ (forall ops cs lhs fu sub fu', visits_chain rt self context ops cs lhs fu sub fu' ->
     forall x, ev sub fu' = Raise x -> compare_loop rt ev ops cs lhs fu = Raise x)
  /\ (forall vs fu sub fu', visits_and rt self context vs fu sub fu' ->
     forall x, ev sub fu' = Raise x -> and_loop ev vs fu = Raise x)
  /\ (forall vs fu sub fu', visits_or rt self context vs fu sub fu' ->
     forall x, ev sub fu' = Raise x -> or_loop ev vs fu = Raise x)
  /\ (forall args fu sub fu', visits_args rt self context args fu sub fu' ->
     forall x, ev sub fu' = Raise x -> eval_args ev args fu = Raise x).
Proof.
  apply (visits_mutual_ind rt self context
           (fun e fu sub fu' => forall x, ev sub fu' = Raise x -> ev e fu = Raise x)
           (fun ops cs lhs fu sub fu' =>
              forall x, ev sub fu' = Raise x -> compare_loop rt ev ops cs lhs fu = Raise x)
           (fun vs fu sub fu' =>
              forall x, ev sub fu' = Raise x -> and_loop ev vs fu = Raise x)
           (fun vs fu sub fu' =>
              forall x, ev sub fu' = Raise x -> or_loop ev vs fu = Raise x)
           (fun args fu sub fu' =>
              forall x, ev sub fu' = Raise x -> eval_args ev args fu = Raise x)).
  all: intros; cbv beta in *; simpl;
    repeat match goal with
           | H : _eval_node _ _ ?e _ ?fu = _ |- context [_eval_node _ _ ?e _ ?fu] =>
               rewrite H; simpl
           | H : forall x, _ -> ?l = Raise x, Hx : _ = Raise ?x |- context [?l] =>
               rewrite (H _ Hx); simpl
           | H : ?a = _ |- context [?a] => rewrite H; simpl
           end; auto.
  match goal with
  | H : functions _ !! _ = Some _ |- match ?t with _ => _ end = _ =>
      destruct t eqn:E;
      [reflexivity | exfalso; pose proof (eq_trans (eq_sym H) E) as C; discriminate C]
  end.
Qed.

Lemma raise_propagates e fu sub fu' x :
  visits rt self context e fu sub fu' ->
  ev sub fu' = Raise x -> ev e fu = Raise x.
Proof. intros Hv. exact (proj1 raise_propagates_mutual e fu sub fu' Hv x). Qed.

End RaisePropagation.

(** ** What [evaluate] makes of an exception *)

Lemma on_exception_shape x :
  FormulaResult.value (on_exception x) = VNone
  /\ FormulaResult.fields_used (on_exception x) = []
  /\ exists msg, FormulaResult.error (on_exception x) = Some msg /\ msg <> "".
Proof.
  destruct x; simpl; repeat split; eexists; (split; [reflexivity | discriminate]).
Qed.

Lemma evaluate_raise rt parse self expression data computed_fields x :
  (let* tree := parse expression in
   _eval_node rt self tree (build_context data computed_fields) []) = Raise x ->
  evaluate rt parse self expression data computed_fields = on_exception x.
Proof. intros H. unfold evaluate. rewrite H. reflexivity. Qed.

Lemma evaluate_node_raise rt parse self expression data computed_fields tree x :
  parse expression = Ok tree ->
  _eval_node rt self tree (build_context data computed_fields) [] = Raise x ->
  evaluate rt parse self expression data computed_fields = on_exception x.
Proof. intros Hp H. apply evaluate_raise. rewrite Hp. exact H. Qed.

(** ** Division by zero and domain errors *)

Lemma to_float_cases n :
  (exists f, to_float n = Ok f /\ (num_is_zero n = true -> Float.is_zero f = true))
  \/ to_float n = Raise (OverflowError "int too large to convert to float").
Proof.
  destruct n as [z | f]; simpl.
  - destruct (Float.is_inf (Float.of_Z z)) eqn:E; [right; reflexivity | left].
    eexists; split; [reflexivity |]. intros Hz. apply Z.eqb_eq in Hz. subst z. reflexivity.
  - left. eexists; split; [reflexivity | auto].
Qed.

Lemma float_binop_by_zero (fop : spec_float -> spec_float -> result pyval) nl nr :
  (forall x y, Float.is_zero y = true -> exists msg, fop x y = Raise (ZeroDivisionError msg)) ->
  num_is_zero nr = true ->
  exists x, (let* a := to_float nl in let* b := to_float nr in fop a b) = Raise x
            /\ fault_exception x.
Proof.
  intros Hfop Hz.
  destruct (to_float_cases nl) as [(fa & -> & _) | ->]; cbn [bind];
    [| raise_with ltac:(right; right; reflexivity)].
  destruct (to_float_cases nr) as [(fb & -> & Hzb) | ->]; cbn [bind];
    [| raise_with ltac:(right; right; reflexivity)].
  destruct (Hfop fa fb (Hzb Hz)) as [msg ->]. raise_with ltac:(left; eauto).
Qed.

Lemma arith_by_zero iop fop nl nr :
  (forall a b, b = 0 -> exists msg, iop a b = Raise (ZeroDivisionError msg)) ->
  (forall x y, Float.is_zero y = true -> exists msg, fop x y = Raise (ZeroDivisionError msg)) ->
  num_is_zero nr = true ->
  exists x, arith iop fop nl nr = Raise x /\ fault_exception x.
Proof.
  intros Hiop Hfop Hz. unfold arith.
  destruct nl as [a | fa], nr as [b | fb];
    try (apply float_binop_by_zero; assumption).
  simpl in Hz. apply Z.eqb_eq in Hz.
  destruct (Hiop a b Hz) as [msg ->]. raise_with ltac:(left; eauto).
Qed.

Lemma truediv_by_zero l r nl nr :
  as_num l = Some nl -> as_num r = Some nr -> num_is_zero nr = true ->
  exists x, py_truediv l r = Raise x /\ fault_exception x.
Proof.
  intros Hl Hr Hz. unfold py_truediv. rewrite Hl, Hr.
  apply arith_by_zero; [| | assumption].
  - intros a b ->. unfold int_truediv. simpl. eauto.
  - intros x y Hy. unfold float_truediv. rewrite Hy. eauto.
Qed.

Lemma mod_by_zero rt l r nl nr :
  as_num l = Some nl -> as_num r = Some nr -> num_is_zero nr = true ->
  exists x, py_mod rt l r = Raise x /\ fault_exception x.
Proof.
  intros Hl Hr Hz.
  assert (exists x, arith int_mod (float_mod rt) nl nr = Raise x /\ fault_exception x) as H.
  { apply arith_by_zero; [| | assumption].
    - intros a b ->. unfold int_mod. simpl. eauto.
    - intros x y Hy. unfold float_mod. rewrite Hy. eauto. }
  unfold py_mod. destruct l; try discriminate; rewrite Hl, Hr; exact H.
Qed.

Lemma sqrt_below_zero v x :
  as_double v = Ok x -> Float.is_neg x = true ->
  fn_SQRT [v] = Raise (ValueError "math domain error").
Proof.
  intros Hv Hneg. unfold fn_SQRT. rewrite Hv. cbn [bind].
  destruct x as [[|] | [|] | | [|] m e]; try discriminate; reflexivity.
Qed.

Lemma log_of_zero c_fn v n :
  as_num v = Some n -> num_is_zero n = true ->
  log_helper c_fn v = Raise (ValueError "math domain error").
Proof.
  intros Hv Hz. unfold log_helper. rewrite Hv.
  destruct n as [z | f]; simpl in Hz.
  - apply Z.eqb_eq in Hz. subst z. reflexivity.
  - destruct f; try discriminate; reflexivity.
Qed.

Lemma number_is_not_none v n : as_num v = Some n -> is_none v = false.
Proof. destruct v; simpl; congruence. Qed.

Lemma default_functions_SQRT rt :
  functions (FormulaEngine_init rt None) !! "SQRT" = Some fn_SQRT.
Proof. reflexivity. Qed.

Lemma default_functions_LOG rt :
  functions (FormulaEngine_init rt None) !! "LOG" = Some (fn_LOG rt).
Proof. reflexivity. Qed.

Lemma default_functions_LOG10 rt :
  functions (FormulaEngine_init rt None) !! "LOG10" = Some (fn_LOG10 rt).
Proof. reflexivity. Qed.

(** a call of a null-propagating function with one argument that is not
    [None] *)
Lemma eval_call_one rt self context id arg fu f v fu1 :
  functions self !! upper id = Some f ->
  null_aware (upper id) = false ->
  _eval_node rt self arg context fu = Ok (v, fu1) ->
  is_none v = false ->
  _eval_node rt self (ast.Call (ast.Name id) [arg]) context fu
  = let* r := f [v] in Ok (r, fu1).
Proof.
  intros Hf Hna Harg Hv. rewrite eval_call_eq.
  replace (functions self !! upper id) with (Some f) by (symmetry; exact Hf).
  cbn [eval_args]. rewrite Harg. cbn [bind]. rewrite Hna. cbn [existsb].
  rewrite Hv. reflexivity.
Qed.

Lemma faults_raise rt context e fu :
  faults rt (FormulaEngine_init rt None) context e fu ->
  exists x, _eval_node rt (FormulaEngine_init rt None) e context fu = Raise x
            /\ fault_exception x.
Proof.
  intros H. destruct H as [lhs op rhs fu l fu1 r fu2 nl nr Hop Hl Hr Hnl Hnr Hz
                          | id arg fu v fu1 x Hid Harg Hx Hneg
                          | id arg fu v fu1 n Hid Harg Hn Hz]; cbv beta in *.
  - simpl. rewrite Hl. cbn [bind]. rewrite Hr. cbn [bind].
    rewrite (number_is_not_none l nl Hnl), (number_is_not_none r nr Hnr). cbn [orb].
    destruct Hop as [-> | ->]; cbn [operator_lookup SAFE_OPERATORS bind call].
    + destruct (truediv_by_zero l r nl nr Hnl Hnr Hz) as (x & -> & Hx). eauto.
    + destruct (mod_by_zero rt l r nl nr Hnl Hnr Hz) as (x & -> & Hx). eauto.
  - assert (is_none v = false) as Hv by (destruct v; [discriminate Hx | reflexivity ..]).
    rewrite (eval_call_one rt _ context id arg fu fn_SQRT v fu1); rewrite ?Hid; auto.
    rewrite (sqrt_below_zero v x Hx Hneg). raise_with ltac:(right; left; reflexivity).
  - pose proof (number_is_not_none v n Hn) as Hv.
    destruct Hid as [Hid | Hid].
    + rewrite (eval_call_one rt _ context id arg fu (fn_LOG rt) v fu1); rewrite ?Hid; auto.
      unfold fn_LOG. rewrite (log_of_zero _ v n Hn Hz).
      raise_with ltac:(right; left; reflexivity).
    + rewrite (eval_call_one rt _ context id arg fu (fn_LOG10 rt) v fu1); rewrite ?Hid; auto.
      unfold fn_LOG10. rewrite (log_of_zero _ v n Hn Hz).
      raise_with ltac:(right; left; reflexivity).
Qed.

(** C3.  Every exception of parsing or evaluation is turned by [evaluate]
    into a result with value [None] and a non-empty error message.  In
    particular, when the evaluation of an expression reaches a node that
    divides a number by zero, takes the square root of a number below zero
    or the logarithm of zero, the result of [evaluate] has value [None] and
    carries the matching message. *)
Theorem faults_surface_as_error_results :
  forall (rt : Runtime) (parse : string -> result ast.expr) (expression : string)
         (data : list (string * pyval)) (computed_fields : option (list (string * pyval))),
    let self := FormulaEngine_init rt None in
    let context := build_context data computed_fields in
    let r := evaluate rt parse self expression data computed_fields in
    (forall x,
        (let* tree := parse expression in _eval_node rt self tree context []) = Raise x ->
        r = on_exception x
        /\ FormulaResult.value r = VNone
        /\ exists msg, FormulaResult.error r = Some msg /\ msg <> "")
    /\ (forall tree sub fu',
        parse expression = Ok tree ->
        visits rt self context tree [] sub fu' ->
        faults rt self context sub fu' ->
        FormulaResult.value r = VNone
        /\ (FormulaResult.error r = Some "Division by zero"
            \/ FormulaResult.error r = Some "Math error: math domain error"
            \/ FormulaResult.error r
               = Some "Evaluation error: int too large to convert to float")).
Proof.
  intros rt parse expression data computed_fields self context r. split.
  - intros x Hx. subst r. rewrite (evaluate_raise _ _ _ _ _ _ x Hx).
    destruct (on_exception_shape x) as (Hv & _ & Hm). auto.
  - intros tree sub fu' Hp Hvis Hf.
    destruct (faults_raise rt context sub fu' Hf) as (x & Hx & Hclass).
    pose proof (raise_propagates rt self context tree [] sub fu' x Hvis Hx) as Hraise.
    subst r. rewrite (evaluate_node_raise _ _ _ _ _ _ tree x Hp Hraise).
    destruct Hclass as [[msg ->] | [-> | ->]]; simpl; auto.
Qed.

Lemma faults_surface_as_error_results_witness :
  let r := evaluate example_runtime ast_parse example_engine
                    "1 + eps / (price - price)"
                    [("eps", float_lit 5 0); ("price", VInt 20)] None in
  FormulaResult.value r = VNone
  /\ (FormulaResult.error r = Some "Division by zero"
      \/ FormulaResult.error r = Some "Math error: math domain error"
      \/ FormulaResult.error r = Some "Evaluation error: int too large to convert to float").
Proof.
  set (context := build_context [("eps", float_lit 5 0); ("price", VInt 20)] None).
  set (division := ast.BinOp (ast.Name "eps") ast.Div
                     (ast.BinOp (ast.Name "price") ast.Sub (ast.Name "price"))).
  apply (proj2 (faults_surface_as_error_results example_runtime ast_parse
                  "1 + eps / (price - price)"
                  [("eps", float_lit 5 0); ("price", VInt 20)] None))
    with (tree := ast.BinOp (ast.Constant (VInt 1)) ast.Add division)
         (sub := division) (fu' := []).
  - vm_compute. reflexivity.
  - apply visits_binop_right with (l := VInt 1) (fu1 := []); [reflexivity |].
    apply visits_here.
  - apply faults_division
      with (l := float_lit 5 0) (fu1 := ["eps"]) (r := VInt 0)
           (fu2 := ["eps"; "price"; "price"]) (nl := NFloat (Syntax.decimal_float 5 0))
           (nr := NInt 0).
    + left; reflexivity.
    + vm_compute; reflexivity.
    + vm_compute; reflexivity.
    + reflexivity.
    + reflexivity.
    + reflexivity.
Defined.

(** ** The power operator *)

Lemma eval_binop_values rt self context lhs op rhs fu l fu1 r fu2 :
  _eval_node rt self lhs context fu = Ok (l, fu1) ->
  _eval_node rt self rhs context fu1 = Ok (r, fu2) ->
  is_none l = false -> is_none r = false ->
  _eval_node rt self (ast.BinOp lhs op rhs) context fu
  = let* op_func := operator_lookup rt (ast.OfOperator op) in
    let* v := call op_func [l; r] in
    Ok (v, fu2).
Proof.
  intros Hl Hr Hnl Hnr. simpl. rewrite Hl. cbn [bind]. rewrite Hr. cbn [bind].
  rewrite Hnl, Hnr. reflexivity.
Qed.

(** [lhs ** rhs] is [operator.pow] of the operand values; on integers with
    a non-negative exponent that is the exact power. *)
Lemma double_star_is_pow rt self context lhs rhs fu l fu1 r fu2 :
  _eval_node rt self lhs context fu = Ok (l, fu1) ->
  _eval_node rt self rhs context fu1 = Ok (r, fu2) ->
  is_none l = false -> is_none r = false ->
  _eval_node rt self (ast.BinOp lhs ast.Pow rhs) context fu
  = let* v := py_pow rt l r in Ok (v, fu2).
Proof. intros. erewrite eval_binop_values by eassumption. reflexivity. Qed.

Lemma pow_of_integers rt m n :
  0 <= n -> py_pow rt (VInt m) (VInt n) = Ok (VInt (m ^ n)).
Proof.
  intros Hn. unfold py_pow. simpl.
  destruct (0 <=? n) eqn:E; [reflexivity | apply Z.leb_gt in E; lia].
Qed.

(** [lhs ^ rhs] has no entry in [SAFE_OPERATORS]: with operands that are
    not [None] the lookup raises [KeyError], and validation records an
    error. *)
Lemma caret_never_evaluates rt self context lhs rhs fu l fu1 r fu2 :
  _eval_node rt self lhs context fu = Ok (l, fu1) ->
  _eval_node rt self rhs context fu1 = Ok (r, fu2) ->
  is_none l = false -> is_none r = false ->
  _eval_node rt self (ast.BinOp lhs ast.BitXor rhs) context fu
  = Raise (KeyError "<class 'ast.BitXor'>").
Proof. intros. erewrite eval_binop_values by eassumption. reflexivity. Qed.

(** C2 (the code departs from the claim).  The text [2 ^ 3] parses to a
    [BitXor] node; validation rejects it and evaluation answers with an
    error, while [2 ** 3] validates and evaluates to 8 and [2 ** 3 ** 2]
    to 512, the power operator associating to the right. *)
Theorem caret_is_rejected_double_star_is_power :
  forall rt : Runtime,
    let engine := FormulaEngine_init rt None in
    ast_parse "2 ^ 3"
    = Ok (ast.BinOp (ast.Constant (VInt 2)) ast.BitXor (ast.Constant (VInt 3)))
    /\ validate rt ast_parse engine "2 ^ 3"
       = Ok (ValidationResult.mk false ["Unsupported operator: BitXor"] [] [])
    /\ evaluate rt ast_parse engine "2 ^ 3" [] None
       = FormulaResult.mk VNone (Some "Missing field: <class 'ast.BitXor'>") []
    /\ validate rt ast_parse engine "2 ** 3" = Ok (ValidationResult.mk true [] [] [])
    /\ evaluate rt ast_parse engine "2 ** 3" [] None = FormulaResult.mk (VInt 8) None []
    /\ ast_parse "2 ** 3 ** 2"
       = Ok (ast.BinOp (ast.Constant (VInt 2)) ast.Pow
               (ast.BinOp (ast.Constant (VInt 3)) ast.Pow (ast.Constant (VInt 2))))
    /\ evaluate rt ast_parse engine "2 ** 3 ** 2" [] None
       = FormulaResult.mk (VInt 512) None [].
Proof. intros rt engine. repeat split; vm_compute; reflexivity. Qed.

(** ** Validation of an unknown function *)

(** C7.  Validating [FOO(1,2)] gives an invalid result whose errors are the
    unknown-function error, whose functions are [FOO] and whose fields are
    none. *)
Theorem validate_unknown_function :
  forall rt : Runtime,
    ast_parse "FOO(1,2)"
    = Ok (ast.Call (ast.Name "FOO") [ast.Constant (VInt 1); ast.Constant (VInt 2)])
    /\ validate rt ast_parse (FormulaEngine_init rt None) "FOO(1,2)"
       = Ok (ValidationResult.mk false ["Unknown function: FOO"] [] ["FOO"]).
Proof. intros rt. split; vm_compute; reflexivity. Qed.

(** ** Functions that see [None] arguments *)

Lemma eval_call_null_aware rt self context id args f fu vs fu' :
  null_aware (upper id) = true ->
  functions self !! upper id = Some f ->
  eval_args (fun e fu => _eval_node rt self e context fu) args fu = Ok (vs, fu') ->
  _eval_node rt self (ast.Call (ast.Name id) args) context fu
  = let* v := f vs in Ok (v, fu').
Proof.
  intros Hna Hf Hargs. rewrite eval_call_eq.
  replace (functions self !! upper id) with (Some f) by (symmetry; exact Hf).
  rewrite Hargs. cbn [bind]. rewrite Hna. reflexivity.
Qed.

Lemma null_aware_names name :
  null_aware name = true <-> name = "COALESCE" \/ name = "IF" \/ name = "ISNULL".
Proof.
  unfold null_aware. rewrite !orb_true_iff, !String.eqb_eq. tauto.
Qed.

(** The words [null], [true] and [false] are names in expression text, not
    constants: Python spells the constants [None], [True] and [False]. *)
Lemma lower_case_null_is_a_name rt :
  ast_parse "ISNULL(null)" = Ok (ast.Call (ast.Name "ISNULL") [ast.Name "null"])
  /\ evaluate rt ast_parse (FormulaEngine_init rt None) "ISNULL(null)" [] None
     = FormulaResult.mk VNone (Some "Missing field: 'null'") []
  /\ evaluate rt ast_parse (FormulaEngine_init rt None) "ISNULL(null)" []
              (Some [("null", VNone)])
     = FormulaResult.mk (VBool true) None ["null"].
Proof. repeat split; vm_compute; reflexivity. Qed.

(** C6.  A call of [COALESCE], [IF] or [ISNULL] applies the function to the
    evaluated arguments as they are, [None] included; so
    [COALESCE(None, None, 5)] is 5, [ISNULL(None)] is true, [IF(True, 1, 2)]
    is 1 and [IF(False, 1, 2)] is 2. *)
Theorem null_aware_functions_receive_raw_arguments :
  forall (rt : Runtime),
    let engine := FormulaEngine_init rt None in
    (forall self context id args f fu vs fu',
        upper id = "COALESCE" \/ upper id = "IF" \/ upper id = "ISNULL" ->
        functions self !! upper id = Some f ->
        eval_args (fun e fu => _eval_node rt self e context fu) args fu = Ok (vs, fu') ->
        _eval_node rt self (ast.Call (ast.Name id) args) context fu
        = let* v := f vs in Ok (v, fu'))
    /\ functions engine !! "COALESCE" = Some fn_COALESCE
    /\ functions engine !! "IF" = Some fn_IF
    /\ functions engine !! "ISNULL" = Some fn_ISNULL
    /\ fn_COALESCE [VNone; VNone; VInt 5] = Ok (VInt 5)
    /\ fn_ISNULL [VNone] = Ok (VBool true)
    /\ evaluate rt ast_parse engine "COALESCE(None, None, 5)" [] None
       = FormulaResult.mk (VInt 5) None []
    /\ evaluate rt ast_parse engine "ISNULL(None)" [] None
       = FormulaResult.mk (VBool true) None []
    /\ evaluate rt ast_parse engine "IF(True, 1, 2)" [] None
       = FormulaResult.mk (VInt 1) None []
    /\ evaluate rt ast_parse engine "IF(False, 1, 2)" [] None
       = FormulaResult.mk (VInt 2) None []
    /\ evaluate rt ast_parse engine "COALESCE(a, b, 5)" []
                (Some [("a", VNone); ("b", VNone)])
       = FormulaResult.mk (VInt 5) None ["a"; "b"]
    /\ evaluate rt ast_parse engine "ISNULL(a)" [] (Some [("a", VNone)])
       = FormulaResult.mk (VBool true) None ["a"].
Proof.
  intros rt engine. split.
  - intros self context id args f fu vs fu' Hid Hf Hargs.
    apply eval_call_null_aware; auto. apply null_aware_names. exact Hid.
  - repeat split; vm_compute; reflexivity.
Qed.

Lemma null_aware_functions_receive_raw_arguments_witness :
  let context : gmap string pyval := <["b" := VNone]> {["a" := VNone]} in
  _eval_node example_runtime example_engine
    (ast.Call (ast.Name "coalesce") [ast.Name "a"; ast.Name "b"; ast.Constant (VInt 5)])
    context []
  = Ok (VInt 5, ["a"; "b"]).
Proof.
  intros context.
  apply (proj1 (null_aware_functions_receive_raw_arguments example_runtime)
           example_engine context "coalesce"
           [ast.Name "a"; ast.Name "b"; ast.Constant (VInt 5)]
           fn_COALESCE [] [VNone; VNone; VInt 5] ["a"; "b"]).
  - left. reflexivity.
  - reflexivity.
  - vm_compute. reflexivity.
Defined.

(** ** [SUM], [MAX] and [MIN] on numbers *)

Lemma sum_of_numbers_raises vs :
  (2 <= length vs)%nat -> Forall (fun v => is_number v = true) vs ->
  exists msg, fn_SUM vs = Raise (TypeError msg).
Proof.
  intros Hlen Hnum.
  destruct vs as [| v [| start [| third rest]]]; simpl in Hlen; try lia.
  - apply Forall_cons in Hnum as [Hv _]. unfold fn_SUM.
    destruct v; simpl in Hv; try discriminate; simpl; eauto.
  - simpl. eauto.
Qed.

Lemma select_of_one_number_raises name better v :
  is_number v = true ->
  select name better [v] = Raise (not_iterable v).
Proof. intros Hv. unfold select. destruct v; simpl in Hv; try discriminate; reflexivity. Qed.

Lemma numbers_are_not_none vs :
  Forall (fun v => is_number v = true) vs -> existsb is_none vs = false.
Proof.
  induction 1 as [| v vs' Hv _ IH]; [reflexivity |].
  simpl. rewrite IH. destruct v; simpl in Hv; try discriminate; reflexivity.
Qed.

Lemma eval_call_propagating rt self context id args f fu vs fu' :
  null_aware (upper id) = false ->
  functions self !! upper id = Some f ->
  eval_args (fun e fu => _eval_node rt self e context fu) args fu = Ok (vs, fu') ->
  Forall (fun v => is_number v = true) vs ->
  _eval_node rt self (ast.Call (ast.Name id) args) context fu
  = let* v := f vs in Ok (v, fu').
Proof.
  intros Hna Hf Hargs Hnum.
  pose proof (numbers_are_not_none vs Hnum) as Hnone.
  rewrite eval_call_eq.
  replace (functions self !! upper id) with (Some f) by (symmetry; exact Hf).
  rewrite Hargs. cbn [bind]. rewrite Hna, Hnone. reflexivity.
Qed.

(** C10.  When the evaluation of an expression reaches a call of [SUM] whose
    two or more arguments evaluate to numbers, or a call of [MAX] or [MIN]
    whose single argument evaluates to a number, [evaluate] returns value
    [None] with an error of the general class ("Evaluation error: ..."),
    not the sum or the number; [SUM(1, 2)], [MAX(5)] and [MIN(5)] are such
    calls. *)
Theorem sum_max_min_of_numbers_are_errors :
  forall (rt : Runtime) (parse : string -> result ast.expr) (expression : string)
         (data : list (string * pyval)) (computed_fields : option (list (string * pyval))),
    let self := FormulaEngine_init rt None in
    let context := build_context data computed_fields in
    let r := evaluate rt parse self expression data computed_fields in
    (forall tree id args fu vs fu1,
        parse expression = Ok tree ->
        visits rt self context tree [] (ast.Call (ast.Name id) args) fu ->
        eval_args (fun e fu => _eval_node rt self e context fu) args fu = Ok (vs, fu1) ->
        Forall (fun v => is_number v = true) vs ->
        (upper id = "SUM" /\ (2 <= length vs)%nat)
        \/ ((upper id = "MAX" \/ upper id = "MIN") /\ length vs = 1%nat) ->
        FormulaResult.value r = VNone
        /\ exists msg, FormulaResult.error r = Some ("Evaluation error: " +:+ msg))
    /\ evaluate rt ast_parse self "SUM(1, 2)" [] None
       = FormulaResult.mk VNone (Some "Evaluation error: 'int' object is not iterable") []
    /\ evaluate rt ast_parse self "MAX(5)" [] None
       = FormulaResult.mk VNone (Some "Evaluation error: 'int' object is not iterable") []
    /\ evaluate rt ast_parse self "MIN(5)" [] None
       = FormulaResult.mk VNone (Some "Evaluation error: 'int' object is not iterable") [].
Proof.
  intros rt parse expression data computed_fields self context r. split.
  - intros tree id args fu vs fu1 Hp Hvis Hargs Hnum Hcase.
    assert (exists msg, _eval_node rt self (ast.Call (ast.Name id) args) context fu
                        = Raise (TypeError msg)) as [msg Hraise].
    { destruct Hcase as [[Hid Hlen] | [Hid Hlen]].
      - destruct (sum_of_numbers_raises vs Hlen Hnum) as [msg Hsum].
        exists msg.
        rewrite (eval_call_propagating rt self context id args fn_SUM fu vs fu1);
          rewrite ?Hid; auto.
        rewrite Hsum. reflexivity.
      - destruct vs as [| v [| ? ?]]; try discriminate.
        apply Forall_cons in Hnum as [Hv _].
        exists ("'" +:+ type_name v +:+ "' object is not iterable").
        destruct Hid as [Hid | Hid].
        + rewrite (eval_call_propagating rt self context id args fn_MAX fu [v] fu1);
            rewrite ?Hid; auto.
          unfold fn_MAX. rewrite select_of_one_number_raises by exact Hv. reflexivity.
        + rewrite (eval_call_propagating rt self context id args fn_MIN fu [v] fu1);
            rewrite ?Hid; auto.
          unfold fn_MIN. rewrite select_of_one_number_raises by exact Hv. reflexivity. }
    pose proof (raise_propagates rt self context tree [] _ fu _ Hvis Hraise) as Htop.
    subst r. rewrite (evaluate_node_raise _ _ _ _ _ _ tree _ Hp Htop).
    simpl. eauto.
  - repeat split; vm_compute; reflexivity.
Qed.

Lemma sum_max_min_of_numbers_are_errors_witness :
  let r := evaluate example_runtime ast_parse example_engine
                    "1 + SUM(eps, 2.5)" [("eps", VInt 4)] None in
  FormulaResult.value r = VNone
  /\ exists msg, FormulaResult.error r = Some ("Evaluation error: " +:+ msg).
Proof.
  set (the_call := ast.Call (ast.Name "SUM") [ast.Name "eps"; ast.Constant (float_lit 25 (-1))]).
  apply (proj1 (sum_max_min_of_numbers_are_errors example_runtime ast_parse
                  "1 + SUM(eps, 2.5)" [("eps", VInt 4)] None))
    with (tree := ast.BinOp (ast.Constant (VInt 1)) ast.Add the_call)
         (id := "SUM") (args := [ast.Name "eps"; ast.Constant (float_lit 25 (-1))])
         (fu := []) (vs := [VInt 4; float_lit 25 (-1)]) (fu1 := ["eps"]).
  - vm_compute. reflexivity.
  - apply visits_binop_right with (l := VInt 1) (fu1 := []); [reflexivity |].
    apply visits_here.
  - vm_compute. reflexivity.
  - repeat constructor.
  - left. split; [reflexivity | simpl; lia].
Defined.

(** ** Chained comparisons *)

Section Chains.

Variable rt : Runtime.
Variable self : FormulaEngine.
Variable context : gmap string pyval.

Local Abbreviation ev := (fun e fu => _eval_node rt self e context fu).

Lemma compare_loop_after_links ops1 cs1 lhs fu mid fu1 ops2 cs2 :
  links_hold rt self context ops1 cs1 lhs fu mid fu1 ->
  compare_loop rt ev (ops1 ++ ops2) (cs1 ++ cs2) lhs fu
  = compare_loop rt ev ops2 cs2 mid fu1.
Proof.
  induction 1 as [| op ops c rest lhs fu rhs fu1 f holds last fu' Hc Hn Hop Hcall Ht _ IH];
    [reflexivity |]. cbv beta in *.
  simpl. rewrite Hc. cbn [bind]. rewrite Hn, Hop. cbn [bind]. rewrite Hcall. cbn [bind].
  rewrite Ht. exact IH.
Qed.

Lemma compare_left_null lhs ops cs fu fu1 :
  ev lhs fu = Ok (VNone, fu1) ->
  ev (ast.Compare lhs ops cs) fu = Ok (VNone, fu1).
Proof. intros H. simpl. cbv beta in H. rewrite H. reflexivity. Qed.

Lemma eval_compare lhs ops cs fu l fu1 :
  ev lhs fu = Ok (l, fu1) -> is_none l = false ->
  ev (ast.Compare lhs ops cs) fu = compare_loop rt ev ops cs l fu1.
Proof. intros H Hn. simpl. cbv beta in H. rewrite H. cbn [bind]. rewrite Hn. reflexivity. Qed.

Lemma compare_comparator_null lhs ops1 cs1 op c ops2 cs2 fu l fu0 mid fu1 fu2 :
  ev lhs fu = Ok (l, fu0) -> is_none l = false ->
  links_hold rt self context ops1 cs1 l fu0 mid fu1 ->
  ev c fu1 = Ok (VNone, fu2) ->
  ev (ast.Compare lhs (ops1 ++ op :: ops2) (cs1 ++ c :: cs2)) fu = Ok (VNone, fu2).
Proof.
  intros Hl Hn Hlinks Hc. cbv beta in *. rewrite (eval_compare _ _ _ _ _ _ Hl Hn).
  rewrite (compare_loop_after_links _ _ _ _ _ _ _ _ Hlinks).
  simpl. cbv beta in Hc. rewrite Hc. reflexivity.
Qed.

Lemma compare_first_failing_link lhs ops1 cs1 op c ops2 cs2 fu l fu0 mid fu1 rhs fu2
      op_func holds :
  ev lhs fu = Ok (l, fu0) -> is_none l = false ->
  links_hold rt self context ops1 cs1 l fu0 mid fu1 ->
  ev c fu1 = Ok (rhs, fu2) -> is_none rhs = false ->
  operator_lookup rt (ast.OfCmpop op) = Ok op_func ->
  call op_func [mid; rhs] = Ok holds -> truthy holds = false ->
  ev (ast.Compare lhs (ops1 ++ op :: ops2) (cs1 ++ c :: cs2)) fu = Ok (VBool false, fu2).
Proof.
  intros Hl Hn Hlinks Hc Hr Hop Hcall Ht. cbv beta in *. rewrite (eval_compare _ _ _ _ _ _ Hl Hn).
  rewrite (compare_loop_after_links _ _ _ _ _ _ _ _ Hlinks).
  simpl. cbv beta in Hc. rewrite Hc. cbn [bind]. rewrite Hr, Hop. cbn [bind].
  rewrite Hcall. cbn [bind]. rewrite Ht. reflexivity.
Qed.

Lemma compare_all_links_hold lhs ops cs fu l fu0 last fu' :
  ev lhs fu = Ok (l, fu0) -> is_none l = false ->
  links_hold rt self context ops cs l fu0 last fu' ->
  ev (ast.Compare lhs ops cs) fu = Ok (VBool true, fu').
Proof.
  intros Hl Hn Hlinks. cbv beta in *. rewrite (eval_compare _ _ _ _ _ _ Hl Hn).
  rewrite <- (app_nil_r ops), <- (app_nil_r cs).
  rewrite (compare_loop_after_links _ _ _ _ _ _ _ _ Hlinks). reflexivity.
Qed.

(** the evaluation of [0 < x < 1] in terms of the two comparisons *)
Lemma eval_unit_interval_test v :
  context !! "x" = Some v -> is_none v = false ->
  ev unit_interval_test []
  = let* a := py_lt (VInt 0) v in
    if negb (truthy a) then Ok (VBool false, ["x"])
    else let* b := py_lt v (VInt 1) in
         if negb (truthy b) then Ok (VBool false, ["x"]) else Ok (VBool true, ["x"]).
Proof.
  intros Hx Hn. unfold unit_interval_test. cbv beta.
  rewrite (eval_compare (ast.Constant (VInt 0)) _ _ [] (VInt 0) [] eq_refl eq_refl).
  cbn [compare_loop]. cbv beta.
  replace (_eval_node rt self (ast.Name "x") context []) with (Ok (v, ["x"]) : outcome).
  2: { simpl. change (lower "x") with "x". rewrite Hx. reflexivity. }
  cbn [bind]. rewrite Hn.
  change (operator_lookup rt (ast.OfCmpop ast.Lt)) with (Ok (Binary py_lt)).
  cbn [bind call].
  destruct (py_lt (VInt 0) v) as [a | x]; cbn [bind]; [| reflexivity].
  destruct (negb (truthy a)); [reflexivity |].
  cbn [_eval_node bind is_none].
  destruct (py_lt v (VInt 1)) as [b | x]; cbn [bind]; [| reflexivity].
  destruct (negb (truthy b)); reflexivity.
Qed.

End Chains.

(** the two comparisons of [0 < v < 1] against the rational value of [v] *)
Lemma int_between z :
  (0 < inject_Z z)%Q /\ (inject_Z z < 1)%Q <-> 0 < z /\ z < 1.
Proof. unfold Qlt, inject_Z. simpl. lia. Qed.

Lemma is_lt_compare a b : is_lt (Some (a ?= b)) = true <-> a < b.
Proof. simpl. rewrite <- Z.compare_lt_iff. destruct (a ?= b); intuition discriminate. Qed.

Lemma is_lt_compare_opp a b : is_lt (CompOpp <$> Some (a ?= b)) = true <-> b < a.
Proof.
  simpl. rewrite <- Z.compare_gt_iff. destruct (a ?= b); simpl; intuition discriminate.
Qed.

Lemma some_exists (q0 : Q) (P : Q -> Prop) :
  (exists q, Some q0 = Some q /\ P q) <-> P q0.
Proof.
  split; [intros (q & H & HP); injection H as ->; exact HP | intros HP; eauto].
Qed.

Lemma float_between f :
  is_lt (Float.compare_Z 0 f) = true /\ is_lt (CompOpp <$> Float.compare_Z 1 f) = true
  <-> exists q, Float.to_Q f = Some q /\ (0 < q)%Q /\ (q < 1)%Q.
Proof.
  destruct f as [s | s | | s m e].
  - simpl. split; [intros [H _]; discriminate H |].
    intros (q & H & Hq & _). injection H as <-. discriminate Hq.
  - simpl. split; [destruct s; intros [H1 H2]; discriminate | intros (q & H & _); discriminate].
  - simpl. split; [intros [H _]; discriminate | intros (q & H & _); discriminate].
  - unfold Float.compare_Z, Float.to_Q.
    set (n := if s then Z.neg m else Z.pos m). clearbody n.
    destruct e as [| p | p]; rewrite is_lt_compare, is_lt_compare_opp, some_exists.
    + rewrite Z.shiftl_0_r. apply (iff_sym (int_between n)).
    + rewrite Z.shiftl_mul_pow2 by lia. apply (iff_sym (int_between _)).
    + rewrite Z.shiftl_0_l, Z.shiftl_1_l. unfold Qlt. simpl.
      rewrite Pos2Z.inj_pow. lia.
Qed.

Lemma ok_bool_true (b : bool) : (Ok (VBool b) : result pyval) = Ok (VBool true) <-> b = true.
Proof. split; [intros H; injection H as ->; reflexivity | intros ->; reflexivity]. Qed.

Lemma between_comparisons v :
  py_lt (VInt 0) v = Ok (VBool true) /\ py_lt v (VInt 1) = Ok (VBool true)
  <-> strictly_between_0_and_1 v.
Proof.
  unfold strictly_between_0_and_1, value_as_Q, py_lt, py_order.
  destruct v as [| b | z | f | s]; simpl as_num; cbv iota beta.
  - split; [intros [H _]; discriminate | intros (q & H & _); discriminate].
  - unfold num_compare.
    rewrite !ok_bool_true, is_lt_compare, is_lt_compare, some_exists, int_between.
    reflexivity.
  - unfold num_compare.
    rewrite !ok_bool_true, is_lt_compare, is_lt_compare, some_exists, int_between.
    reflexivity.
  - unfold num_compare. rewrite !ok_bool_true. apply float_between.
  - split; [intros [H _]; discriminate | intros (q & H & _); discriminate].
Qed.

Lemma py_lt_shape a b :
  (exists c, py_lt a b = Ok (VBool c)) \/ (exists x, py_lt a b = Raise x).
Proof.
  unfold py_lt, py_order.
  destruct (as_num a), (as_num b); eauto; destruct a, b; eauto.
Qed.

Lemma on_exception_value x : FormulaResult.value (on_exception x) = VNone.
Proof. destruct x; reflexivity. Qed.

Lemma unit_interval_value rt self v :
  FormulaResult.value (evaluate rt ast_parse self "0 < x < 1" [("x", v)] None) = VBool true
  <-> strictly_between_0_and_1 v.
Proof.
  rewrite <- between_comparisons. unfold evaluate.
  replace (ast_parse "0 < x < 1") with (Ok unit_interval_test) by (vm_compute; reflexivity).
  cbn [bind].
  destruct (is_none v) eqn:Hn.
  - destruct v; try discriminate. split; [vm_compute; discriminate |].
    intros [H _]. discriminate H.
  - rewrite (eval_unit_interval_test rt self _ v);
      [| destruct v; try discriminate; vm_compute; reflexivity | exact Hn].
    destruct (py_lt_shape (VInt 0) v) as [[a ->] | [x ->]]; cbn [bind].
    + destruct a; cbn [truthy negb].
      * destruct (py_lt_shape v (VInt 1)) as [[b ->] | [x ->]]; cbn [bind].
        -- destruct b; cbn [truthy negb FormulaResult.value];
             split; try tauto; try (intros [_ H]; discriminate H); discriminate.
        -- rewrite on_exception_value. split; [discriminate | intros [_ H]; discriminate H].
      * cbn [FormulaResult.value]. split; [discriminate | intros [H _]; discriminate H].
    + rewrite on_exception_value. split; [discriminate | intros [H _]; discriminate H].
Qed.

(** C5.  [0 < x < 1] is true exactly when the value of [x] is a number
    strictly between 0 and 1 (true for 0.5, false for 1.5).  In every
    chained comparison a left operand or a reached comparator that is [None]
    makes the comparison [None], and the first link that fails makes it
    [False] whatever the comparators after it are: they are not evaluated. *)
Theorem chained_comparison_semantics :
  forall rt : Runtime,
    let engine := FormulaEngine_init rt None in
    ast_parse "0 < x < 1" = Ok unit_interval_test
    /\ (forall self v,
        FormulaResult.value (evaluate rt ast_parse self "0 < x < 1" [("x", v)] None)
        = VBool true
        <-> strictly_between_0_and_1 v)
    /\ evaluate rt ast_parse engine "0 < x < 1" [("x", float_lit 5 (-1))] None
       = FormulaResult.mk (VBool true) None ["x"]
    /\ evaluate rt ast_parse engine "0 < x < 1" [("x", float_lit 15 (-1))] None
       = FormulaResult.mk (VBool false) None ["x"]
    /\ (forall self context lhs ops cs fu fu1,
        _eval_node rt self lhs context fu = Ok (VNone, fu1) ->
        _eval_node rt self (ast.Compare lhs ops cs) context fu = Ok (VNone, fu1))
    /\ (forall self context lhs ops1 cs1 op c ops2 cs2 fu l fu0 mid fu1 fu2,
        _eval_node rt self lhs context fu = Ok (l, fu0) -> is_none l = false ->
        links_hold rt self context ops1 cs1 l fu0 mid fu1 ->
        _eval_node rt self c context fu1 = Ok (VNone, fu2) ->
        _eval_node rt self (ast.Compare lhs (ops1 ++ op :: ops2) (cs1 ++ c :: cs2)) context fu
        = Ok (VNone, fu2))
    /\ (forall self context lhs ops1 cs1 op c ops2 cs2 fu l fu0 mid fu1 rhs fu2 op_func holds,
        _eval_node rt self lhs context fu = Ok (l, fu0) -> is_none l = false ->
        links_hold rt self context ops1 cs1 l fu0 mid fu1 ->
        _eval_node rt self c context fu1 = Ok (rhs, fu2) -> is_none rhs = false ->
        operator_lookup rt (ast.OfCmpop op) = Ok op_func ->
        call op_func [mid; rhs] = Ok holds -> truthy holds = false ->
        _eval_node rt self (ast.Compare lhs (ops1 ++ op :: ops2) (cs1 ++ c :: cs2)) context fu
        = Ok (VBool false, fu2))
    /\ (forall self context lhs ops cs fu l fu0 last fu',
        _eval_node rt self lhs context fu = Ok (l, fu0) -> is_none l = false ->
        links_hold rt self context ops cs l fu0 last fu' ->
        _eval_node rt self (ast.Compare lhs ops cs) context fu = Ok (VBool true, fu')).
Proof.
  intros rt engine.
  split; [vm_compute; reflexivity |].
  split; [intros self v; apply unit_interval_value |].
  split; [vm_compute; reflexivity |].
  split; [vm_compute; reflexivity |].
  split; [intros self context; apply compare_left_null |].
  split; [intros self context lhs ops1 cs1 op c ops2 cs2 fu l fu0 mid fu1 fu2;
          apply compare_comparator_null |].
  split; [intros self context lhs ops1 cs1 op c ops2 cs2 fu l fu0 mid fu1 rhs fu2 op_func holds;
          apply compare_first_failing_link |].
  intros self context lhs ops cs fu l fu0 last fu'. apply compare_all_links_hold.
Qed.

Lemma chained_comparison_semantics_witness :
  let context : gmap string pyval := {["x" := VInt 7]} in
  (* 0 < x < 5 < 1/0: the link [x < 5] fails, the division is never evaluated *)
  _eval_node example_runtime example_engine
    (ast.Compare (ast.Constant (VInt 0)) ([ast.Lt] ++ ast.Lt :: [ast.Lt])
       ([ast.Name "x"] ++ ast.Constant (VInt 5)
          :: [ast.BinOp (ast.Constant (VInt 1)) ast.Div (ast.Constant (VInt 0))]))
    context []
  = Ok (VBool false, ["x"])
  /\ (FormulaResult.value
        (evaluate example_runtime ast_parse example_engine "0 < x < 1"
                  [("x", float_lit 5 (-1))] None) = VBool true).
Proof.
  intros context.
  pose proof (chained_comparison_semantics example_runtime)
    as (_ & Hiff & _ & _ & _ & _ & Hfail & _).
  split.
  - apply Hfail with (l := VInt 0) (fu0 := []) (mid := VInt 7) (fu1 := ["x"])
                     (rhs := VInt 5) (op_func := Binary py_lt) (holds := VBool false).
    + reflexivity.
    + reflexivity.
    + apply links_hold_cons
        with (rhs := VInt 7) (fu1 := ["x"]) (op_func := Binary py_lt) (holds := VBool true).
      * vm_compute. reflexivity.
      * reflexivity.
      * reflexivity.
      * reflexivity.
      * reflexivity.
      * apply links_hold_nil.
    + reflexivity.
    + reflexivity.
    + reflexivity.
    + reflexivity.
    + reflexivity.
  - apply Hiff. eexists. split; [vm_compute; reflexivity |].
    split; reflexivity.
Defined.

(** ** The context built by [evaluate] *)

Lemma fold_lower_other (items : list (string * pyval)) (m : gmap string pyval) name :
  (forall k v, In (k, v) items -> lower k <> name) ->
  fold_left (fun m kv => <[lower kv.1 := kv.2]> m) items m !! name = m !! name.
Proof.
  revert m. induction items as [| [k v] rest IH]; intros m Hother; [reflexivity |].
  simpl. rewrite IH by (intros k' v' Hin; apply (Hother k' v'); right; exact Hin).
  apply lookup_insert_ne. apply (Hother k v). left. reflexivity.
Qed.

Lemma dict_lower_other items name :
  (forall k v, In (k, v) items -> lower k <> name) -> dict_lower items !! name = None.
Proof. intros H. unfold dict_lower. rewrite fold_lower_other by exact H. apply lookup_empty. Qed.

(** with keys that stay distinct when lowered, every item is found *)
Lemma fold_lower_found (items : list (string * pyval)) (m : gmap string pyval) k v :
  NoDup (map (fun kv => lower kv.1) items) -> In (k, v) items ->
  fold_left (fun m kv => <[lower kv.1 := kv.2]> m) items m !! lower k = Some v.
Proof.
  revert m. induction items as [| [k' v'] rest IH]; intros m Hnd Hin; [destruct Hin |].
  simpl in Hnd. apply NoDup_cons in Hnd as [Hfresh Hnd]. simpl.
  destruct Hin as [Heq | Hin].
  - injection Heq as -> ->. rewrite fold_lower_other; [apply lookup_insert_eq |].
    intros k2 v2 Hin2 Heq2. apply Hfresh. rewrite <- Heq2.
    apply list_elem_of_In. apply (in_map (fun kv => lower kv.1) rest (k2, v2) Hin2).
  - apply IH; assumption.
Qed.

Lemma filter_drops_null (d1 d2 : list (string * pyval)) k :
  List.filter (fun kv => negb (is_none kv.2)) (d1 ++ (k, VNone) :: d2)
  = List.filter (fun kv => negb (is_none kv.2)) (d1 ++ d2).
Proof. rewrite !List.filter_app. reflexivity. Qed.

Lemma build_context_missing data computed_fields name :
  (forall k v, In (k, v) data -> lower k = name -> v = VNone) ->
  (forall overlay k v, computed_fields = Some overlay -> In (k, v) overlay -> lower k <> name) ->
  build_context data computed_fields !! name = None.
Proof.
  intros Hdata Hover. unfold build_context.
  assert (dict_lower (List.filter (fun kv => negb (is_none kv.2)) data) !! name = None) as Hd.
  { apply dict_lower_other. intros k v Hin Heq.
    apply List.filter_In in Hin as [Hin Hnn].
    rewrite (Hdata k v Hin Heq) in Hnn. discriminate Hnn. }
  destruct computed_fields as [[| kv overlay] |]; try exact Hd.
  apply lookup_union_None. split; [| exact Hd].
  apply dict_lower_other. intros k v Hin. exact (Hover _ k v eq_refl Hin).
Qed.

Lemma build_context_overlay data overlay k v :
  NoDup (map (fun kv => lower kv.1) overlay) -> In (k, v) overlay ->
  build_context data (Some overlay) !! lower k = Some v.
Proof.
  intros Hnd Hin. unfold build_context.
  destruct overlay as [| kv rest]; [destruct Hin |].
  apply lookup_union_Some_l. unfold dict_lower. apply fold_lower_found; assumption.
Qed.

Lemma eval_name_missing rt self context id fu :
  context !! lower id = None ->
  _eval_node rt self (ast.Name id) context fu = Raise (KeyError (repr_str (lower id))).
Proof. intros H. simpl. rewrite H. reflexivity. Qed.



(** ** Batch computation *)

Section BatchProofs.

Variable rt : Runtime.
Variable parse : string -> result ast.expr.
Variable sql_double : pyval -> option spec_float.
Variable engine : FormulaEngine.

Lemma with_metrics_same conn : with_metrics conn (computed_metrics conn) = conn.
Proof. destruct conn. reflexivity. Qed.

Lemma then_writes_nil (next : write_log) : then_writes ([], false) next = next.
Proof. destruct next. reflexivity. Qed.

(** a formula whose value is [None] registers nothing *)
Lemma register_no_insert row row_computed formula :
  formula_write rt parse sql_double engine row row_computed formula = NoInsert ->
  register rt parse engine row row_computed formula = row_computed.
Proof.
  unfold formula_write, register. destruct (is_none _); [reflexivity |].
  destruct (sql_double _); discriminate.
Qed.

Lemma formula_step_by_row row conn row_computed count formula :
  formula_step rt parse sql_double engine row (conn, row_computed, count) formula
  = match formula_write rt parse sql_double engine row row_computed formula with
    | NoInsert => Passed (conn, row_computed, count)
    | Inserts m =>
        Passed (with_metrics conn (upsert m (computed_metrics conn)),
                register rt parse engine row row_computed formula,
                count + 1)
    | InsertRaises => Raised conn
    end.
Proof.
  destruct formula as [[formula_id formula_name] expression].
  unfold formula_step, formula_write, register, formula_result. simpl.
  destruct (is_none _); [reflexivity |].
  destruct (sql_double _); reflexivity.
Qed.

Lemma formulas_loop_by_row row formulas conn row_computed count :
  formulas_loop rt parse sql_double engine row formulas (conn, row_computed, count)
  = let log := row_writes rt parse sql_double engine row row_computed formulas in
    let after := with_metrics conn (apply_writes log.1 (computed_metrics conn)) in
    if log.2 then Raised after
    else Passed (after,
                 synthetic_fields_after rt parse engine row row_computed formulas,
                 count + Z.of_nat (length log.1)).
Proof.
  revert conn row_computed count.
  induction formulas as [| formula rest IH]; intros conn row_computed count.
  - simpl. rewrite with_metrics_same, Z.add_0_r. reflexivity.
  - cbn [formulas_loop row_writes]. rewrite formula_step_by_row.
    unfold synthetic_fields_after. cbn [fold_left].
    destruct (formula_write rt parse sql_double engine row row_computed formula)
      as [| m |] eqn:Hwrite.
    + rewrite IH. rewrite (register_no_insert _ _ _ Hwrite). reflexivity.
    + rewrite IH. cbv zeta. cbn [fst snd length].
      destruct (row_writes rt parse sql_double engine row
                  (register rt parse engine row row_computed formula) rest) as [ws raised].
      cbn [fst snd]. destruct raised; [reflexivity |].
      unfold with_metrics. simpl. do 2 f_equal. lia.
    + cbv zeta. cbn [fst snd apply_writes fold_left]. rewrite with_metrics_same. reflexivity.
Qed.

Lemma row_step_by_row formulas conn count row :
  row_step rt parse sql_double engine formulas (conn, count) row
  = let log := row_writes rt parse sql_double engine row [] formulas in
    let after := with_metrics conn (apply_writes log.1 (computed_metrics conn)) in
    if log.2 then Raised after else Passed (after, count + Z.of_nat (length log.1)).
Proof.
  unfold row_step. rewrite formulas_loop_by_row. cbv zeta.
  destruct (row_writes rt parse sql_double engine row [] formulas).2; reflexivity.
Qed.

Lemma rows_loop_by_row formulas rows conn count :
  rows_loop rt parse sql_double engine formulas rows (conn, count)
  = let log := batch_writes rt parse sql_double engine formulas rows in
    let after := with_metrics conn (apply_writes log.1 (computed_metrics conn)) in
    if log.2 then Raised after else Passed (after, count + Z.of_nat (length log.1)).
Proof.
  revert conn count. induction rows as [| row rest IH]; intros conn count.
  - simpl. rewrite with_metrics_same, Z.add_0_r. reflexivity.
  - cbn [rows_loop batch_writes]. rewrite row_step_by_row. cbv zeta.
    destruct (row_writes rt parse sql_double engine row [] formulas) as [ws raised].
    unfold then_writes. cbn [fst snd]. destruct raised; [reflexivity |].
    rewrite IH. cbv zeta.
    destruct (batch_writes rt parse sql_double engine formulas rest) as [ws' raised'].
    cbn [fst snd]. unfold apply_writes. rewrite fold_left_app, length_app.
    unfold with_metrics. simpl. destruct raised'; [reflexivity |]. do 2 f_equal. lia.
Qed.

(** the formulas before a formula decide what it sees; those after do not *)
Lemma row_writes_app row row_computed fs1 fs2 :
  row_writes rt parse sql_double engine row row_computed (fs1 ++ fs2)
  = then_writes (row_writes rt parse sql_double engine row row_computed fs1)
      (row_writes rt parse sql_double engine row
         (synthetic_fields_after rt parse engine row row_computed fs1) fs2).
Proof.
  revert row_computed. induction fs1 as [| f rest IH]; intros row_computed.
  - cbn [app row_writes synthetic_fields_after fold_left]. rewrite then_writes_nil.
    reflexivity.
  - cbn [app row_writes]. unfold synthetic_fields_after. cbn [fold_left].
    destruct (formula_write rt parse sql_double engine row row_computed f) as [| m |].
    + apply IH.
    + rewrite IH. cbv zeta. unfold synthetic_fields_after, then_writes. cbn [fst snd].
      destruct (row_writes rt parse sql_double engine row
                  (register rt parse engine row row_computed f) rest) as [ws raised].
      cbn [fst snd]. destruct raised; reflexivity.
    + reflexivity.
Qed.

End BatchProofs.

(** [compute_all_formulas] ends as its writes say *)
Lemma compute_all_formulas_by_row rt parse sql_double conn universe :
  compute_all_formulas rt parse sql_double conn universe
  = batch_outcome conn
      (batch_writes rt parse sql_double (FormulaEngine_init rt None)
         (formula_definitions conn) (select_fundamentals conn universe)).
Proof.
  unfold compute_all_formulas, batch_outcome. rewrite rows_loop_by_row. reflexivity.
Qed.

(** *** Synthetic names and the items of [row_computed] *)

Lemma lower_synthetic_char c :
  ascii_lower ((fun c => if Ascii.eqb c " "%char then "_"%char else c) (ascii_lower c))
  = (fun c => if Ascii.eqb c " "%char then "_"%char else c) (ascii_lower c).
Proof.
  destruct c as [[|] [|] [|] [|] [|] [|] [|] [|]]; reflexivity.
Qed.

Lemma lower_synthetic_name n : lower (synthetic_name n) = synthetic_name n.
Proof.
  unfold synthetic_name, spaces_to_underscores, lower.
  induction n as [| c n IH]; [reflexivity |].
  cbn [map_chars]. rewrite IH. f_equal. apply lower_synthetic_char.
Qed.

Lemma dict_get_set_same k v items : dict_get k (dict_set k v items) = Some v.
Proof.
  induction items as [| [k' v'] rest IH]; simpl.
  - rewrite String.eqb_refl. reflexivity.
  - destruct (String.eqb k' k) eqn:E; simpl; [rewrite String.eqb_refl | rewrite E]; auto.
Qed.

Lemma dict_get_set_other k k' v items :
  k' <> k -> dict_get k (dict_set k' v items) = dict_get k items.
Proof.
  intros Hne. induction items as [| [k0 v0] rest IH]; simpl.
  - apply String.eqb_neq in Hne. rewrite Hne. reflexivity.
  - destruct (String.eqb k0 k') eqn:E; simpl.
    + apply String.eqb_eq in E. subst k0.
      apply String.eqb_neq in Hne. rewrite Hne. reflexivity.
    + rewrite IH. reflexivity.
Qed.

Lemma dict_get_in k v items : dict_get k items = Some v -> In (k, v) items.
Proof.
  induction items as [| [k' v'] rest IH]; simpl; [discriminate |].
  destruct (String.eqb k' k) eqn:E.
  - apply String.eqb_eq in E. intros H. injection H as ->. left. congruence.
  - intros H. right. exact (IH H).
Qed.

Lemma dict_get_none k items : dict_get k items = None -> forall v, ~ In (k, v) items.
Proof.
  induction items as [| [k' v'] rest IH]; simpl; [tauto |].
  destruct (String.eqb k' k) eqn:E; [discriminate |].
  intros H v [Heq | Hin]; [| exact (IH H v Hin)].
  injection Heq as -> _. rewrite String.eqb_refl in E. discriminate E.
Qed.

Lemma dict_set_keys k v items :
  map fst (dict_set k v items)
  = if bool_decide (k ∈ map fst items) then map fst items else map fst items ++ [k].
Proof.
  induction items as [| [k' v'] rest IH]; [reflexivity |].
  simpl. destruct (String.eqb k' k) eqn:E.
  - apply String.eqb_eq in E. subst k'. simpl.
    rewrite bool_decide_true by (left). reflexivity.
  - apply String.eqb_neq in E. simpl. rewrite IH.
    destruct (bool_decide (k ∈ map fst rest)) eqn:B.
    + apply bool_decide_eq_true in B. rewrite bool_decide_true by (right; exact B). reflexivity.
    + apply bool_decide_eq_false in B.
      rewrite bool_decide_false; [reflexivity |].
      intros Hin. apply elem_of_cons in Hin as [-> | Hin]; [exact (E eq_refl) | exact (B Hin)].
Qed.

Lemma dict_set_in k v items k0 v0 :
  In (k0, v0) (dict_set k v items) -> (k0 = k /\ v0 = v) \/ In (k0, v0) items.
Proof.
  induction items as [| [k' v'] rest IH]; simpl.
  - intros [H | []]. left. injection H as -> ->. auto.
  - destruct (String.eqb k' k) eqn:E; simpl.
    + intros [H | H]; [left; injection H as -> ->; auto | right; right; exact H].
    + intros [H | H]; [right; left; exact H |].
      destruct (IH H) as [? | ?]; [left; assumption | right; right; assumption].
Qed.

Lemma dict_set_synthetic k v items :
  lower k = k -> synthetic_keys items -> synthetic_keys (dict_set k v items).
Proof.
  intros Hk [Hnd Hlow]. split.
  - rewrite dict_set_keys. destruct (bool_decide (k ∈ map fst items)) eqn:B; [exact Hnd |].
    apply bool_decide_eq_false in B. apply NoDup_app. split; [exact Hnd |].
    split; [| apply NoDup_singleton].
    intros x Hx Hx'. apply list_elem_of_singleton in Hx'. subst x. exact (B Hx).
  - intros k0 v0 Hin. destruct (dict_set_in _ _ _ _ _ Hin) as [[-> _] | Hin'];
      [exact Hk | exact (Hlow k0 v0 Hin')].
Qed.

Section SyntheticFields.

Variable rt : Runtime.
Variable parse : string -> result ast.expr.
Variable engine : FormulaEngine.
Variable row : fundamentals_row.

Local Abbreviation after := (synthetic_fields_after rt parse engine row).

Lemma register_synthetic row_computed formula :
  synthetic_keys row_computed ->
  synthetic_keys (register rt parse engine row row_computed formula).
Proof.
  intros H. unfold register. destruct (is_none _); [exact H |].
  apply dict_set_synthetic; [apply lower_synthetic_name | exact H].
Qed.

Lemma synthetic_fields_keys start formulas :
  synthetic_keys start -> synthetic_keys (after start formulas).
Proof.
  revert start. induction formulas as [| f rest IH]; intros start H; [exact H |].
  apply IH. apply register_synthetic. exact H.
Qed.

(** a synthetic field comes from a formula that ran *)
Lemma synthetic_field_origin formulas start k v :
  In (k, v) (after start formulas) ->
  In (k, v) start
  \/ exists formula, In formula formulas /\ synthetic_name formula.1.2 = k.
Proof.
  revert start. induction formulas as [| f rest IH]; intros start Hin; [left; exact Hin |].
  destruct (IH _ Hin) as [Hreg | (g & Hg & Hk)].
  - unfold register in Hreg. destruct (is_none _); [left; exact Hreg |].
    destruct (dict_set_in _ _ _ _ _ Hreg) as [[-> _] | Hstart]; [| left; exact Hstart].
    right. exists f. split; [left; reflexivity | reflexivity].
  - right. exists g. split; [right; exact Hg | exact Hk].
Qed.

Lemma register_keeps_other row_computed formula k :
  synthetic_name formula.1.2 <> k ->
  dict_get k (register rt parse engine row row_computed formula) = dict_get k row_computed.
Proof.
  intros Hne. unfold register. destruct (is_none _); [reflexivity |].
  apply dict_get_set_other. exact Hne.
Qed.

Lemma later_formulas_keep_field formulas start k :
  (forall formula, In formula formulas -> synthetic_name formula.1.2 <> k) ->
  dict_get k (after start formulas) = dict_get k start.
Proof.
  revert start. induction formulas as [| f rest IH]; intros start Hne; [reflexivity |].
  cbn [synthetic_fields_after fold_left].
  change (fold_left (register rt parse engine row) rest (register rt parse engine row start f))
    with (after (register rt parse engine row start f) rest).
  rewrite IH by (intros g Hg; apply Hne; right; exact Hg).
  apply register_keeps_other. apply Hne. left. reflexivity.
Qed.

(** the value of an earlier formula is in the synthetic fields of a later
    one, unless a formula in between took the same synthetic name *)
Lemma earlier_value_registered before provider between v :
  FormulaResult.value (formula_result rt parse engine row (after [] before) provider) = v ->
  is_none v = false ->
  (forall formula, In formula between ->
                   synthetic_name formula.1.2 <> synthetic_name provider.1.2) ->
  dict_get (synthetic_name provider.1.2) (after [] (before ++ provider :: between)) = Some v.
Proof.
  intros Hv Hnn Hne. unfold synthetic_fields_after.
  rewrite fold_left_app. cbn [fold_left].
  change (fold_left (register rt parse engine row) before []) with (after [] before).
  change (fold_left (register rt parse engine row) between ?s) with (after s between).
  rewrite later_formulas_keep_field by exact Hne.
  unfold register. rewrite Hv, Hnn. apply dict_get_set_same.
Qed.

Lemma synthetic_field_in_context start formulas k v :
  synthetic_keys start ->
  dict_get k (after start formulas) = Some v ->
  build_context (row_data row) (Some (after start formulas)) !! k = Some v.
Proof.
  intros Hstart Hget.
  destruct (synthetic_fields_keys start formulas Hstart) as [Hnd Hlow].
  pose proof (dict_get_in _ _ _ Hget) as Hin.
  rewrite <- (Hlow k v Hin). apply build_context_overlay; [| exact Hin].
  replace (map (fun kv : string * pyval => lower kv.1) (after start formulas))
    with (map fst (after start formulas)); [exact Hnd |].
  apply map_ext_in. intros [k0 v0] Hin0. symmetry. exact (Hlow k0 v0 Hin0).
Qed.

End SyntheticFields.

(** *** The table [computed_metrics] *)

Lemma same_key_iff a b : same_key a b = true <-> metric_key a = metric_key b.
Proof.
  unfold same_key, metric_key.
  rewrite !andb_true_iff, !bool_decide_eq_true, String.eqb_eq.
  split; [intros [[-> ->] ->]; reflexivity | intros H; injection H; auto].
Qed.

Lemma same_key_false_iff a b : same_key a b = false <-> metric_key a <> metric_key b.
Proof. rewrite <- same_key_iff. destruct (same_key a b); intuition congruence. Qed.

Lemma stored_after_upsert w table : stored w (upsert w table) = Some w.
Proof.
  unfold stored. induction table as [| old rest IH]; simpl.
  - replace (same_key w w) with true by (symmetry; apply same_key_iff; reflexivity).
    reflexivity.
  - destruct (same_key old w) eqn:E; simpl.
    + replace (same_key w w) with true by (symmetry; apply same_key_iff; reflexivity).
      reflexivity.
    + rewrite E. exact IH.
Qed.

Lemma stored_after_other_upsert w x table :
  same_key x w = false -> stored w (upsert x table) = stored w table.
Proof.
  intros Hne. unfold stored. induction table as [| old rest IH]; simpl.
  - rewrite Hne. reflexivity.
  - destruct (same_key old x) eqn:E; simpl.
    + rewrite Hne.
      replace (same_key old w) with false; [reflexivity |].
      symmetry. apply same_key_false_iff. apply same_key_iff in E.
      apply same_key_false_iff in Hne. congruence.
    + destruct (same_key old w); [reflexivity | exact IH].
Qed.

(** a written row is what the table holds under its key, until a later
    write to the same key *)
Lemma stored_after_writes ws1 w ws2 table :
  (forall w', In w' ws2 -> same_key w' w = false) ->
  stored w (apply_writes (ws1 ++ w :: ws2) table) = Some w.
Proof.
  intros Hlater. unfold apply_writes. rewrite fold_left_app. cbn [fold_left].
  set (t := upsert w (fold_left (fun t w0 => upsert w0 t) ws1 table)).
  assert (stored w t = Some w) as Ht by apply stored_after_upsert.
  clearbody t. revert t Ht. induction ws2 as [| x rest IH]; intros t Ht; [exact Ht |].
  cbn [fold_left]. apply IH.
  - intros w' Hin. apply Hlater. right. exact Hin.
  - rewrite stored_after_other_upsert; [exact Ht | apply Hlater; left; reflexivity].
Qed.




(** * Further properties of the engine *)

(** ** The list of fields is only appended to *)

Section Frame.

Variable rt : Runtime.
Variable self : FormulaEngine.
Variable context : gmap string pyval.

Local Abbreviation ev := (fun e fu => _eval_node rt self e context fu).

(** splits on the outcome of a sub-evaluation from the empty list and
    moves the instances of its hypothesis [IH] to that outcome *)
Ltac frame_on IH :=
  match type of IH with
  | forall fu, _eval_node ?r ?s ?e ?c fu = _ =>
      let E := fresh "E" in
      destruct (_eval_node r s e c []) as [[? ?] | ?] eqn:E;
      repeat rewrite IH; cbn [framed bind app]
  end.

Lemma eval_args_frame args :
  Forall (fun e => forall fu, ev e fu = framed fu (ev e [])) args ->
  forall fu, eval_args ev args fu = framed fu (eval_args ev args []).
Proof.
  induction 1 as [| arg rest IHarg _ IH]; intros fu.
  - simpl. rewrite app_nil_r. reflexivity.
  - cbn [eval_args]. cbv beta in *. frame_on IHarg; [| reflexivity].
    rewrite (IH (fu ++ _)), (IH l).
    destruct (eval_args ev rest []) as [[vs u] |]; cbn [framed bind]; [| reflexivity].
    rewrite app_assoc. reflexivity.
Qed.

Lemma compare_loop_frame cs :
  Forall (fun e => forall fu, ev e fu = framed fu (ev e [])) cs ->
  forall ops lhs fu,
    compare_loop rt ev ops cs lhs fu = framed fu (compare_loop rt ev ops cs lhs []).
Proof.
  induction 1 as [| c rest IHc _ IH]; intros ops lhs fu.
  - destruct ops; simpl; rewrite app_nil_r; reflexivity.
  - destruct ops as [| op ops]; [simpl; rewrite app_nil_r; reflexivity |].
    cbn [compare_loop]. cbv beta in *. frame_on IHc; [| reflexivity].
    destruct (is_none p); [reflexivity |].
    destruct (operator_lookup rt (ast.OfCmpop op)) as [f |]; cbn [bind]; [| reflexivity].
    destruct (call f [lhs; p]) as [holds |]; cbn [bind]; [| reflexivity].
    destruct (negb (truthy holds)); [reflexivity |].
    rewrite (IH ops p (fu ++ l)), (IH ops p l).
    destruct (compare_loop rt ev ops rest p []) as [[v u] |]; cbn [framed]; [| reflexivity].
    rewrite app_assoc. reflexivity.
Qed.

Lemma and_loop_frame vs :
  Forall (fun e => forall fu, ev e fu = framed fu (ev e [])) vs ->
  forall fu, and_loop ev vs fu = framed fu (and_loop ev vs []).
Proof.
  induction 1 as [| v rest IHv _ IH]; intros fu.
  - simpl. rewrite app_nil_r. reflexivity.
  - cbn [and_loop]. cbv beta in *. frame_on IHv; [| reflexivity].
    destruct (negb (truthy p)); [reflexivity |].
    rewrite (IH (fu ++ l)), (IH l).
    destruct (and_loop ev rest []) as [[r u] |]; cbn [framed]; [| reflexivity].
    rewrite app_assoc. reflexivity.
Qed.

Lemma or_loop_frame vs :
  Forall (fun e => forall fu, ev e fu = framed fu (ev e [])) vs ->
  forall fu, or_loop ev vs fu = framed fu (or_loop ev vs []).
Proof.
  induction 1 as [| v rest IHv _ IH]; intros fu.
  - simpl. rewrite app_nil_r. reflexivity.
  - cbn [or_loop]. cbv beta in *. frame_on IHv; [| reflexivity].
    destruct (truthy p); [reflexivity |].
    rewrite (IH (fu ++ l)), (IH l).
    destruct (or_loop ev rest []) as [[r u] |]; cbn [framed]; [| reflexivity].
    rewrite app_assoc. reflexivity.
Qed.

(** An evaluation started with the list [fu] goes as the one started with
    the empty list, and leaves [fu] followed by the fields of that one. *)
Lemma eval_frame e : forall fu, ev e fu = framed fu (ev e []).
Proof.
  induction e as [v | id | lhs op rhs IHl IHr | op operand IH | lhs ops cs IHl IHcs
                 | op vs IHvs | func args _ IHargs | test body orelse IHt IHb IHo | kind]
    using ast.expr_ind'; intros fu.
  - simpl. rewrite app_nil_r. reflexivity.
  - simpl. destruct (context !! lower id); reflexivity.
  - cbn [_eval_node]. frame_on IHl; [| reflexivity].
    rewrite (IHr (fu ++ l)), (IHr l).
    destruct (_eval_node rt self rhs context []) as [[r u] |]; cbn [framed bind];
      [| reflexivity].
    destruct (is_none p || is_none r); [cbn [framed]; rewrite app_assoc; reflexivity |].
    destruct (operator_lookup rt (ast.OfOperator op)) as [f |]; cbn [bind]; [| reflexivity].
    destruct (call f [p; r]); cbn [framed bind]; [| reflexivity].
    rewrite app_assoc. reflexivity.
  - cbn [_eval_node]. frame_on IH; [| reflexivity].
    destruct (is_none p); [reflexivity |].
    destruct (operator_lookup rt (ast.OfUnaryop op)) as [f |]; cbn [bind]; [| reflexivity].
    destruct (call f [p]); reflexivity.
  - cbn [_eval_node]. frame_on IHl; [| reflexivity].
    destruct (is_none p); [reflexivity |].
    rewrite (compare_loop_frame cs IHcs ops p (fu ++ l)), (compare_loop_frame cs IHcs ops p l).
    destruct (compare_loop rt _ ops cs p []) as [[v u] |]; cbn [framed]; [| reflexivity].
    rewrite app_assoc. reflexivity.
  - destruct op; cbn [_eval_node].
    + apply (and_loop_frame vs IHvs).
    + apply (or_loop_frame vs IHvs).
  - destruct func; try reflexivity.
    rewrite !eval_call_eq.
    destruct (functions self !! upper id) as [f |]; [| reflexivity].
    rewrite (eval_args_frame args IHargs fu).
    destruct (eval_args _ args []) as [[vs u] |]; cbn [framed bind]; [| reflexivity].
    destruct (null_aware (upper id)); [destruct (f vs); reflexivity |].
    destruct (existsb is_none vs); [reflexivity |].
    destruct (f vs); reflexivity.
  - cbn [_eval_node]. frame_on IHt; [| reflexivity].
    destruct (truthy p).
    + rewrite (IHb (fu ++ l)), (IHb l).
      destruct (_eval_node rt self body context []) as [[v u] |]; cbn [framed];
        [| reflexivity].
      rewrite app_assoc. reflexivity.
    + rewrite (IHo (fu ++ l)), (IHo l).
      destruct (_eval_node rt self orelse context []) as [[v u] |]; cbn [framed];
        [| reflexivity].
      rewrite app_assoc. reflexivity.
  - reflexivity.
Qed.

End Frame.

(** ** The lists of validation are only appended to *)

Section ValidationFrame.

Variable rt : Runtime.
Variable self : FormulaEngine.

Local Abbreviation vl := (fun e st => _validate_node rt self e st).

Lemma vappend_start st : vappend st vstart = st.
Proof. destruct st. unfold vappend. simpl. rewrite !app_nil_r. reflexivity. Qed.

Lemma vappend_assoc a b c : vappend a (vappend b c) = vappend (vappend a b) c.
Proof. unfold vappend. simpl. rewrite !app_assoc. reflexivity. Qed.

Lemma add_error_frame msg st : add_error msg st = vappend st (add_error msg vstart).
Proof. destruct st. unfold add_error, vappend. simpl. rewrite !app_nil_r. reflexivity. Qed.

Lemma add_field_frame name st : add_field name st = vappend st (add_field name vstart).
Proof. destruct st. unfold add_field, vappend. simpl. rewrite !app_nil_r. reflexivity. Qed.

Lemma add_func_frame name st : add_func name st = vappend st (add_func name vstart).
Proof. destruct st. unfold add_func, vappend. simpl. rewrite !app_nil_r. reflexivity. Qed.

Lemma check_operator_frame what c st :
  check_operator rt what c st = vappend st (check_operator rt what c vstart).
Proof.
  unfold check_operator. destruct (SAFE_OPERATORS rt c).
  - rewrite vappend_start. reflexivity.
  - apply add_error_frame.
Qed.

Lemma validate_compare_eq lhs ops cs st :
  vl (ast.Compare lhs ops cs) st = validate_links rt self ops cs (vl lhs st).
Proof.
  cbv beta. cbn [_validate_node]. generalize (_validate_node rt self lhs st) as st0.
  clear st. revert ops.
  induction cs as [| c rest IH]; intros ops st; destruct ops; try reflexivity.
  cbn [validate_links]. rewrite <- IH. reflexivity.
Qed.

Lemma validate_boolop_eq op vs st :
  vl (ast.BoolOp op vs) st = validate_each rt self vs st.
Proof. reflexivity. Qed.

Lemma validate_call_eq id args st :
  vl (ast.Call (ast.Name id) args) st
  = validate_each rt self args
      (add_func (upper id)
         (match functions self !! upper id with
          | Some _ => st
          | None => add_error ("Unknown function: " +:+ upper id) st
          end)).
Proof. reflexivity. Qed.

Lemma validate_each_frame nodes :
  Forall (fun e => forall st, vl e st = vappend st (vl e vstart)) nodes ->
  forall st, validate_each rt self nodes st = vappend st (validate_each rt self nodes vstart).
Proof.
  unfold validate_each.
  induction 1 as [| e rest He _ IH]; intros st.
  - simpl. rewrite vappend_start. reflexivity.
  - cbn [fold_left]. cbv beta in *.
    rewrite (IH (_validate_node rt self e st)), (IH (_validate_node rt self e vstart)).
    rewrite (He st), vappend_assoc. reflexivity.
Qed.

Lemma validate_links_frame cs :
  Forall (fun e => forall st, vl e st = vappend st (vl e vstart)) cs ->
  forall ops st,
    validate_links rt self ops cs st = vappend st (validate_links rt self ops cs vstart).
Proof.
  induction 1 as [| c rest Hc _ IH]; intros ops st.
  - destruct ops; simpl; rewrite vappend_start; reflexivity.
  - destruct ops as [| op ops]; [simpl; rewrite vappend_start; reflexivity |].
    cbn [validate_links]. cbv beta in *.
    rewrite (IH ops (_validate_node rt self c _)).
    rewrite (IH ops (_validate_node rt self c (check_operator rt _ _ vstart))).
    rewrite (Hc (check_operator rt _ _ st)), (Hc (check_operator rt _ _ vstart)).
    rewrite (check_operator_frame _ _ st), !vappend_assoc. reflexivity.
Qed.

(** Validation started with the lists [st] appends to them what it
    appends to empty lists. *)
Lemma validate_frame e : forall st, vl e st = vappend st (vl e vstart).
Proof.
  induction e as [v | id | lhs op rhs IHl IHr | op operand IH | lhs ops cs IHl IHcs
                 | op vs IHvs | func args _ IHargs | test body orelse IHt IHb IHo | kind]
    using ast.expr_ind'; intros st.
  - destruct v; cbn [_validate_node]; rewrite ?vappend_start; try reflexivity.
    apply add_error_frame.
  - apply add_field_frame.
  - cbn [_validate_node].
    rewrite (IHr (vl lhs _)), (IHr (vl lhs (check_operator rt _ _ vstart))).
    rewrite (IHl (check_operator rt _ _ st)), (IHl (check_operator rt _ _ vstart)).
    rewrite (check_operator_frame _ _ st), !vappend_assoc. reflexivity.
  - cbn [_validate_node].
    rewrite (IH (check_operator rt _ _ st)), (IH (check_operator rt _ _ vstart)).
    rewrite (check_operator_frame _ _ st), !vappend_assoc. reflexivity.
  - rewrite !validate_compare_eq.
    rewrite (validate_links_frame cs IHcs ops (vl lhs st)).
    rewrite (validate_links_frame cs IHcs ops (vl lhs vstart)).
    rewrite (IHl st), vappend_assoc. reflexivity.
  - rewrite !validate_boolop_eq. apply (validate_each_frame vs IHvs).
  - destruct func; try apply add_error_frame.
    rewrite !validate_call_eq.
    destruct (functions self !! upper id).
    + rewrite (validate_each_frame args IHargs (add_func (upper id) st)).
      rewrite (validate_each_frame args IHargs (add_func (upper id) vstart)).
      rewrite (add_func_frame _ st), !vappend_assoc. reflexivity.
    + rewrite (validate_each_frame args IHargs (add_func (upper id) (add_error _ st))).
      rewrite (validate_each_frame args IHargs (add_func (upper id) (add_error _ vstart))).
      rewrite (add_func_frame _ (add_error _ st)), (add_func_frame _ (add_error _ vstart)).
      rewrite (add_error_frame _ st), !vappend_assoc. reflexivity.
  - cbn [_validate_node].
    rewrite (IHo (vl body _)), (IHo (vl body (vl test vstart))).
    rewrite (IHb (vl test st)), (IHb (vl test vstart)).
    rewrite (IHt st), !vappend_assoc. reflexivity.
  - apply add_error_frame.
Qed.

End ValidationFrame.

(** ** The fields validation reports, node by node *)

Section ValidationFields.

Variable rt : Runtime.
Variable self : FormulaEngine.

Local Abbreviation vl := (fun e st => _validate_node rt self e st).
Local Abbreviation fields_of := (fun e => v_fields (_validate_node rt self e vstart)).

Lemma all_frame (nodes : list ast.expr) :
  Forall (fun e => forall st, vl e st = vappend st (vl e vstart)) nodes.
Proof. apply Forall_forall. intros e _. apply validate_frame. Qed.

Lemma check_operator_fields what c st :
  v_fields (check_operator rt what c st) = v_fields st.
Proof. unfold check_operator. destruct (SAFE_OPERATORS rt c); reflexivity. Qed.

Lemma validate_fields_from e st : v_fields (vl e st) = v_fields st ++ fields_of e.
Proof. cbv beta. rewrite (validate_frame rt self e st). reflexivity. Qed.

Lemma fields_binop lhs op rhs :
  fields_of (ast.BinOp lhs op rhs) = fields_of lhs ++ fields_of rhs.
Proof.
  cbv beta. cbn [_validate_node].
  rewrite validate_fields_from, validate_fields_from, check_operator_fields. reflexivity.
Qed.

Lemma fields_unaryop op operand : fields_of (ast.UnaryOp op operand) = fields_of operand.
Proof.
  cbv beta. cbn [_validate_node].
  rewrite validate_fields_from, check_operator_fields. reflexivity.
Qed.

Lemma fields_links_cons op ops c rest :
  v_fields (validate_links rt self (op :: ops) (c :: rest) vstart)
  = fields_of c ++ v_fields (validate_links rt self ops rest vstart).
Proof.
  cbn [validate_links].
  rewrite (validate_links_frame rt self rest (all_frame rest) ops (_validate_node rt self c _)).
  cbn [vappend v_fields]. rewrite validate_fields_from, check_operator_fields. reflexivity.
Qed.

Lemma fields_compare lhs ops cs :
  fields_of (ast.Compare lhs ops cs)
  = fields_of lhs ++ v_fields (validate_links rt self ops cs vstart).
Proof.
  cbv beta. rewrite validate_compare_eq.
  rewrite (validate_links_frame rt self cs (all_frame cs) ops (_validate_node rt self lhs vstart)).
  reflexivity.
Qed.

Lemma fields_each_cons e rest :
  v_fields (validate_each rt self (e :: rest) vstart)
  = fields_of e ++ v_fields (validate_each rt self rest vstart).
Proof.
  change (validate_each rt self (e :: rest) vstart)
    with (validate_each rt self rest (_validate_node rt self e vstart)).
  rewrite (validate_each_frame rt self rest (all_frame rest) (_validate_node rt self e vstart)).
  reflexivity.
Qed.

Lemma fields_call id args :
  fields_of (ast.Call (ast.Name id) args) = v_fields (validate_each rt self args vstart).
Proof.
  cbv beta. rewrite validate_call_eq.
  rewrite (validate_each_frame rt self args (all_frame args) (add_func _ _)).
  destruct (functions self !! upper id); reflexivity.
Qed.

Lemma fields_ifexp test body orelse :
  fields_of (ast.IfExp test body orelse)
  = fields_of test ++ fields_of body ++ fields_of orelse.
Proof.
  cbv beta. cbn [_validate_node].
  rewrite validate_fields_from, validate_fields_from, app_assoc. reflexivity.
Qed.

End ValidationFields.

(** ** The fields an evaluation used *)

Section FieldsUsed.

Variable rt : Runtime.
Variable self : FormulaEngine.
Variable context : gmap string pyval.

Local Abbreviation ev := (fun e fu => _eval_node rt self e context fu).
Local Abbreviation fields_of := (fun e => v_fields (_validate_node rt self e vstart)).

(** a name of [used] is a key of the context and one of [reported] *)
Local Abbreviation known reported :=
  (fun name : string => is_Some (context !! name) /\ name ∈ reported).

Lemma known_weaken (l1 l2 : list string) used :
  Forall (known l2) used -> Forall (known (l1 ++ l2)) used /\ Forall (known (l2 ++ l1)) used.
Proof.
  intros H. split; eapply Forall_impl; try exact H; cbv beta;
    intros n [Hs Hin]; (split; [exact Hs | apply elem_of_app; auto]).
Qed.

Lemma eval_from e fu v fu' :
  ev e fu = Ok (v, fu') ->
  exists used, ev e [] = Ok (v, used) /\ fu' = fu ++ used.
Proof.
  cbv beta. rewrite (eval_frame rt self context e fu).
  destruct (_eval_node rt self e context []) as [[v0 used] |]; cbn [framed]; intros H;
    [| discriminate H].
  inversion H; subst. exists used. auto.
Qed.

Lemma and_loop_fields vs :
  Forall (fun e => forall v used, ev e [] = Ok (v, used) -> Forall (known (fields_of e)) used)
         vs ->
  forall fu v fu',
    and_loop ev vs fu = Ok (v, fu') ->
    exists used, fu' = fu ++ used
                 /\ Forall (known (v_fields (validate_each rt self vs vstart))) used.
Proof.
  induction 1 as [| e rest He _ IH]; intros fu v fu' Hev.
  - simpl in Hev. inversion Hev; subst. exists []. rewrite app_nil_r. auto.
  - cbn [and_loop] in Hev. cbv beta in *.
    destruct (_eval_node rt self e context fu) as [[r fu1] |] eqn:Ee; [| discriminate Hev].
    cbn [bind] in Hev.
    destruct (eval_from e fu r fu1 Ee) as (u1 & Hu1 & ->).
    pose proof (He _ _ Hu1) as Hk1. rewrite fields_each_cons.
    destruct (negb (truthy r)).
    + inversion Hev; subst. exists u1. split; [reflexivity |].
      apply (known_weaken _ _ _ Hk1).
    + destruct (IH _ _ _ Hev) as (u2 & -> & Hk2).
      exists (u1 ++ u2). rewrite app_assoc. split; [reflexivity |].
      apply Forall_app. split.
      * apply (known_weaken _ _ _ Hk1).
      * apply (known_weaken _ _ _ Hk2).
Qed.

Lemma or_loop_fields vs :
  Forall (fun e => forall v used, ev e [] = Ok (v, used) -> Forall (known (fields_of e)) used)
         vs ->
  forall fu v fu',
    or_loop ev vs fu = Ok (v, fu') ->
    exists used, fu' = fu ++ used
                 /\ Forall (known (v_fields (validate_each rt self vs vstart))) used.
Proof.
  induction 1 as [| e rest He _ IH]; intros fu v fu' Hev.
  - simpl in Hev. inversion Hev; subst. exists []. rewrite app_nil_r. auto.
  - cbn [or_loop] in Hev. cbv beta in *.
    destruct (_eval_node rt self e context fu) as [[r fu1] |] eqn:Ee; [| discriminate Hev].
    cbn [bind] in Hev.
    destruct (eval_from e fu r fu1 Ee) as (u1 & Hu1 & ->).
    pose proof (He _ _ Hu1) as Hk1. rewrite fields_each_cons.
    destruct (truthy r).
    + inversion Hev; subst. exists u1. split; [reflexivity |].
      apply (known_weaken _ _ _ Hk1).
    + destruct (IH _ _ _ Hev) as (u2 & -> & Hk2).
      exists (u1 ++ u2). rewrite app_assoc. split; [reflexivity |].
      apply Forall_app. split.
      * apply (known_weaken _ _ _ Hk1).
      * apply (known_weaken _ _ _ Hk2).
Qed.

Lemma eval_args_fields args :
  Forall (fun e => forall v used, ev e [] = Ok (v, used) -> Forall (known (fields_of e)) used)
         args ->
  forall fu vs fu',
    eval_args ev args fu = Ok (vs, fu') ->
    exists used, fu' = fu ++ used
                 /\ Forall (known (v_fields (validate_each rt self args vstart))) used.
Proof.
  induction 1 as [| e rest He _ IH]; intros fu vs fu' Hev.
  - simpl in Hev. inversion Hev; subst. exists []. rewrite app_nil_r. auto.
  - cbn [eval_args] in Hev. cbv beta in *.
    destruct (_eval_node rt self e context fu) as [[r fu1] |] eqn:Ee; [| discriminate Hev].
    cbn [bind] in Hev.
    destruct (eval_from e fu r fu1 Ee) as (u1 & Hu1 & ->).
    pose proof (He _ _ Hu1) as Hk1. rewrite fields_each_cons.
    destruct (eval_args _ rest (fu ++ u1)) as [[vs' fu2] |] eqn:Er; [| discriminate Hev].
    cbn [bind] in Hev. inversion Hev; subst.
    destruct (IH _ _ _ Er) as (u2 & -> & Hk2).
    exists (u1 ++ u2). rewrite app_assoc. split; [reflexivity |].
    apply Forall_app. split.
    + apply (known_weaken _ _ _ Hk1).
    + apply (known_weaken _ _ _ Hk2).
Qed.

Lemma compare_loop_fields cs :
  Forall (fun e => forall v used, ev e [] = Ok (v, used) -> Forall (known (fields_of e)) used)
         cs ->
  forall ops lhs fu v fu',
    compare_loop rt ev ops cs lhs fu = Ok (v, fu') ->
    exists used, fu' = fu ++ used
                 /\ Forall (known (v_fields (validate_links rt self ops cs vstart))) used.
Proof.
  induction 1 as [| e rest He _ IH]; intros ops lhs fu v fu' Hev.
  - destruct ops; simpl in Hev; inversion Hev; subst; exists []; rewrite app_nil_r; auto.
  - destruct ops as [| op ops];
      [simpl in Hev; inversion Hev; subst; exists []; rewrite app_nil_r; auto |].
    cbn [compare_loop] in Hev. cbv beta in *.
    destruct (_eval_node rt self e context fu) as [[r fu1] |] eqn:Ee; [| discriminate Hev].
    cbn [bind] in Hev.
    destruct (eval_from e fu r fu1 Ee) as (u1 & Hu1 & ->).
    pose proof (He _ _ Hu1) as Hk1. rewrite fields_links_cons.
    destruct (is_none r).
    { inversion Hev; subst. exists u1. split; [reflexivity |].
      apply (known_weaken _ _ _ Hk1). }
    destruct (operator_lookup rt (ast.OfCmpop op)) as [f |]; [| discriminate Hev].
    cbn [bind] in Hev.
    destruct (call f [lhs; r]) as [holds |]; [| discriminate Hev].
    cbn [bind] in Hev.
    destruct (negb (truthy holds)).
    + inversion Hev; subst. exists u1. split; [reflexivity |].
      apply (known_weaken _ _ _ Hk1).
    + destruct (IH _ _ _ _ _ Hev) as (u2 & -> & Hk2).
      exists (u1 ++ u2). rewrite app_assoc. split; [reflexivity |].
      apply Forall_app. split.
      * apply (known_weaken _ _ _ Hk1).
      * apply (known_weaken _ _ _ Hk2).
Qed.

(** Every field a successful evaluation lists is a key of the context and
    is among the fields validation lists for the node. *)
Lemma eval_fields e :
  forall v used, ev e [] = Ok (v, used) -> Forall (known (fields_of e)) used.
Proof.
  induction e as [c | id | lhs op rhs IHl IHr | op operand IH | lhs ops cs IHl IHcs
                 | op vs IHvs | func args _ IHargs | test body orelse IHt IHb IHo | kind]
    using ast.expr_ind'; intros v used Hev.
  - simpl in Hev. inversion Hev. constructor.
  - simpl in Hev. destruct (context !! lower id) as [x |] eqn:Hx; [| discriminate Hev].
    inversion Hev; subst. constructor; [| constructor]. split.
    + rewrite Hx. eauto.
    + cbn [_validate_node add_field v_fields vstart app]. apply list_elem_of_In. left.
      reflexivity.
  - cbn [_eval_node] in Hev.
    destruct (_eval_node rt self lhs context []) as [[l u1] |] eqn:El; [| discriminate Hev].
    cbn [bind] in Hev.
    destruct (_eval_node rt self rhs context u1) as [[r fu2] |] eqn:Er; [| discriminate Hev].
    cbn [bind] in Hev.
    destruct (eval_from rhs u1 r fu2 Er) as (u2 & Hu2 & ->).
    assert (used = u1 ++ u2) as ->.
    { destruct (is_none l || is_none r); [inversion Hev; reflexivity |].
      destruct (operator_lookup rt _) as [f |]; [| discriminate Hev]. cbn [bind] in Hev.
      destruct (call f _); [| discriminate Hev]. inversion Hev; reflexivity. }
    rewrite fields_binop. apply Forall_app. split.
    + apply (known_weaken _ _ _ (IHl _ _ eq_refl)).
    + apply (known_weaken _ _ _ (IHr _ _ Hu2)).
  - cbn [_eval_node] in Hev.
    destruct (_eval_node rt self operand context []) as [[x u1] |] eqn:Ex;
      [| discriminate Hev].
    cbn [bind] in Hev.
    assert (used = u1) as ->.
    { destruct (is_none x); [inversion Hev; reflexivity |].
      destruct (operator_lookup rt _) as [f |]; [| discriminate Hev]. cbn [bind] in Hev.
      destruct (call f _); [| discriminate Hev]. inversion Hev; reflexivity. }
    rewrite fields_unaryop. apply (IH _ _ eq_refl).
  - cbn [_eval_node] in Hev.
    destruct (_eval_node rt self lhs context []) as [[l u1] |] eqn:El; [| discriminate Hev].
    cbn [bind] in Hev. rewrite fields_compare.
    pose proof (IHl _ _ eq_refl) as Hk1.
    destruct (is_none l).
    { inversion Hev; subst. apply (known_weaken _ _ _ Hk1). }
    destruct (compare_loop_fields cs IHcs _ _ _ _ _ Hev) as (u2 & -> & Hk2).
    apply Forall_app. split.
    + apply (known_weaken _ _ _ Hk1).
    + apply (known_weaken _ _ _ Hk2).
  - destruct op; cbn [_eval_node] in Hev.
    + destruct (and_loop_fields vs IHvs _ _ _ Hev) as (u & -> & Hk). exact Hk.
    + destruct (or_loop_fields vs IHvs _ _ _ Hev) as (u & -> & Hk). exact Hk.
  - destruct func; try discriminate Hev.
    rewrite eval_call_eq in Hev.
    destruct (functions self !! upper id) as [f |]; [| discriminate Hev].
    destruct (eval_args _ args []) as [[xs u] |] eqn:Ea; [| discriminate Hev].
    cbn [bind] in Hev.
    destruct (eval_args_fields args IHargs _ _ _ Ea) as (u' & -> & Hk).
    assert (used = u') as ->.
    { cbn [app] in Hev.
      destruct (null_aware (upper id)).
      - destruct (f xs); [| discriminate Hev]. inversion Hev; reflexivity.
      - destruct (existsb is_none xs); [inversion Hev; reflexivity |].
        destruct (f xs); [| discriminate Hev]. inversion Hev; reflexivity. }
    rewrite fields_call. exact Hk.
  - cbn [_eval_node] in Hev.
    destruct (_eval_node rt self test context []) as [[t u1] |] eqn:Et; [| discriminate Hev].
    cbn [bind] in Hev. rewrite fields_ifexp.
    pose proof (IHt _ _ eq_refl) as Hk1.
    destruct (truthy t).
    + destruct (eval_from body u1 v used Hev) as (u2 & Hu2 & ->).
      apply Forall_app. split; [apply (known_weaken _ _ _ Hk1) |].
      apply (known_weaken (fields_of test)).
      apply (known_weaken (fields_of orelse) (fields_of body) _ (IHb _ _ Hu2)).
    + destruct (eval_from orelse u1 v used Hev) as (u2 & Hu2 & ->).
      apply Forall_app. split; [apply (known_weaken _ _ _ Hk1) |].
      apply (known_weaken (fields_of test)).
      apply (known_weaken (fields_of body) _ _ (IHo _ _ Hu2)).
  - discriminate Hev.
Qed.

End FieldsUsed.

(** X1.  When [evaluate] returns without an error, validation of the same
    text returns too, and every name in the result's [fields_used] is a key
    of the context that was built and is among the [fields_used] that
    [validate] reports.  When [evaluate] returns with an error, its
    [fields_used] is empty, whatever was read before the failure. *)
Theorem fields_used_are_present_and_reported :
  forall (rt : Runtime) (parse : string -> result ast.expr) (self : FormulaEngine)
         (expression : string) (data : list (string * pyval))
         (computed_fields : option (list (string * pyval))),
    let r := evaluate rt parse self expression data computed_fields in
    (FormulaResult.error r = None ->
     exists v,
       validate rt parse self expression = Ok v
       /\ forall name,
           name ∈ FormulaResult.fields_used r ->
           name ∈ ValidationResult.fields_used v
           /\ is_Some (build_context data computed_fields !! name))
    /\ (FormulaResult.error r <> None -> FormulaResult.fields_used r = []).
Proof.
  intros rt parse self expression data computed_fields r. subst r.
  unfold evaluate, validate.
  destruct (parse expression) as [tree | x]; cbn [bind].
  - destruct (_eval_node rt self tree (build_context data computed_fields) [])
      as [[v used] |] eqn:Hev.
    + split; [| intros H; exfalso; apply H; reflexivity].
      intros _. eexists. split; [reflexivity |].
      cbn [FormulaResult.fields_used ValidationResult.fields_used]. intros name Hin.
      pose proof (eval_fields rt self _ tree v used Hev) as Hall.
      rewrite Forall_forall in Hall. destruct (Hall name Hin) as [Hs Hrep].
      split; [| exact Hs].
      unfold list_of_set. apply elem_of_remove_dups. exact Hrep.
    + destruct (on_exception_shape e) as (_ & Hfu & msg & Hmsg & _).
      split; [intros H; rewrite Hmsg in H; discriminate H | intros _; exact Hfu].
  - destruct (on_exception_shape x) as (_ & Hfu & msg & Hmsg & _).
    split; [intros H; rewrite Hmsg in H; discriminate H | intros _; exact Hfu].
Qed.

Lemma fields_used_are_present_and_reported_witness :
  FormulaResult.fields_used
    (evaluate example_runtime ast_parse example_engine "eps * 2 if eps > 0 else price"
              [("EPS", float_lit 5 0); ("price", VNone)] None)
  = ["eps"; "eps"]
  /\ (exists v,
        validate example_runtime ast_parse example_engine "eps * 2 if eps > 0 else price"
        = Ok v
        /\ forall name,
            name ∈ FormulaResult.fields_used
                     (evaluate example_runtime ast_parse example_engine
                               "eps * 2 if eps > 0 else price"
                               [("EPS", float_lit 5 0); ("price", VNone)] None) ->
            name ∈ ValidationResult.fields_used v
            /\ is_Some (build_context [("EPS", float_lit 5 0); ("price", VNone)] None
                          !! name))
  /\ FormulaResult.fields_used
       (evaluate example_runtime ast_parse example_engine "eps + price"
                 [("EPS", float_lit 5 0); ("price", VNone)] None)
     = [].
Proof.
  split; [vm_compute; reflexivity |]. split.
  - apply (fields_used_are_present_and_reported example_runtime ast_parse example_engine
             "eps * 2 if eps > 0 else price"
             [("EPS", float_lit 5 0); ("price", VNone)] None).
    vm_compute. reflexivity.
  - apply (fields_used_are_present_and_reported example_runtime ast_parse example_engine
             "eps + price" [("EPS", float_lit 5 0); ("price", VNone)] None).
    vm_compute. discriminate.
Defined.

(** ** Operators and functions that raise no [KeyError] *)

(** splits the hypothesis [H : ... = Raise (KeyError k)] along the matches
    of the term that raises *)
Ltac split_raise H :=
  repeat (cbn [bind] in H;
          match type of H with
          | Ok _ = Raise _ => discriminate H
          | Raise (TypeError _) = Raise _ => discriminate H
          | Raise (ValueError _) = Raise _ => discriminate H
          | Raise (ZeroDivisionError _) = Raise _ => discriminate H
          | Raise (OverflowError _) = Raise _ => discriminate H
          | context [match ?x with _ => _ end] => destruct x eqn:?
          end).

Lemma bind_no_key_error {A B : Type} (m : result A) (f : A -> result B) :
  no_key_error m -> (forall a, no_key_error (f a)) -> no_key_error (bind m f).
Proof.
  intros Hm Hf k H. destruct m as [a | x]; cbn [bind] in H.
  - exact (Hf a k H).
  - apply (Hm k). inversion H. reflexivity.
Qed.

Lemma to_float_no_key_error n : no_key_error (to_float n).
Proof. intros k H. unfold to_float in H. split_raise H. Qed.

Lemma arith_no_key_error iop fop a b :
  (forall x y, no_key_error (iop x y)) -> (forall x y, no_key_error (fop x y)) ->
  no_key_error (arith iop fop a b).
Proof.
  intros Hi Hf. unfold arith. destruct a, b; try apply Hi;
    (apply bind_no_key_error; [apply to_float_no_key_error | intros x]);
    (apply bind_no_key_error; [apply to_float_no_key_error | intros y]); apply Hf.
Qed.

Lemma ok_no_key_error {A : Type} (a : A) : no_key_error (Ok a).
Proof. intros k H. discriminate H. Qed.

Section NoKeyError.

Variable rt : Runtime.
Hypothesis Hrt : runtime_no_key_error rt.

Lemma py_add_no_key_error a b : no_key_error (py_add a b).
Proof.
  unfold py_add. destruct (as_num a), (as_num b);
    try (apply arith_no_key_error; intros; apply ok_no_key_error);
    intros k H; unfold unsupported_operand in H; split_raise H.
Qed.

Lemma py_sub_no_key_error a b : no_key_error (py_sub a b).
Proof.
  unfold py_sub. destruct (as_num a), (as_num b);
    try (apply arith_no_key_error; intros; apply ok_no_key_error);
    intros k H; unfold unsupported_operand in H; split_raise H.
Qed.

Lemma py_mul_no_key_error a b : no_key_error (py_mul a b).
Proof.
  unfold py_mul. destruct (as_num a) as [[] |], (as_num b) as [[] |];
    try (apply arith_no_key_error; intros; apply ok_no_key_error);
    intros k H; unfold unsupported_operand in H; split_raise H.
Qed.

Lemma int_truediv_no_key_error x y : no_key_error (int_truediv x y).
Proof. intros k H. unfold int_truediv in H. split_raise H. Qed.

Lemma float_truediv_no_key_error x y : no_key_error (float_truediv x y).
Proof. intros k H. unfold float_truediv in H. split_raise H. Qed.

Lemma py_truediv_no_key_error a b : no_key_error (py_truediv a b).
Proof.
  unfold py_truediv. destruct (as_num a), (as_num b);
    try (apply arith_no_key_error;
         [apply int_truediv_no_key_error | apply float_truediv_no_key_error]);
    intros k H; unfold unsupported_operand in H; split_raise H.
Qed.

Lemma py_mod_no_key_error a b : no_key_error (py_mod rt a b).
Proof.
  destruct Hrt as (_ & _ & Hmod & _).
  unfold py_mod. destruct a; try apply Hmod;
    (destruct (as_num _), (as_num b);
     try (apply arith_no_key_error;
          [intros x y k H; unfold int_mod in H; split_raise H
          | intros x y k H; unfold float_mod in H; split_raise H]);
     intros k H; unfold unsupported_operand in H; split_raise H).
Qed.

Lemma py_pow_no_key_error a b : no_key_error (py_pow rt a b).
Proof.
  destruct Hrt as (Hpow & _).
  assert (forall x y, no_key_error (let* fm := to_float x in let* fn := to_float y in
                                    float_pow rt fm fn)) as Hfloat.
  { intros x y. apply bind_no_key_error; [apply to_float_no_key_error | intros fm].
    apply bind_no_key_error; [apply to_float_no_key_error | intros fn]. apply Hpow. }
  unfold py_pow. destruct (as_num a) as [x |], (as_num b) as [y |];
    try (intros k H; unfold unsupported_operand in H; split_raise H; fail).
  destruct x, y; try apply Hfloat.
  destruct (0 <=? z0); [apply ok_no_key_error | apply Hfloat].
Qed.

Lemma py_order_no_key_error sym test a b : no_key_error (py_order sym test a b).
Proof.
  intros k H. unfold py_order, not_supported_between in H. split_raise H.
Qed.

Lemma operators_no_key_error c f args :
  SAFE_OPERATORS rt c = Some f -> no_key_error (call f args).
Proof.
  intros Hc.
  destruct c as [[] | [] | [] | []]; simpl in Hc; inversion Hc; subst f; clear Hc;
    unfold call;
    try (destruct args as [| a [| b [| ? ?]]]; try (intros k H; discriminate H));
    try apply ok_no_key_error.
  all: first
         [ apply py_add_no_key_error | apply py_sub_no_key_error
         | apply py_mul_no_key_error | apply py_truediv_no_key_error
         | apply py_mod_no_key_error | apply py_pow_no_key_error
         | apply py_order_no_key_error
         | intros k H; unfold py_pos, py_neg, bad_unary_operand in H; split_raise H ].
Qed.

Lemma select_loop_no_key_error better items :
  (forall a b, no_key_error (better a b)) ->
  forall choice, no_key_error (select_loop better choice items).
Proof.
  intros Hb. induction items as [| item rest IH]; intros choice.
  - apply ok_no_key_error.
  - cbn [select_loop]. apply bind_no_key_error; [apply Hb |].
    intros b. destruct (truthy b); apply IH.
Qed.

Lemma py_iter_no_key_error v : no_key_error (py_iter v).
Proof. intros k H. unfold py_iter, not_iterable in H. split_raise H. Qed.

Lemma select_no_key_error name better args :
  (forall a b, no_key_error (better a b)) -> no_key_error (select name better args).
Proof.
  intros Hb. unfold select. destruct args as [| v [| w rest]].
  - intros k H. discriminate H.
  - apply bind_no_key_error; [apply py_iter_no_key_error |].
    intros [| first rest]; [intros k H; discriminate H |].
    apply select_loop_no_key_error. exact Hb.
  - apply select_loop_no_key_error. exact Hb.
Qed.

Lemma sum_loop_no_key_error items : forall acc, no_key_error (sum_loop acc items).
Proof.
  induction items as [| item rest IH]; intros acc.
  - apply ok_no_key_error.
  - cbn [sum_loop]. apply bind_no_key_error; [apply py_add_no_key_error | apply IH].
Qed.

Lemma as_double_no_key_error v : no_key_error (as_double v).
Proof.
  unfold as_double. destruct (as_num v); [apply to_float_no_key_error |].
  intros k H. discriminate H.
Qed.

Lemma float_to_int_no_key_error conv f : no_key_error (float_to_int conv f).
Proof. intros k H. unfold float_to_int in H. split_raise H. Qed.

Lemma log_helper_no_key_error c_fn v : no_key_error (log_helper c_fn v).
Proof. intros k H. unfold log_helper, must_be_real in H. split_raise H. Qed.

Lemma fn_COALESCE_no_key_error args : no_key_error (fn_COALESCE args).
Proof.
  induction args as [| a rest IH]; [apply ok_no_key_error |].
  cbn [fn_COALESCE]. destruct (is_none a); [exact IH | apply ok_no_key_error].
Qed.

(** No function of [SAFE_FUNCTIONS] raises a [KeyError]. *)
Lemma default_functions_no_key_error : functions_no_key_error (SAFE_FUNCTIONS rt).
Proof.
  destruct Hrt as (_ & Hpow3 & _ & Hround).
  intros name f vs Hf. unfold SAFE_FUNCTIONS in Hf.
  apply elem_of_list_to_map_2 in Hf.
  repeat (apply elem_of_cons in Hf as [Hf | Hf]; [inversion Hf; subst name f; clear Hf |]);
    [.. | inversion Hf].
  - unfold fn_SQRT. destruct vs as [| v [| ? ?]]; try (intros k H; discriminate H).
    apply bind_no_key_error; [apply as_double_no_key_error |].
    intros x k H. split_raise H.
  - intros k H. unfold fn_ABS, arity_error in H. split_raise H.
  - apply select_no_key_error. intros a b. apply py_order_no_key_error.
  - apply select_no_key_error. intros a b. apply py_order_no_key_error.
  - unfold fn_AVG. destruct vs as [| v rest]; [apply ok_no_key_error |].
    apply bind_no_key_error; [apply sum_loop_no_key_error |].
    intros s. apply py_truediv_no_key_error.
  - unfold fn_SUM. destruct vs as [| v [| start [| ? ?]]]; try (intros k H; discriminate H).
    + apply bind_no_key_error; [apply py_iter_no_key_error |].
      intros items. apply sum_loop_no_key_error.
    + apply bind_no_key_error; [apply py_iter_no_key_error |].
      intros items. destruct start; try apply sum_loop_no_key_error.
      intros k H. discriminate H.
  - unfold fn_POW. destruct vs as [| a [| b [| m [| ? ?]]]]; try (intros k H; discriminate H).
    + apply py_pow_no_key_error.
    + apply Hpow3.
  - unfold fn_LOG. destruct vs as [| v [| base [| ? ?]]]; try (intros k H; discriminate H).
    + apply bind_no_key_error; [apply log_helper_no_key_error |].
      intros r. apply ok_no_key_error.
    + apply bind_no_key_error; [apply log_helper_no_key_error | intros n].
      apply bind_no_key_error; [apply log_helper_no_key_error | intros d].
      apply float_truediv_no_key_error.
  - unfold fn_LOG10. destruct vs as [| v [| ? ?]]; try (intros k H; discriminate H).
    apply bind_no_key_error; [apply log_helper_no_key_error |].
    intros r. apply ok_no_key_error.
  - unfold fn_EXP. destruct vs as [| v [| ? ?]]; try (intros k H; discriminate H).
    apply bind_no_key_error; [apply as_double_no_key_error |].
    intros x k H. split_raise H.
  - unfold fn_ROUND. destruct vs as [| v [| n [| ? ?]]]; try (intros k H; discriminate H).
    + destruct (as_num v) as [[] |]; try apply ok_no_key_error;
        [apply float_to_int_no_key_error | intros k H; discriminate H].
    + apply Hround.
  - unfold fn_FLOOR. destruct vs as [| v [| ? ?]]; try (intros k H; discriminate H).
    destruct (as_num v) as [[] |]; try apply ok_no_key_error;
      [apply float_to_int_no_key_error | intros k H; discriminate H].
  - unfold fn_CEIL. destruct vs as [| v [| ? ?]]; try (intros k H; discriminate H).
    destruct (as_num v) as [[] |]; try apply ok_no_key_error;
      [apply float_to_int_no_key_error | intros k H; discriminate H].
  - intros k H. unfold fn_IF, arity_error in H. split_raise H.
  - apply fn_COALESCE_no_key_error.
  - intros k H. unfold fn_ISNULL, arity_error in H. split_raise H.
  - intros k H. unfold fn_NULLIF, arity_error in H. split_raise H.
Qed.

End NoKeyError.

(** ** The errors validation reports, node by node *)

Section ValidationErrors.

Variable rt : Runtime.
Variable self : FormulaEngine.

Local Abbreviation vl := (fun e st => _validate_node rt self e st).
Local Abbreviation errors_of := (fun e => v_errors (_validate_node rt self e vstart)).

Lemma validate_errors_from e st : v_errors (vl e st) = v_errors st ++ errors_of e.
Proof. cbv beta. rewrite (validate_frame rt self e st). reflexivity. Qed.

Lemma check_operator_valid what c :
  v_errors (check_operator rt what c vstart) = [] <-> is_Some (SAFE_OPERATORS rt c).
Proof.
  unfold check_operator. destruct (SAFE_OPERATORS rt c) as [f |]; simpl.
  - split; [eauto | reflexivity].
  - split; [discriminate | intros [f Hf]; discriminate Hf].
Qed.

Lemma errors_binop lhs op rhs :
  errors_of (ast.BinOp lhs op rhs)
  = v_errors (check_operator rt "Unsupported operator: " (ast.OfOperator op) vstart)
    ++ errors_of lhs ++ errors_of rhs.
Proof.
  cbv beta. cbn [_validate_node].
  rewrite validate_errors_from, validate_errors_from, app_assoc. reflexivity.
Qed.

Lemma errors_unaryop op operand :
  errors_of (ast.UnaryOp op operand)
  = v_errors (check_operator rt "Unsupported unary operator: " (ast.OfUnaryop op) vstart)
    ++ errors_of operand.
Proof. cbv beta. cbn [_validate_node]. rewrite validate_errors_from. reflexivity. Qed.

Lemma errors_links_cons op ops c rest :
  v_errors (validate_links rt self (op :: ops) (c :: rest) vstart)
  = v_errors (check_operator rt "Unsupported comparison: " (ast.OfCmpop op) vstart)
    ++ errors_of c ++ v_errors (validate_links rt self ops rest vstart).
Proof.
  cbn [validate_links].
  rewrite (validate_links_frame rt self rest (all_frame rt self rest) ops
             (_validate_node rt self c _)).
  cbn [vappend v_errors]. rewrite validate_errors_from, app_assoc. reflexivity.
Qed.

Lemma errors_compare lhs ops cs :
  errors_of (ast.Compare lhs ops cs)
  = errors_of lhs ++ v_errors (validate_links rt self ops cs vstart).
Proof.
  cbv beta. rewrite validate_compare_eq.
  rewrite (validate_links_frame rt self cs (all_frame rt self cs) ops
             (_validate_node rt self lhs vstart)).
  reflexivity.
Qed.

Lemma errors_each_cons e rest :
  v_errors (validate_each rt self (e :: rest) vstart)
  = errors_of e ++ v_errors (validate_each rt self rest vstart).
Proof.
  change (validate_each rt self (e :: rest) vstart)
    with (validate_each rt self rest (_validate_node rt self e vstart)).
  rewrite (validate_each_frame rt self rest (all_frame rt self rest)
             (_validate_node rt self e vstart)).
  reflexivity.
Qed.

Lemma errors_call id args :
  errors_of (ast.Call (ast.Name id) args)
  = match functions self !! upper id with
    | Some _ => []
    | None => ["Unknown function: " +:+ upper id]
    end ++ v_errors (validate_each rt self args vstart).
Proof.
  cbv beta. rewrite validate_call_eq.
  rewrite (validate_each_frame rt self args (all_frame rt self args) (add_func _ _)).
  destruct (functions self !! upper id); reflexivity.
Qed.

Lemma errors_ifexp test body orelse :
  errors_of (ast.IfExp test body orelse)
  = errors_of test ++ errors_of body ++ errors_of orelse.
Proof.
  cbv beta. cbn [_validate_node].
  rewrite validate_errors_from, validate_errors_from, app_assoc. reflexivity.
Qed.

End ValidationErrors.

(** ** A [KeyError] of a valid formula is a missing field *)

Section KeyErrors.

Variable rt : Runtime.
Variable self : FormulaEngine.
Variable context : gmap string pyval.

Hypothesis Hops : forall c f args, SAFE_OPERATORS rt c = Some f -> no_key_error (call f args).
Hypothesis Hfun : functions_no_key_error (functions self).

Local Abbreviation ev := (fun e fu => _eval_node rt self e context fu).
Local Abbreviation fields_of := (fun e => v_fields (_validate_node rt self e vstart)).
Local Abbreviation errors_of := (fun e => v_errors (_validate_node rt self e vstart)).

(** the key of the exception is a name of [reported] that the context
    does not hold *)
Local Abbreviation missing reported :=
  (fun k : string =>
     exists name, k = repr_str name /\ name ∈ reported /\ context !! name = None).

Local Abbreviation truthful e :=
  (errors_of e = [] -> forall fu k, ev e fu = Raise (KeyError k) -> missing (fields_of e) k).

Lemma missing_weaken (l1 l2 : list string) k :
  missing l2 k -> missing (l1 ++ l2) k /\ missing (l2 ++ l1) k.
Proof.
  intros (name & Hk & Hin & Hnone).
  split; exists name; (split; [exact Hk | split; [apply elem_of_app; auto | exact Hnone]]).
Qed.

Lemma raise_eq {A : Type} (x y : exn) : @Raise A x = Raise y -> x = y.
Proof. intros H. inversion H. reflexivity. Qed.

Lemma lookup_valid c what :
  v_errors (check_operator rt what c vstart) = [] ->
  exists f, operator_lookup rt c = Ok f /\ forall args, no_key_error (call f args).
Proof.
  intros H. apply check_operator_valid in H as [f Hf].
  exists f. unfold operator_lookup. rewrite Hf. split; [reflexivity |].
  intros args. apply (Hops c f args Hf).
Qed.

Lemma eval_args_key_error args :
  Forall (fun e => truthful e) args ->
  v_errors (validate_each rt self args vstart) = [] ->
  forall fu k, eval_args ev args fu = Raise (KeyError k) ->
               missing (v_fields (validate_each rt self args vstart)) k.
Proof.
  induction 1 as [| e rest He _ IH]; intros Hvalid fu k Hev; [discriminate Hev |].
  rewrite errors_each_cons in Hvalid. apply app_eq_nil in Hvalid as [Hve Hvrest].
  rewrite fields_each_cons. cbn [eval_args] in Hev. cbv beta in *.
  destruct (_eval_node rt self e context fu) as [[v fu1] | x] eqn:Ee; cbn [bind] in Hev.
  - destruct (eval_args _ rest fu1) as [[vs fu2] | x] eqn:Er; cbn [bind] in Hev;
      [discriminate Hev |].
    apply raise_eq in Hev. subst x.
    apply (missing_weaken _ _ _ (IH Hvrest _ _ Er)).
  - apply raise_eq in Hev. subst x.
    apply (missing_weaken _ _ _ (He Hve _ _ Ee)).
Qed.

Lemma and_loop_key_error vs :
  Forall (fun e => truthful e) vs ->
  v_errors (validate_each rt self vs vstart) = [] ->
  forall fu k, and_loop ev vs fu = Raise (KeyError k) ->
               missing (v_fields (validate_each rt self vs vstart)) k.
Proof.
  induction 1 as [| e rest He _ IH]; intros Hvalid fu k Hev; [discriminate Hev |].
  rewrite errors_each_cons in Hvalid. apply app_eq_nil in Hvalid as [Hve Hvrest].
  rewrite fields_each_cons. cbn [and_loop] in Hev. cbv beta in *.
  destruct (_eval_node rt self e context fu) as [[v fu1] | x] eqn:Ee; cbn [bind] in Hev.
  - destruct (negb (truthy v)); [discriminate Hev |].
    apply (missing_weaken _ _ _ (IH Hvrest _ _ Hev)).
  - apply raise_eq in Hev. subst x.
    apply (missing_weaken _ _ _ (He Hve _ _ Ee)).
Qed.

Lemma or_loop_key_error vs :
  Forall (fun e => truthful e) vs ->
  v_errors (validate_each rt self vs vstart) = [] ->
  forall fu k, or_loop ev vs fu = Raise (KeyError k) ->
               missing (v_fields (validate_each rt self vs vstart)) k.
Proof.
  induction 1 as [| e rest He _ IH]; intros Hvalid fu k Hev; [discriminate Hev |].
  rewrite errors_each_cons in Hvalid. apply app_eq_nil in Hvalid as [Hve Hvrest].
  rewrite fields_each_cons. cbn [or_loop] in Hev. cbv beta in *.
  destruct (_eval_node rt self e context fu) as [[v fu1] | x] eqn:Ee; cbn [bind] in Hev.
  - destruct (truthy v); [discriminate Hev |].
    apply (missing_weaken _ _ _ (IH Hvrest _ _ Hev)).
  - apply raise_eq in Hev. subst x.
    apply (missing_weaken _ _ _ (He Hve _ _ Ee)).
Qed.

Lemma compare_loop_key_error cs :
  Forall (fun e => truthful e) cs ->
  forall ops lhs,
    v_errors (validate_links rt self ops cs vstart) = [] ->
    forall fu k, compare_loop rt ev ops cs lhs fu = Raise (KeyError k) ->
                 missing (v_fields (validate_links rt self ops cs vstart)) k.
Proof.
  induction 1 as [| e rest He _ IH]; intros ops lhs Hvalid fu k Hev;
    [destruct ops; discriminate Hev |].
  destruct ops as [| op ops]; [discriminate Hev |].
  rewrite errors_links_cons in Hvalid.
  apply app_eq_nil in Hvalid as [Hvop Hvalid]. apply app_eq_nil in Hvalid as [Hve Hvrest].
  destruct (lookup_valid _ _ Hvop) as (f & Hf & Hcall).
  rewrite fields_links_cons. cbn [compare_loop] in Hev. cbv beta in *.
  destruct (_eval_node rt self e context fu) as [[v fu1] | x] eqn:Ee; cbn [bind] in Hev.
  - destruct (is_none v); [discriminate Hev |].
    rewrite Hf in Hev. cbn [bind] in Hev.
    destruct (call f [lhs; v]) as [holds | x] eqn:Ec; cbn [bind] in Hev.
    + destruct (negb (truthy holds)); [discriminate Hev |].
      apply (missing_weaken _ _ _ (IH _ _ Hvrest _ _ Hev)).
    + apply raise_eq in Hev. subst x. destruct (Hcall _ _ Ec).
  - apply raise_eq in Hev. subst x.
    apply (missing_weaken _ _ _ (He Hve _ _ Ee)).
Qed.

(** When validation reports no error for a node, a [KeyError] of its
    evaluation is the one of a field reference: its key is the [repr] of a
    name that validation lists and that the context does not hold. *)
Lemma eval_key_error e : truthful e.
Proof.
  induction e as [c | id | lhs op rhs IHl IHr | op operand IH | lhs ops cs IHl IHcs
                 | op vs IHvs | func args _ IHargs | test body orelse IHt IHb IHo | kind]
    using ast.expr_ind'; intros Hvalid fu k Hev.
  - discriminate Hev.
  - simpl in Hev. destruct (context !! lower id) eqn:Hx; [discriminate Hev |].
    apply raise_eq in Hev. inversion Hev. exists (lower id).
    split; [reflexivity | split; [| exact Hx]].
    cbn [_validate_node add_field v_fields vstart app]. apply list_elem_of_In. left.
    reflexivity.
  - rewrite errors_binop in Hvalid.
    apply app_eq_nil in Hvalid as [Hvop Hvalid]. apply app_eq_nil in Hvalid as [Hvl Hvr].
    destruct (lookup_valid _ _ Hvop) as (f & Hf & Hcall).
    rewrite fields_binop. cbn [_eval_node] in Hev.
    destruct (_eval_node rt self lhs context fu) as [[l fu1] | x] eqn:El; cbn [bind] in Hev.
    + destruct (_eval_node rt self rhs context fu1) as [[r fu2] | x] eqn:Er;
        cbn [bind] in Hev.
      * destruct (is_none l || is_none r); [discriminate Hev |].
        rewrite Hf in Hev. cbn [bind] in Hev.
        destruct (call f [l; r]) as [v | x] eqn:Ec; cbn [bind] in Hev; [discriminate Hev |].
        apply raise_eq in Hev. subst x. destruct (Hcall _ _ Ec).
      * apply raise_eq in Hev. subst x. apply (missing_weaken _ _ _ (IHr Hvr _ _ Er)).
    + apply raise_eq in Hev. subst x. apply (missing_weaken _ _ _ (IHl Hvl _ _ El)).
  - rewrite errors_unaryop in Hvalid. apply app_eq_nil in Hvalid as [Hvop Hvalid].
    destruct (lookup_valid _ _ Hvop) as (f & Hf & Hcall).
    rewrite fields_unaryop. cbn [_eval_node] in Hev.
    destruct (_eval_node rt self operand context fu) as [[x fu1] | x] eqn:Ex;
      cbn [bind] in Hev.
    + destruct (is_none x); [discriminate Hev |].
      rewrite Hf in Hev. cbn [bind] in Hev.
      destruct (call f [x]) as [v | y] eqn:Ec; cbn [bind] in Hev; [discriminate Hev |].
      apply raise_eq in Hev. subst y. destruct (Hcall _ _ Ec).
    + apply raise_eq in Hev. subst x. apply (IH Hvalid _ _ Ex).
  - rewrite errors_compare in Hvalid. apply app_eq_nil in Hvalid as [Hvl Hvcs].
    rewrite fields_compare. cbn [_eval_node] in Hev.
    destruct (_eval_node rt self lhs context fu) as [[l fu1] | x] eqn:El; cbn [bind] in Hev.
    + destruct (is_none l); [discriminate Hev |].
      apply (missing_weaken _ _ _ (compare_loop_key_error cs IHcs _ _ Hvcs _ _ Hev)).
    + apply raise_eq in Hev. subst x. apply (missing_weaken _ _ _ (IHl Hvl _ _ El)).
  - destruct op; cbn [_eval_node] in Hev.
    + apply (and_loop_key_error vs IHvs Hvalid _ _ Hev).
    + apply (or_loop_key_error vs IHvs Hvalid _ _ Hev).
  - destruct func; try discriminate Hvalid.
    rewrite errors_call in Hvalid. rewrite fields_call. rewrite eval_call_eq in Hev.
    destruct (functions self !! upper id) as [f |] eqn:Hf; [| discriminate Hvalid].
    cbn [app] in Hvalid.
    destruct (eval_args _ args fu) as [[xs fu1] | x] eqn:Ea; cbn [bind] in Hev.
    + assert (no_key_error (f xs)) as Hno by apply (Hfun _ _ _ Hf).
      destruct (null_aware (upper id)).
      * destruct (f xs) as [v | x] eqn:Ec; cbn [bind] in Hev; [discriminate Hev |].
        apply raise_eq in Hev. subst x. destruct (Hno _ eq_refl).
      * destruct (existsb is_none xs); [discriminate Hev |].
        destruct (f xs) as [v | x] eqn:Ec; cbn [bind] in Hev; [discriminate Hev |].
        apply raise_eq in Hev. subst x. destruct (Hno _ eq_refl).
    + apply raise_eq in Hev. subst x.
      apply (eval_args_key_error args IHargs Hvalid _ _ Ea).
  - rewrite errors_ifexp in Hvalid.
    apply app_eq_nil in Hvalid as [Hvt Hvalid]. apply app_eq_nil in Hvalid as [Hvb Hvo].
    rewrite fields_ifexp. cbn [_eval_node] in Hev.
    destruct (_eval_node rt self test context fu) as [[t fu1] | x] eqn:Et; cbn [bind] in Hev.
    + destruct (truthy t).
      * apply (missing_weaken (fields_of test)).
        apply (missing_weaken (fields_of orelse) (fields_of body) _ (IHb Hvb _ _ Hev)).
      * apply (missing_weaken (fields_of test)).
        apply (missing_weaken (fields_of body) (fields_of orelse) _ (IHo Hvo _ _ Hev)).
    + apply raise_eq in Hev. subst x. apply (missing_weaken _ _ _ (IHt Hvt _ _ Et)).
  - discriminate Hvalid.
Qed.

End KeyErrors.

Lemma on_exception_missing x k :
  FormulaResult.error (on_exception x) = Some ("Missing field: " +:+ k) -> x = KeyError k.
Proof.
  destruct x; simpl; intros H; inversion H as [H1]. cbv [String.append] in H1. subst. reflexivity.
Qed.

Lemma init_functions_no_key_error rt additional :
  runtime_no_key_error rt ->
  (forall extra, additional = Some extra -> functions_no_key_error extra) ->
  functions_no_key_error (functions (FormulaEngine_init rt additional)).
Proof.
  intros Hrt Hextra name f vs Hf. cbn [FormulaEngine_init functions] in Hf.
  destruct additional as [extra |].
  - apply lookup_union_Some_raw in Hf as [Hf | [_ Hf]].
    + apply (Hextra extra eq_refl name f vs Hf).
    + apply (default_functions_no_key_error rt Hrt name f vs Hf).
  - apply (default_functions_no_key_error rt Hrt name f vs Hf).
Qed.

(** X2.  For a formula that [validate] accepts, a result of [evaluate] with
    the error [Missing field: k] is about a field of the formula: [k] is the
    quoted name of a field that [validate] lists in [fields_used] and that
    the context built from the arguments does not hold.  The engine is
    [FormulaEngine(additional_functions)], and neither the runtime's
    built-ins nor the added functions raise a [KeyError] of their own. *)
Theorem missing_field_of_a_valid_formula_is_a_reported_field :
  forall (rt : Runtime) (parse : string -> result ast.expr)
         (additional : option (gmap string pyfunc)) (expression : string)
         (data : list (string * pyval)) (computed_fields : option (list (string * pyval)))
         (v : ValidationResult.t) (k : string),
    runtime_no_key_error rt ->
    (forall extra, additional = Some extra -> functions_no_key_error extra) ->
    let self := FormulaEngine_init rt additional in
    validate rt parse self expression = Ok v ->
    ValidationResult.is_valid v = true ->
    FormulaResult.error (evaluate rt parse self expression data computed_fields)
    = Some ("Missing field: " +:+ k) ->
    exists name,
      k = repr_str name
      /\ name ∈ ValidationResult.fields_used v
      /\ build_context data computed_fields !! name = None.
Proof.
  intros rt parse additional expression data computed_fields v k Hrt Hextra self
         Hval Hvalid Herr.
  unfold validate in Hval. unfold evaluate in Herr.
  destruct (parse expression) as [tree | x]; cbn [bind] in *.
  - inversion Hval; subst v; clear Hval.
    cbn [ValidationResult.is_valid ValidationResult.fields_used] in *.
    apply Nat.eqb_eq, length_zero_iff_nil in Hvalid.
    destruct (_eval_node rt self tree (build_context data computed_fields) [])
      as [[val used] | x] eqn:Hev; [discriminate Herr |].
    apply on_exception_missing in Herr. subst x.
    destruct (eval_key_error rt self (build_context data computed_fields)
                (operators_no_key_error rt Hrt)
                (init_functions_no_key_error rt additional Hrt Hextra)
                tree Hvalid [] k Hev) as (name & Hk & Hin & Hnone).
    exists name. split; [exact Hk | split; [| exact Hnone]].
    unfold list_of_set. apply elem_of_remove_dups. exact Hin.
  - destruct x; cbn [bind] in Hval; try discriminate Hval.
    inversion Hval; subst v. discriminate Hvalid.
Qed.

Lemma missing_field_of_a_valid_formula_is_a_reported_field_witness :
  exists name,
    "'price'" = repr_str name
    /\ name ∈ ["eps"; "price"]
    /\ build_context [("eps", float_lit 5 0); ("price", VNone)] None !! name = None.
Proof.
  apply (missing_field_of_a_valid_formula_is_a_reported_field
           example_runtime ast_parse None "eps * price"
           [("eps", float_lit 5 0); ("price", VNone)] None
           (ValidationResult.mk true [] ["eps"; "price"] []) "'price'").
  - repeat split; intros; intros k H; discriminate H.
  - intros extra H. discriminate H.
  - vm_compute. reflexivity.
  - reflexivity.
  - vm_compute. reflexivity.
Defined.

(** ** Logical operators *)

Section LogicalOperators.

Variable rt : Runtime.
Variable self : FormulaEngine.
Variable context : gmap string pyval.

Local Abbreviation ev := (fun e fu => _eval_node rt self e context fu).

(** the operand evaluates, to a value with the truth value [b] *)
Local Abbreviation evaluates_to b :=
  (fun e => exists v used, _eval_node rt self e context [] = Ok (v, used) /\ truthy v = b).

Lemma eval_started e v used fu :
  ev e [] = Ok (v, used) -> ev e fu = Ok (v, fu ++ used).
Proof. cbv beta. intros H. rewrite (eval_frame rt self context e fu), H. reflexivity. Qed.

Lemma and_loop_bool vs : forall fu v fu',
  and_loop ev vs fu = Ok (v, fu') -> v = VBool true \/ v = VBool false.
Proof.
  induction vs as [| e rest IH]; intros fu v fu' H.
  - inversion H. auto.
  - cbn [and_loop] in H. cbv beta in H.
    destruct (_eval_node rt self e context fu) as [[r fu1] |]; cbn [bind] in H;
      [| discriminate H].
    destruct (negb (truthy r)); [inversion H; auto | exact (IH _ _ _ H)].
Qed.

Lemma or_loop_bool vs : forall fu v fu',
  or_loop ev vs fu = Ok (v, fu') -> v = VBool true \/ v = VBool false.
Proof.
  induction vs as [| e rest IH]; intros fu v fu' H.
  - inversion H. auto.
  - cbn [or_loop] in H. cbv beta in H.
    destruct (_eval_node rt self e context fu) as [[r fu1] |]; cbn [bind] in H;
      [| discriminate H].
    destruct (truthy r); [inversion H; auto | exact (IH _ _ _ H)].
Qed.

Lemma and_loop_stops before e rest :
  Forall (evaluates_to true) before -> evaluates_to false e ->
  forall fu, exists fu', and_loop ev (before ++ e :: rest) fu = Ok (VBool false, fu').
Proof.
  intros Hb (v & used & He & Hv).
  induction Hb as [| b before' (vb & ub & Hevb & Hvb) _ IH]; intros fu.
  - cbn [app and_loop]. rewrite (eval_started e v used fu He). cbn [bind].
    rewrite Hv. eexists. reflexivity.
  - cbn [app and_loop]. rewrite (eval_started b vb ub fu Hevb). cbn [bind].
    rewrite Hvb. apply IH.
Qed.

Lemma or_loop_stops before e rest :
  Forall (evaluates_to false) before -> evaluates_to true e ->
  forall fu, exists fu', or_loop ev (before ++ e :: rest) fu = Ok (VBool true, fu').
Proof.
  intros Hb (v & used & He & Hv).
  induction Hb as [| b before' (vb & ub & Hevb & Hvb) _ IH]; intros fu.
  - cbn [app or_loop]. rewrite (eval_started e v used fu He). cbn [bind].
    rewrite Hv. eexists. reflexivity.
  - cbn [app or_loop]. rewrite (eval_started b vb ub fu Hevb). cbn [bind].
    rewrite Hvb. apply IH.
Qed.

Lemma and_loop_all values :
  Forall (evaluates_to true) values ->
  forall fu, exists fu', and_loop ev values fu = Ok (VBool true, fu').
Proof.
  induction 1 as [| b rest (vb & ub & Hevb & Hvb) _ IH]; intros fu.
  - eexists. reflexivity.
  - cbn [and_loop]. rewrite (eval_started b vb ub fu Hevb). cbn [bind].
    rewrite Hvb. apply IH.
Qed.

Lemma or_loop_none values :
  Forall (evaluates_to false) values ->
  forall fu, exists fu', or_loop ev values fu = Ok (VBool false, fu').
Proof.
  induction 1 as [| b rest (vb & ub & Hevb & Hvb) _ IH]; intros fu.
  - eexists. reflexivity.
  - cbn [or_loop]. rewrite (eval_started b vb ub fu Hevb). cbn [bind].
    rewrite Hvb. apply IH.
Qed.

End LogicalOperators.

(** X3.  [and] and [or] return [True] or [False], never [None] and never
    the value of an operand.  [and] is [False] at the first operand whose
    value is falsy, [None] included, and [or] is [True] at the first operand
    whose value is truthy; the operands after it are not evaluated, so they
    may be anything.  When no operand stops the loop, [and] is [True] and
    [or] is [False]. *)
Theorem logical_operators_give_booleans_and_stop_early :
  forall (rt : Runtime) (self : FormulaEngine) (context : gmap string pyval),
    let evaluates_to (b : bool) (e : ast.expr) :=
      exists v used, _eval_node rt self e context [] = Ok (v, used) /\ truthy v = b in
    (forall op values fu v fu',
        _eval_node rt self (ast.BoolOp op values) context fu = Ok (v, fu') ->
        v = VBool true \/ v = VBool false)
    /\ (forall before e rest fu,
        Forall (evaluates_to true) before -> evaluates_to false e ->
        exists fu', _eval_node rt self (ast.BoolOp ast.And (before ++ e :: rest)) context fu
                    = Ok (VBool false, fu'))
    /\ (forall before e rest fu,
        Forall (evaluates_to false) before -> evaluates_to true e ->
        exists fu', _eval_node rt self (ast.BoolOp ast.Or (before ++ e :: rest)) context fu
                    = Ok (VBool true, fu'))
    /\ (forall values fu,
        Forall (evaluates_to true) values ->
        exists fu', _eval_node rt self (ast.BoolOp ast.And values) context fu
                    = Ok (VBool true, fu'))
    /\ (forall values fu,
        Forall (evaluates_to false) values ->
        exists fu', _eval_node rt self (ast.BoolOp ast.Or values) context fu
                    = Ok (VBool false, fu')).
Proof.
  intros rt self context evaluates_to. split; [| split; [| split; [| split]]].
  - intros [] values fu v fu' H; cbn [_eval_node] in H.
    + exact (and_loop_bool rt self context values fu v fu' H).
    + exact (or_loop_bool rt self context values fu v fu' H).
  - intros before e rest fu Hb He. cbn [_eval_node].
    exact (and_loop_stops rt self context before e rest Hb He fu).
  - intros before e rest fu Hb He. cbn [_eval_node].
    exact (or_loop_stops rt self context before e rest Hb He fu).
  - intros values fu Hall. cbn [_eval_node].
    exact (and_loop_all rt self context values Hall fu).
  - intros values fu Hall. cbn [_eval_node].
    exact (or_loop_none rt self context values Hall fu).
Qed.

Lemma logical_operators_give_booleans_and_stop_early_witness :
  (* [1 and None and 1 / 0] *)
  (exists fu',
      _eval_node example_runtime example_engine
        (ast.BoolOp ast.And
           ([ast.Constant (VInt 1)] ++ ast.Constant VNone
              :: [ast.BinOp (ast.Constant (VInt 1)) ast.Div (ast.Constant (VInt 0))]))
        ∅ [] = Ok (VBool false, fu'))
  (* [0 or 5 or missing] *)
  /\ (exists fu',
      _eval_node example_runtime example_engine
        (ast.BoolOp ast.Or
           ([ast.Constant (VInt 0)] ++ ast.Constant (VInt 5) :: [ast.Name "missing"]))
        ∅ [] = Ok (VBool true, fu')).
Proof.
  pose proof (logical_operators_give_booleans_and_stop_early example_runtime example_engine ∅)
    as (_ & Hand & Hor & _ & _).
  split.
  - apply Hand.
    + constructor; [| constructor]. exists (VInt 1), []. split; reflexivity.
    + exists VNone, []. split; reflexivity.
  - apply Hor.
    + constructor; [| constructor]. exists (VInt 0), []. split; reflexivity.
    + exists (VInt 5), []. split; reflexivity.
Defined.

(** ** Calls: every argument is evaluated first *)

Section Calls.

Variable rt : Runtime.
Variable self : FormulaEngine.
Variable context : gmap string pyval.

Local Abbreviation ev := (fun e fu => _eval_node rt self e context fu).

Lemma eval_started_raise e x fu : ev e [] = Raise x -> ev e fu = Raise x.
Proof. cbv beta. intros H. rewrite (eval_frame rt self context e fu), H. reflexivity. Qed.

Lemma eval_args_started args vs :
  Forall2 (fun e v => exists used, ev e [] = Ok (v, used)) args vs ->
  forall fu, exists fu', eval_args ev args fu = Ok (vs, fu').
Proof.
  induction 1 as [| e v args' vs' (used & He) _ IH]; intros fu.
  - eexists. reflexivity.
  - cbn [eval_args]. rewrite (eval_started rt self context e v used fu He). cbn [bind].
    destruct (IH (fu ++ used)) as (fu' & Hrest). rewrite Hrest. cbn [bind].
    eexists. reflexivity.
Qed.

Lemma eval_args_raise before e rest x :
  Forall (fun b => exists v used, ev b [] = Ok (v, used)) before ->
  ev e [] = Raise x ->
  forall fu, eval_args ev (before ++ e :: rest) fu = Raise x.
Proof.
  intros Hb He. induction Hb as [| b before' (v & used & Hevb) _ IH]; intros fu.
  - cbn [app eval_args]. rewrite (eval_started_raise e x fu He). reflexivity.
  - cbn [app eval_args]. rewrite (eval_started rt self context b v used fu Hevb).
    cbn [bind]. rewrite IH. reflexivity.
Qed.

Lemma eval_call_raise id f before e rest x fu :
  functions self !! upper id = Some f ->
  Forall (fun b => exists v used, ev b [] = Ok (v, used)) before ->
  ev e [] = Raise x ->
  ev (ast.Call (ast.Name id) (before ++ e :: rest)) fu = Raise x.
Proof.
  intros Hf Hb He. cbv beta. rewrite eval_call_eq.
  replace (functions self !! upper id) with (Some f) by (symmetry; exact Hf).
  rewrite (eval_args_raise before e rest x Hb He fu). reflexivity.
Qed.

Lemma null_aware_false name :
  name <> "COALESCE" -> name <> "IF" -> name <> "ISNULL" -> null_aware name = false.
Proof.
  intros H1 H2 H3. destruct (null_aware name) eqn:E; [| reflexivity].
  apply null_aware_names in E. tauto.
Qed.

Lemma existsb_is_none vs : In VNone vs -> existsb is_none vs = true.
Proof. intros H. apply existsb_exists. exists VNone. split; [exact H | reflexivity]. Qed.

End Calls.

(** X4.  A call of a function other than [COALESCE], [IF] and [ISNULL]
    whose arguments all evaluate, one of them to [None], returns [None]:
    the registered function is not called, whatever it is and however many
    arguments it takes. *)
Theorem null_argument_makes_call_null :
  forall (rt : Runtime) (self : FormulaEngine) (context : gmap string pyval)
         (id : string) (args : list ast.expr) (vs : list pyval) (f : pyfunc)
         (fu : list string),
    functions self !! upper id = Some f ->
    upper id <> "COALESCE" -> upper id <> "IF" -> upper id <> "ISNULL" ->
    Forall2 (fun e v => exists used, _eval_node rt self e context [] = Ok (v, used)) args vs ->
    In VNone vs ->
    exists fu',
      _eval_node rt self (ast.Call (ast.Name id) args) context fu = Ok (VNone, fu').
Proof.
  intros rt self context id args vs f fu Hf H1 H2 H3 Hargs Hnone.
  destruct (eval_args_started rt self context args vs Hargs fu) as (fu' & Hev).
  exists fu'. rewrite eval_call_eq.
  replace (functions self !! upper id) with (Some f) by (symmetry; exact Hf).
  rewrite Hev. cbn [bind].
  rewrite (null_aware_false _ H1 H2 H3), (existsb_is_none vs Hnone). reflexivity.
Qed.

Lemma null_argument_makes_call_null_witness :
  (* [sqrt(4, None)]: no arity error *)
  exists fu',
    _eval_node example_runtime example_engine
      (ast.Call (ast.Name "sqrt") [ast.Constant (VInt 4); ast.Constant VNone]) ∅ []
    = Ok (VNone, fu').
Proof.
  apply (null_argument_makes_call_null example_runtime example_engine ∅ "sqrt"
           [ast.Constant (VInt 4); ast.Constant VNone] [VInt 4; VNone] fn_SQRT []).
  - reflexivity.
  - vm_compute. discriminate.
  - vm_compute. discriminate.
  - vm_compute. discriminate.
  - repeat constructor; exists []; reflexivity.
  - simpl. auto.
Defined.

(** X5.  The function [IF] is handed three evaluated arguments: a call
    [IF(c, a, b)] evaluates [c], [a] and [b], all three.  When the three
    evaluate, the call has the value of the conditional expression
    [a if c else b].  When the branch that the test does not choose raises,
    the call raises that exception, while the conditional expression, which
    evaluates the chosen branch only, returns its value. *)
Theorem IF_call_evaluates_both_branches :
  forall (rt : Runtime) (self : FormulaEngine) (context : gmap string pyval)
         (id : string) (c a b : ast.expr),
    upper id = "IF" -> functions self !! "IF" = Some fn_IF ->
    let ev e fu := _eval_node rt self e context fu in
    let called := ast.Call (ast.Name id) [c; a; b] in
    let conditional := ast.IfExp c a b in
    (forall vc uc va ua vb ub fu,
        ev c [] = Ok (vc, uc) -> ev a [] = Ok (va, ua) -> ev b [] = Ok (vb, ub) ->
        exists fu1 fu2,
          ev called fu = Ok (if truthy vc then va else vb, fu1)
          /\ ev conditional fu = Ok (if truthy vc then va else vb, fu2))
    /\ (forall vc uc va ua x fu,
        ev c [] = Ok (vc, uc) -> truthy vc = true ->
        ev a [] = Ok (va, ua) -> ev b [] = Raise x ->
        ev called fu = Raise x /\ exists fu2, ev conditional fu = Ok (va, fu2))
    /\ (forall vc uc vb ub x fu,
        ev c [] = Ok (vc, uc) -> truthy vc = false ->
        ev a [] = Raise x -> ev b [] = Ok (vb, ub) ->
        ev called fu = Raise x /\ exists fu2, ev conditional fu = Ok (vb, fu2)).
Proof.
  intros rt self context id c a b Hid Hf ev called conditional.
  assert (functions self !! upper id = Some fn_IF) as Hf' by (rewrite Hid; exact Hf).
  subst ev called conditional. cbv beta. split; [| split].
  - intros vc uc va ua vb ub fu Hc Ha Hb.
    assert (Forall2 (fun e v => exists used, _eval_node rt self e context [] = Ok (v, used))
                    [c; a; b] [vc; va; vb]) as Hargs.
    { repeat constructor; eexists; eassumption. }
    destruct (eval_args_started rt self context _ _ Hargs fu) as (fu1 & Hev).
    exists fu1. rewrite eval_call_eq.
    replace (functions self !! upper id) with (Some fn_IF) by (symmetry; exact Hf').
    rewrite Hev, Hid. cbn [bind null_aware String.eqb fn_IF]. simpl.
    cbn [_eval_node]. rewrite (eval_started rt self context c vc uc fu Hc). cbn [bind].
    destruct (truthy vc).
    + rewrite (eval_started rt self context a va ua _ Ha). eauto.
    + rewrite (eval_started rt self context b vb ub _ Hb). eauto.
  - intros vc uc va ua x fu Hc Ht Ha Hb. split.
    + apply (eval_call_raise rt self context id fn_IF [c; a] b [] x fu Hf');
        [| exact Hb].
      repeat constructor; eexists; eexists; eassumption.
    + cbn [_eval_node]. rewrite (eval_started rt self context c vc uc fu Hc). cbn [bind].
      rewrite Ht, (eval_started rt self context a va ua _ Ha). eauto.
  - intros vc uc vb ub x fu Hc Ht Ha Hb. split.
    + apply (eval_call_raise rt self context id fn_IF [c] a [b] x fu Hf');
        [| exact Ha].
      repeat constructor; eexists; eexists; eassumption.
    + cbn [_eval_node]. rewrite (eval_started rt self context c vc uc fu Hc). cbn [bind].
      rewrite Ht, (eval_started rt self context b vb ub _ Hb). eauto.
Qed.

Lemma IF_call_evaluates_both_branches_witness :
  let context : gmap string pyval := {["x" := VInt 0]} in
  let test := ast.Compare (ast.Name "x") [ast.NotEq] [ast.Constant (VInt 0)] in
  let quotient := ast.BinOp (ast.Constant (VInt 1)) ast.Div (ast.Name "x") in
  (* [IF(x != 0, 1 / x, 0)] against [1 / x if x != 0 else 0], with [x] zero *)
  _eval_node example_runtime example_engine
    (ast.Call (ast.Name "IF") [test; quotient; ast.Constant (VInt 0)]) context []
  = Raise (ZeroDivisionError "division by zero")
  /\ exists fu2,
      _eval_node example_runtime example_engine
        (ast.IfExp test quotient (ast.Constant (VInt 0))) context []
      = Ok (VInt 0, fu2).
Proof.
  intros context test quotient.
  pose proof (IF_call_evaluates_both_branches example_runtime example_engine context "IF"
                test quotient (ast.Constant (VInt 0)) eq_refl eq_refl) as (_ & _ & H).
  apply (H (VBool false) ["x"] (VInt 0) [] (ZeroDivisionError "division by zero") []).
  - vm_compute. reflexivity.
  - reflexivity.
  - vm_compute. reflexivity.
  - reflexivity.
Defined.

(** ** Null tests on fields *)

Lemma fold_lower_value (items : list (string * pyval)) (m : gmap string pyval) name v :
  fold_left (fun m kv => <[lower kv.1 := kv.2]> m) items m !! name = Some v ->
  m !! name = Some v \/ exists k, In (k, v) items /\ lower k = name.
Proof.
  revert m. induction items as [| [k0 v0] rest IH]; intros m H; [left; exact H |].
  cbn [fold_left] in H. destruct (IH _ H) as [Hm | (k & Hin & Hk)].
  - cbn [fst snd] in Hm. destruct (decide (lower k0 = name)) as [Heq | Hne].
    + rewrite Heq, lookup_insert_eq in Hm. inversion Hm; subst v0.
      right. exists k0. split; [left; reflexivity | exact Heq].
    + rewrite lookup_insert_ne in Hm by exact Hne. left. exact Hm.
  - right. exists k. split; [right; exact Hin | exact Hk].
Qed.

Lemma dict_lower_value items name v :
  dict_lower items !! name = Some v -> exists k, In (k, v) items /\ lower k = name.
Proof.
  intros H. unfold dict_lower in H. apply fold_lower_value in H as [H | H]; [| exact H].
  rewrite lookup_empty in H. discriminate H.
Qed.

(** a value of the context is a value of [data] that is not [None], or a
    value of the overlay *)
Lemma build_context_value data computed_fields name v :
  build_context data computed_fields !! name = Some v ->
  (exists k, In (k, v) data /\ lower k = name /\ v <> VNone)
  \/ (exists overlay k, computed_fields = Some overlay /\ In (k, v) overlay /\ lower k = name).
Proof.
  unfold build_context. intros H.
  assert (forall v, dict_lower (List.filter (fun kv => negb (is_none kv.2)) data) !! name
                    = Some v ->
                    exists k, In (k, v) data /\ lower k = name /\ v <> VNone) as Hdata.
  { intros v0 H0. apply dict_lower_value in H0 as (k & Hin & Hk).
    apply List.filter_In in Hin as [Hin Hnn]. exists k. split; [exact Hin |].
    split; [exact Hk |]. intros ->. discriminate Hnn. }
  destruct computed_fields as [[| kv overlay] |]; try (left; apply Hdata; exact H).
  apply lookup_union_Some_raw in H as [H | [_ H]]; [| left; apply Hdata; exact H].
  apply dict_lower_value in H as (k & Hin & Hk).
  right. exists (kv :: overlay), k. auto.
Qed.

Lemma build_context_no_null data computed_fields name :
  (forall overlay, computed_fields = Some overlay -> no_null_value overlay) ->
  build_context data computed_fields !! name <> Some VNone.
Proof.
  intros Hover H.
  apply build_context_value in H as [(k & _ & _ & Hnn) | (overlay & k & Hc & Hin & _)].
  - apply Hnn. reflexivity.
  - apply (Hover overlay Hc k VNone Hin). reflexivity.
Qed.

Lemma dict_set_value k v items k0 v0 :
  In (k0, v0) (dict_set k v items) -> v0 = v \/ In (k0, v0) items.
Proof.
  induction items as [| [k' v'] rest IH]; cbn [dict_set]; intros H.
  - destruct H as [H | []]. inversion H. left. reflexivity.
  - destruct (String.eqb k' k).
    + destruct H as [H | H]; [inversion H; left; reflexivity | right; right; exact H].
    + destruct H as [H | H]; [right; left; exact H |].
      destruct (IH H) as [Hv | Hin]; [left; exact Hv | right; right; exact Hin].
Qed.

(** the synthetic fields of a batch hold no [None] *)
Lemma synthetic_fields_no_null rt parse engine row formulas :
  forall start, no_null_value start ->
                no_null_value (synthetic_fields_after rt parse engine row start formulas).
Proof.
  induction formulas as [| f rest IH]; intros start Hstart; [exact Hstart |].
  cbn [synthetic_fields_after fold_left]. apply IH.
  unfold register. destruct (is_none _) eqn:Hnn; [exact Hstart |].
  intros k v Hin. apply dict_set_value in Hin as [-> | Hin]; [| exact (Hstart k v Hin)].
  intros Hv. rewrite Hv in Hnn. discriminate Hnn.
Qed.

(** X6.  [evaluate] drops the [None] entries of [data], so with no
    computed fields, or with computed fields that hold no [None] (those of
    [compute_all_formulas] never do), a field reference is a value other
    than [None] or the error [Missing field].  [ISNULL(field)] is then
    [False] or that error, never [True], and [COALESCE(field, d)] is the
    field's value or that error, never the default [d]. *)
Theorem null_tests_never_see_a_null_field :
  forall (rt : Runtime) (parse : string -> result ast.expr)
         (data : list (string * pyval)) (computed_fields : option (list (string * pyval))),
    (forall overlay, computed_fields = Some overlay -> no_null_value overlay) ->
    let self := FormulaEngine_init rt None in
    let context := build_context data computed_fields in
    let missing (id : string) :=
      FormulaResult.mk VNone (Some ("Missing field: '" +:+ lower id +:+ "'")) [] in
    (forall id expression,
        parse expression = Ok (ast.Name id) ->
        let r := evaluate rt parse self expression data computed_fields in
        (exists v, v <> VNone /\ r = FormulaResult.mk v None [lower id]) \/ r = missing id)
    /\ (forall isnull id expression,
        upper isnull = "ISNULL" ->
        parse expression = Ok (ast.Call (ast.Name isnull) [ast.Name id]) ->
        let r := evaluate rt parse self expression data computed_fields in
        r = FormulaResult.mk (VBool false) None [lower id] \/ r = missing id)
    /\ (forall coalesce id d expression,
        upper coalesce = "COALESCE" ->
        parse expression = Ok (ast.Call (ast.Name coalesce) [ast.Name id; ast.Constant d]) ->
        let r := evaluate rt parse self expression data computed_fields in
        (exists v, v <> VNone /\ context !! lower id = Some v
                   /\ r = FormulaResult.mk v None [lower id])
        \/ r = missing id)
    /\ (forall row done,
        no_null_value (synthetic_fields_after rt parse self row [] done)).
Proof.
  intros rt parse data computed_fields Hover self context missing.
  assert (forall name, context !! name <> Some VNone) as Hnn.
  { intros name. apply build_context_no_null. exact Hover. }
  split; [| split; [| split]].
  - intros id expression Hp r. subst r. unfold evaluate. rewrite Hp. cbn [bind _eval_node].
    fold context. destruct (context !! lower id) as [v |] eqn:Hv.
    + left. exists v. split; [| reflexivity]. intros ->. exact (Hnn _ Hv).
    + right. reflexivity.
  - intros isnull id expression Hup Hp r. subst r. unfold evaluate. rewrite Hp.
    cbn [bind]. fold context. rewrite eval_call_eq, Hup.
    replace (functions self !! "ISNULL") with (Some fn_ISNULL) by reflexivity.
    cbn [eval_args _eval_node]. destruct (context !! lower id) as [v |] eqn:Hv.
    + left. cbn [bind]. simpl.
      destruct v; try reflexivity. destruct (Hnn _ Hv).
    + right. reflexivity.
  - intros coalesce id d expression Hup Hp r. subst r. unfold evaluate. rewrite Hp.
    cbn [bind]. fold context. rewrite eval_call_eq, Hup.
    replace (functions self !! "COALESCE") with (Some fn_COALESCE) by reflexivity.
    cbn [eval_args _eval_node]. destruct (context !! lower id) as [v |] eqn:Hv.
    + left. exists v. split; [intros ->; exact (Hnn _ Hv) |]. split; [reflexivity |].
      cbn [bind]. simpl. destruct v; try reflexivity. destruct (Hnn _ Hv).
    + right. reflexivity.
  - intros row done. apply synthetic_fields_no_null. intros k v [].
Qed.

Lemma null_tests_never_see_a_null_field_witness :
  evaluate example_runtime ast_parse example_engine "ISNULL(eps)"
           [("eps", VNone); ("price", float_lit 30 0)] None
  = FormulaResult.mk VNone (Some "Missing field: 'eps'") []
  /\ evaluate example_runtime ast_parse example_engine "COALESCE(eps, 0)"
              [("eps", VNone); ("price", float_lit 30 0)] None
     = FormulaResult.mk VNone (Some "Missing field: 'eps'") []
  /\ evaluate example_runtime ast_parse example_engine "isnull(Price)"
              [("eps", VNone); ("price", float_lit 30 0)] None
     = FormulaResult.mk (VBool false) None ["price"].
Proof.
  pose proof (null_tests_never_see_a_null_field example_runtime ast_parse
                [("eps", VNone); ("price", float_lit 30 0)] None) as H.
  destruct H as (_ & Hisnull & Hcoalesce & _); [intros overlay Ho; discriminate Ho |].
  split; [| split].
  - destruct (Hisnull "ISNULL" "eps" "ISNULL(eps)" eq_refl eq_refl) as [H | H];
      [vm_compute in H; discriminate H | exact H].
  - destruct (Hcoalesce "COALESCE" "eps" (VInt 0) "COALESCE(eps, 0)" eq_refl eq_refl)
      as [(v & _ & _ & H) | H]; [vm_compute in H; discriminate H | exact H].
  - destruct (Hisnull "isnull" "Price" "isnull(Price)" eq_refl eq_refl) as [H | H];
      [exact H | vm_compute in H; discriminate H].
Defined.

(** ** Functions added to the registry *)

Lemma ascii_upper_idempotent c : ascii_upper (ascii_upper c) = ascii_upper c.
Proof. destruct c as [[] [] [] [] [] [] [] []]; vm_compute; reflexivity. Qed.

Lemma upper_idempotent s : upper (upper s) = upper s.
Proof.
  unfold upper. induction s as [| c s IH]; [reflexivity |].
  cbn [map_chars]. rewrite ascii_upper_idempotent, IH. reflexivity.
Qed.

Section SameRegistry.

Variable rt : Runtime.
Variables self1 self2 : FormulaEngine.

(** the two engines hold the same function under every upper-case name *)
Hypothesis Hsame : forall id, functions self1 !! upper id = functions self2 !! upper id.

Lemma eval_args_ext (ev1 ev2 : ast.expr -> list string -> outcome) args :
  Forall (fun e => forall fu, ev1 e fu = ev2 e fu) args ->
  forall fu, eval_args ev1 args fu = eval_args ev2 args fu.
Proof.
  induction 1 as [| e rest He _ IH]; intros fu; [reflexivity |].
  cbn [eval_args]. rewrite He. destruct (ev2 e fu) as [[v fu1] |]; cbn [bind];
    [| reflexivity].
  rewrite IH. reflexivity.
Qed.

Lemma compare_loop_ext (ev1 ev2 : ast.expr -> list string -> outcome) cs :
  Forall (fun e => forall fu, ev1 e fu = ev2 e fu) cs ->
  forall ops lhs fu, compare_loop rt ev1 ops cs lhs fu = compare_loop rt ev2 ops cs lhs fu.
Proof.
  induction 1 as [| e rest He _ IH]; intros ops lhs fu; [destruct ops; reflexivity |].
  destruct ops as [| op ops]; [reflexivity |].
  cbn [compare_loop]. rewrite He. destruct (ev2 e fu) as [[v fu1] |]; cbn [bind];
    [| reflexivity].
  destruct (is_none v); [reflexivity |].
  destruct (operator_lookup rt (ast.OfCmpop op)) as [f |]; cbn [bind]; [| reflexivity].
  destruct (call f [lhs; v]) as [holds |]; cbn [bind]; [| reflexivity].
  destruct (negb (truthy holds)); [reflexivity | apply IH].
Qed.

Lemma and_loop_ext (ev1 ev2 : ast.expr -> list string -> outcome) vs :
  Forall (fun e => forall fu, ev1 e fu = ev2 e fu) vs ->
  forall fu, and_loop ev1 vs fu = and_loop ev2 vs fu.
Proof.
  induction 1 as [| e rest He _ IH]; intros fu; [reflexivity |].
  cbn [and_loop]. rewrite He. destruct (ev2 e fu) as [[v fu1] |]; cbn [bind];
    [| reflexivity].
  destruct (negb (truthy v)); [reflexivity | apply IH].
Qed.

Lemma or_loop_ext (ev1 ev2 : ast.expr -> list string -> outcome) vs :
  Forall (fun e => forall fu, ev1 e fu = ev2 e fu) vs ->
  forall fu, or_loop ev1 vs fu = or_loop ev2 vs fu.
Proof.
  induction 1 as [| e rest He _ IH]; intros fu; [reflexivity |].
  cbn [or_loop]. rewrite He. destruct (ev2 e fu) as [[v fu1] |]; cbn [bind];
    [| reflexivity].
  destruct (truthy v); [reflexivity | apply IH].
Qed.

Lemma same_registry_eval context e :
  forall fu, _eval_node rt self1 e context fu = _eval_node rt self2 e context fu.
Proof.
  induction e as [c | id | lhs op rhs IHl IHr | op operand IH | lhs ops cs IHl IHcs
                 | op vs IHvs | func args _ IHargs | test body orelse IHt IHb IHo | kind]
    using ast.expr_ind'; intros fu; try reflexivity.
  - cbn [_eval_node]. rewrite IHl.
    destruct (_eval_node rt self2 lhs context fu) as [[l fu1] |]; cbn [bind];
      [| reflexivity].
    rewrite IHr. reflexivity.
  - cbn [_eval_node]. rewrite IH. reflexivity.
  - cbn [_eval_node]. rewrite IHl.
    destruct (_eval_node rt self2 lhs context fu) as [[l fu1] |]; cbn [bind];
      [| reflexivity].
    destruct (is_none l); [reflexivity |].
    apply (compare_loop_ext _ _ cs IHcs).
  - destruct op; cbn [_eval_node].
    + apply (and_loop_ext _ _ vs IHvs).
    + apply (or_loop_ext _ _ vs IHvs).
  - destruct func; try reflexivity.
    rewrite !eval_call_eq, Hsame.
    rewrite (eval_args_ext _ _ args IHargs fu). reflexivity.
  - cbn [_eval_node]. rewrite IHt.
    destruct (_eval_node rt self2 test context fu) as [[t fu1] |]; cbn [bind];
      [| reflexivity].
    destruct (truthy t); [apply IHb | apply IHo].
Qed.

Lemma validate_each_ext nodes :
  Forall (fun e => forall st, _validate_node rt self1 e st = _validate_node rt self2 e st)
         nodes ->
  forall st, validate_each rt self1 nodes st = validate_each rt self2 nodes st.
Proof.
  unfold validate_each. induction 1 as [| e rest He _ IH]; intros st; [reflexivity |].
  cbn [fold_left]. rewrite He. apply IH.
Qed.

Lemma validate_links_ext cs :
  Forall (fun e => forall st, _validate_node rt self1 e st = _validate_node rt self2 e st)
         cs ->
  forall ops st, validate_links rt self1 ops cs st = validate_links rt self2 ops cs st.
Proof.
  induction 1 as [| e rest He _ IH]; intros ops st; [destruct ops; reflexivity |].
  destruct ops as [| op ops]; [reflexivity |].
  cbn [validate_links]. rewrite He. apply IH.
Qed.

Lemma same_registry_validate e :
  forall st, _validate_node rt self1 e st = _validate_node rt self2 e st.
Proof.
  induction e as [c | id | lhs op rhs IHl IHr | op operand IH | lhs ops cs IHl IHcs
                 | op vs IHvs | func args _ IHargs | test body orelse IHt IHb IHo | kind]
    using ast.expr_ind'; intros st; try reflexivity.
  - cbn [_validate_node]. rewrite IHl, IHr. reflexivity.
  - cbn [_validate_node]. rewrite IH. reflexivity.
  - rewrite !validate_compare_eq, IHl. apply (validate_links_ext cs IHcs).
  - rewrite !validate_boolop_eq. apply (validate_each_ext vs IHvs).
  - destruct func; try reflexivity.
    rewrite !validate_call_eq, Hsame. apply (validate_each_ext args IHargs).
  - cbn [_validate_node]. rewrite IHt, IHb, IHo. reflexivity.
Qed.

End SameRegistry.

(** X7.  Calls look a function up under the upper-cased name, so a function
    that [FormulaEngine(additional_functions)] receives under a name that
    is not upper case is never found: when no added name is upper case the
    engine validates and evaluates every text as [FormulaEngine()] does.  A
    function added under an upper-case name is the one the registry holds
    for it, also in place of a built-in of that name. *)
Theorem added_functions_need_upper_case_names :
  forall (rt : Runtime) (parse : string -> result ast.expr) (extra : gmap string pyfunc),
    ((forall name f, extra !! name = Some f -> upper name <> name) ->
     forall expression data computed_fields,
       evaluate rt parse (FormulaEngine_init rt (Some extra)) expression data computed_fields
       = evaluate rt parse (FormulaEngine_init rt None) expression data computed_fields
       /\ validate rt parse (FormulaEngine_init rt (Some extra)) expression
          = validate rt parse (FormulaEngine_init rt None) expression)
    /\ (forall id f,
        extra !! upper id = Some f ->
        functions (FormulaEngine_init rt (Some extra)) !! upper id = Some f).
Proof.
  intros rt parse extra. split.
  - intros Hnames expression data computed_fields.
    assert (forall id, functions (FormulaEngine_init rt (Some extra)) !! upper id
                       = functions (FormulaEngine_init rt None) !! upper id) as Hsame.
    { intros id. cbn [FormulaEngine_init functions].
      destruct (extra !! upper id) as [f |] eqn:Hf.
      - destruct (Hnames _ _ Hf). apply upper_idempotent.
      - apply lookup_union_r. exact Hf. }
    split.
    + unfold evaluate. destruct (parse expression) as [tree |]; cbn [bind]; [| reflexivity].
      rewrite (same_registry_eval rt _ _ Hsame). reflexivity.
    + unfold validate. destruct (parse expression) as [tree |]; cbn [bind];
        [| reflexivity].
      rewrite (same_registry_validate rt _ _ Hsame). reflexivity.
  - intros id f Hf. cbn [FormulaEngine_init functions].
    apply lookup_union_Some_l. exact Hf.
Qed.

Lemma added_functions_need_upper_case_names_witness :
  let double : pyfunc := fun vs => match vs with [v] => py_add v v | _ => Ok VNone end in
  validate example_runtime ast_parse
           (FormulaEngine_init example_runtime (Some {["Double" := double]})) "Double(eps)"
  = Ok (ValidationResult.mk false ["Unknown function: DOUBLE"] ["eps"] ["DOUBLE"])
  /\ functions (FormulaEngine_init example_runtime (Some {["MAX" := double]})) !! upper "max"
     = Some double.
Proof.
  intros double. split.
  - destruct (added_functions_need_upper_case_names example_runtime ast_parse
                {["Double" := double]}) as [Hignored _].
    rewrite (proj2 (Hignored
                      ltac:(intros name f Hf; apply lookup_singleton_Some in Hf as [<- _];
                            vm_compute; discriminate)
                      "Double(eps)" [] None)).
    vm_compute. reflexivity.
  - destruct (added_functions_need_upper_case_names example_runtime ast_parse
                {["MAX" := double]}) as [_ Hfound].
    apply Hfound. change (upper "max") with "MAX". apply lookup_singleton_eq.
Defined.

(** ** Field names and the case of letters *)

Lemma fold_lower_last (before after : list (string * pyval)) (m : gmap string pyval) k v :
  (forall k' v', In (k', v') after -> lower k' <> lower k) ->
  fold_left (fun m kv => <[lower kv.1 := kv.2]> m) (before ++ (k, v) :: after) m !! lower k
  = Some v.
Proof.
  intros Hafter. rewrite fold_left_app. cbn [fold_left fst snd].
  rewrite fold_lower_other by exact Hafter. apply lookup_insert_eq.
Qed.

Lemma build_context_last before k v after computed_fields :
  v <> VNone ->
  (forall k' v', In (k', v') after -> lower k' = lower k -> v' = VNone) ->
  (forall overlay k' v',
      computed_fields = Some overlay -> In (k', v') overlay -> lower k' <> lower k) ->
  build_context (before ++ (k, v) :: after) computed_fields !! lower k = Some v.
Proof.
  intros Hv Hafter Hover. unfold build_context.
  assert (dict_lower (List.filter (fun kv => negb (is_none kv.2)) (before ++ (k, v) :: after))
            !! lower k = Some v) as Hdata.
  { rewrite List.filter_app. cbn [List.filter snd].
    replace (negb (is_none v)) with true by (destruct v; try reflexivity; destruct (Hv eq_refl)).
    unfold dict_lower. apply fold_lower_last.
    intros k' v' Hin Heq. apply List.filter_In in Hin as [Hin Hnn].
    rewrite (Hafter k' v' Hin Heq) in Hnn. discriminate Hnn. }
  destruct computed_fields as [[| kv overlay] |]; try exact Hdata.
  rewrite lookup_union_r; [exact Hdata |].
  apply dict_lower_other. intros k' v' Hin. exact (Hover _ k' v' eq_refl Hin).
Qed.



(** ** Evaluation for a universe *)

Lemma fold_lower_keeps (items : list (string * pyval)) (m : gmap string pyval) name :
  is_Some (m !! name) ->
  is_Some (fold_left (fun m kv => <[lower kv.1 := kv.2]> m) items m !! name).
Proof.
  revert m. induction items as [| [k v] rest IH]; intros m Hm; [exact Hm |].
  cbn [fold_left]. apply IH. cbn [fst snd].
  destruct (decide (lower k = name)) as [-> | Hne].
  - rewrite lookup_insert_eq. eauto.
  - rewrite lookup_insert_ne by exact Hne. exact Hm.
Qed.

Lemma dict_lower_in items k v :
  In (k, v) items -> is_Some (dict_lower items !! lower k).
Proof.
  unfold dict_lower. generalize (∅ : gmap string pyval).
  induction items as [| [k0 v0] rest IH]; intros m Hin; [destruct Hin |].
  cbn [fold_left]. destruct Hin as [Heq | Hin].
  - inversion Heq; subst. apply fold_lower_keeps. cbn [fst snd].
    rewrite lookup_insert_eq. eauto.
  - apply IH. exact Hin.
Qed.

(** a name the context does not hold is the name of no column of the row
    with a value other than [None] *)
Lemma build_context_none data computed_fields name :
  build_context data computed_fields !! name = None ->
  forall k v, In (k, v) data -> lower k = name -> v = VNone.
Proof.
  intros Hnone k v Hin Hk.
  destruct (decide (v = VNone)) as [Hv | Hv]; [exact Hv | exfalso].
  assert (is_Some (dict_lower (List.filter (fun kv => negb (is_none kv.2)) data) !! name))
    as [x Hx].
  { rewrite <- Hk. apply (dict_lower_in _ k v). apply List.filter_In. split; [exact Hin |].
    destruct v; try reflexivity. destruct (Hv eq_refl). }
  unfold build_context in Hnone.
  destruct computed_fields as [[| kv overlay] |];
    try (rewrite Hx in Hnone; discriminate Hnone).
  apply lookup_union_None in Hnone as [_ Hnone]. rewrite Hx in Hnone. discriminate Hnone.
Qed.

Lemma valid_tree rt parse self expression v :
  validate rt parse self expression = Ok v ->
  ValidationResult.is_valid v = true ->
  exists tree,
    parse expression = Ok tree
    /\ v_errors (_validate_node rt self tree vstart) = []
    /\ ValidationResult.fields_used v
       = list_of_set (v_fields (_validate_node rt self tree vstart)).
Proof.
  intros Hval Hvalid. unfold validate in Hval.
  destruct (parse expression) as [tree | x]; cbn [bind] in Hval.
  - inversion Hval; subst v; clear Hval. cbn [ValidationResult.is_valid] in Hvalid.
    apply Nat.eqb_eq, length_zero_iff_nil in Hvalid.
    exists tree. split; [reflexivity | split; [exact Hvalid | reflexivity]].
  - destruct x; cbn [bind] in Hval; try discriminate Hval.
    inversion Hval; subst v. discriminate Hvalid.
Qed.

Lemma error_gives_no_value rt parse self expression data computed_fields :
  FormulaResult.error (evaluate rt parse self expression data computed_fields) <> None ->
  FormulaResult.value (evaluate rt parse self expression data computed_fields) = VNone.
Proof.
  unfold evaluate.
  destruct (let* tree := parse expression in _) as [[v fu] | x].
  - intros H. destruct (H eq_refl).
  - intros _. apply on_exception_value.
Qed.



(** ** Translation to SQL *)

Lemma prefix_chars old : forall t x,
  String.prefix old t = true ->
  In x (list_ascii_of_string old) -> In x (list_ascii_of_string t).
Proof.
  induction old as [| a old' IH]; intros t x Hp Hin; [destruct Hin |].
  destruct t as [| c t']; [discriminate Hp |].
  cbn [String.prefix] in Hp. destruct (ascii_dec a c) as [-> | Hne]; [| discriminate Hp].
  cbn [list_ascii_of_string] in *. destruct Hin as [Hx | Hin]; [left; exact Hx |].
  right. exact (IH t' x Hp Hin).
Qed.

(** a text that lacks a character of [old] holds no occurrence of [old] *)
Lemma replace_scan_unchanged old new x s :
  In x (list_ascii_of_string old) -> ~ In x (list_ascii_of_string s) ->
  replace_scan old new O s = s.
Proof.
  intros Hold. induction s as [| c rest IH]; intros Hs; [reflexivity |].
  cbn [replace_scan].
  destruct (String.prefix old (String c rest)) eqn:Hp.
  - destruct (Hs (prefix_chars old _ x Hp Hold)).
  - rewrite IH; [reflexivity |]. intros Hin. apply Hs. right. exact Hin.
Qed.

Lemma str_replace_unchanged old new x s :
  In x (list_ascii_of_string old) -> ~ In x (list_ascii_of_string s) ->
  str_replace old new s = s.
Proof.
  intros Hold Hs. destruct old as [| a old']; [destruct Hold |].
  apply (replace_scan_unchanged _ new x s Hold Hs).
Qed.

Lemma lower_fixed_chars s :
  lower s = s -> forall c, In c (list_ascii_of_string s) -> ascii_lower c = c.
Proof.
  unfold lower. induction s as [| a s' IH]; intros H c Hin; [destruct Hin |].
  cbn [map_chars] in H. injection H as Ha Hs. destruct Hin as [<- | Hin].
  - exact Ha.
  - exact (IH Hs c Hin).
Qed.

Lemma in_chars_app x s t :
  In x (list_ascii_of_string t) -> In x (list_ascii_of_string (s +:+ t)).
Proof.
  intros H. induction s as [| a s' IH]; [exact H |].
  cbv [String.append]. fold String.append. cbn [list_ascii_of_string]. right. exact IH.
Qed.

(** every name of [sql_functions] starts with an upper-case letter *)
Lemma sql_function_names_upper :
  Forall (fun pair : string * string =>
            exists x rest, pair.1 = String x rest /\ ascii_lower x <> x) sql_functions.
Proof.
  unfold sql_functions.
  repeat (constructor; [eexists; eexists; split; [reflexivity | vm_compute; discriminate] |]).
  constructor.
Qed.

Lemma sql_pass_unchanged (pairs : list (string * string)) s :
  Forall (fun pair => str_replace (pair.1 +:+ "(") (pair.2 +:+ "(") s = s) pairs ->
  fold_left (fun sql_expr pair => str_replace (pair.1 +:+ "(") (pair.2 +:+ "(") sql_expr)
            pairs s = s.
Proof.
  induction 1 as [| pair rest Hpair _ IH]; [reflexivity |].
  cbn [fold_left]. rewrite Hpair. exact IH.
Qed.

Lemma ascii_upper_lower c : ascii_upper (ascii_lower c) = ascii_upper c.
Proof. destruct c as [[] [] [] [] [] [] [] []]; vm_compute; reflexivity. Qed.

Lemma upper_lower s : upper (lower s) = upper s.
Proof.
  unfold upper, lower. induction s as [| c s IH]; [reflexivity |].
  cbn [map_chars]. rewrite ascii_upper_lower, IH. reflexivity.
Qed.

(** X10.  [generate_sql_expression] rewrites a function name only where it
    stands in upper case right before an opening parenthesis: a text without
    an upper-case letter, and a text without a parenthesis, come back
    unchanged.  The engine takes function names in any case, so a call
    written in lower case, which validates and evaluates as the upper-case
    call does, is not translated. *)
Theorem generate_sql_expression_translates_upper_case_calls_only :
  (forall expression,
      lower expression = expression
      \/ ~ In "("%char (list_ascii_of_string expression) ->
      generate_sql_expression expression = expression)
  /\ (forall rt self context id args fu st,
      _eval_node rt self (ast.Call (ast.Name (lower id)) args) context fu
      = _eval_node rt self (ast.Call (ast.Name id) args) context fu
      /\ _validate_node rt self (ast.Call (ast.Name (lower id)) args) st
         = _validate_node rt self (ast.Call (ast.Name id) args) st).
Proof.
  split.
  - intros expression Hcase. unfold generate_sql_expression. apply sql_pass_unchanged.
    eapply Forall_impl; [exact sql_function_names_upper |].
    intros [py_func sql_func] (x & rest & Hname & Hupper). cbn [fst snd] in *.
    destruct Hcase as [Hlower | Hparen].
    + apply (str_replace_unchanged _ _ x).
      * rewrite Hname. left. reflexivity.
      * intros Hin. apply Hupper. exact (lower_fixed_chars _ Hlower x Hin).
    + apply (str_replace_unchanged _ _ "("%char); [| exact Hparen].
      apply in_chars_app. left. reflexivity.
  - intros rt self context id args fu st. split.
    + rewrite !eval_call_eq, upper_lower. reflexivity.
    + rewrite !validate_call_eq, upper_lower. reflexivity.
Qed.

Lemma generate_sql_expression_translates_upper_case_calls_only_witness :
  generate_sql_expression "max(eps, 0) * sqrt(price)" = "max(eps, 0) * sqrt(price)"
  /\ generate_sql_expression "eps * 2 - Price" = "eps * 2 - Price".
Proof.
  destruct generate_sql_expression_translates_upper_case_calls_only as [H _]. split.
  - apply H. left. vm_compute. reflexivity.
  - apply H. right. vm_compute. intuition discriminate.
Defined.

(** ** The batch and the table [computed_metrics] *)

Lemma same_key_refl w : same_key w w = true.
Proof. apply same_key_iff. reflexivity. Qed.

Lemma same_key_sym a b : same_key a b = same_key b a.
Proof.
  destruct (same_key b a) eqn:E.
  - apply same_key_iff. symmetry. apply same_key_iff. exact E.
  - apply same_key_false_iff. intros H. apply same_key_false_iff in E. auto.
Qed.

Lemma same_key_trans a b c : same_key a b = true -> same_key b c = true -> same_key a c = true.
Proof. rewrite !same_key_iff. congruence. Qed.

Lemma same_key_other a b c :
  same_key a b = true -> same_key b c = false -> same_key a c = false.
Proof. rewrite same_key_iff, !same_key_false_iff. congruence. Qed.

Lemma upsert_in m w table : In m (upsert w table) -> m = w \/ In m table.
Proof.
  induction table as [| old rest IH]; cbn [upsert]; intros H.
  - destruct H as [H | []]. left. symmetry. exact H.
  - destruct (same_key old w).
    + destruct H as [H | H]; [left; symmetry; exact H | right; right; exact H].
    + destruct H as [H | H]; [right; left; exact H |].
      destruct (IH H) as [Hw | Hin]; [left; exact Hw | right; right; exact Hin].
Qed.

Lemma apply_writes_in m ws : forall table,
  In m (apply_writes ws table) -> In m ws \/ In m table.
Proof.
  unfold apply_writes. induction ws as [| w rest IH]; intros table H; [right; exact H |].
  cbn [fold_left] in H. destruct (IH _ H) as [Hin | Hin]; [left; right; exact Hin |].
  destruct (upsert_in _ _ _ Hin) as [-> | Ht]; [left; left; reflexivity | right; exact Ht].
Qed.

Lemma stored_after_other_writes m ws : forall table,
  (forall w, In w ws -> same_key w m = false) ->
  stored m (apply_writes ws table) = stored m table.
Proof.
  unfold apply_writes. induction ws as [| w rest IH]; intros table Hother; [reflexivity |].
  cbn [fold_left]. rewrite IH by (intros w' Hin; apply Hother; right; exact Hin).
  apply stored_after_other_upsert. apply Hother. left. reflexivity.
Qed.

Lemma connection_after_outcome conn (log : write_log) :
  connection_after (batch_outcome conn log)
  = with_metrics conn (apply_writes log.1 (computed_metrics conn)).
Proof. unfold batch_outcome. destruct log.2; reflexivity. Qed.

Lemma then_writes_in w (first next : write_log) :
  In w (then_writes first next).1 -> In w first.1 \/ In w next.1.
Proof.
  unfold then_writes. destruct first.2; cbn [fst]; [left; assumption |].
  intros H. apply in_app_or in H. exact H.
Qed.

Section WritesOfRows.

Variable rt : Runtime.
Variable parse : string -> result ast.expr.
Variable sql_double : pyval -> option spec_float.
Variable engine : FormulaEngine.

(** a row written for [row] carries its ticker and date, the name and the
    identifier of one of the formulas, and a double *)
Lemma row_writes_origin row formulas : forall row_computed w,
  In w (row_writes rt parse sql_double engine row row_computed formulas).1 ->
  exists formula,
    In formula formulas
    /\ metric_ticker w = ticker row /\ metric_as_of w = as_of row
    /\ metric_name w = formula.1.2 /\ metric_formula_id w = formula.1.1
    /\ exists stored_value, metric_value w = VFloat stored_value.
Proof.
  induction formulas as [| f rest IH]; intros row_computed w Hin; [destruct Hin |].
  cbn [row_writes] in Hin.
  assert (forall w,
             In w (row_writes rt parse sql_double engine row
                     (register rt parse engine row row_computed f) rest).1 ->
             exists formula,
               In formula (f :: rest)
               /\ metric_ticker w = ticker row /\ metric_as_of w = as_of row
               /\ metric_name w = formula.1.2 /\ metric_formula_id w = formula.1.1
               /\ exists stored_value, metric_value w = VFloat stored_value) as Hrest.
  { intros w0 H0. destruct (IH _ _ H0) as (g & Hg & Hw). exists g. split; [right |]; auto. }
  unfold formula_write in Hin.
  destruct (is_none (FormulaResult.value (formula_result rt parse engine row row_computed f)));
    [apply Hrest; exact Hin |].
  destruct (sql_double (FormulaResult.value (formula_result rt parse engine row row_computed f)))
    as [stored_value |]; [| destruct Hin].
  cbv zeta in Hin. cbn [fst] in Hin.
  destruct Hin as [<- | Hin]; [| apply Hrest; exact Hin].
  exists f. cbn. repeat split; try (left; reflexivity). exists stored_value. reflexivity.
Qed.

Lemma batch_writes_origin formulas rows w :
  In w (batch_writes rt parse sql_double engine formulas rows).1 ->
  exists row formula,
    In row rows /\ In formula formulas
    /\ metric_ticker w = ticker row /\ metric_as_of w = as_of row
    /\ metric_name w = formula.1.2 /\ metric_formula_id w = formula.1.1
    /\ exists stored_value, metric_value w = VFloat stored_value.
Proof.
  induction rows as [| row rest IH]; intros Hin; [destruct Hin |].
  cbn [batch_writes] in Hin. apply then_writes_in in Hin as [Hin | Hin].
  - destruct (row_writes_origin _ _ _ _ Hin) as (formula & Hf & Hw).
    exists row, formula. split; [left; reflexivity | auto].
  - destruct (IH Hin) as (row' & formula & Hrow & Hw).
    exists row', formula. split; [right; exact Hrow | exact Hw].
Qed.

End WritesOfRows.

Lemma select_fundamentals_in conn universe row :
  In row (select_fundamentals conn universe) ->
  In row (fundamentals conn)
  /\ forall tickers, universe = Some tickers -> tickers <> [] ->
                     ticker row ∈ VStr <$> tickers.
Proof.
  unfold select_fundamentals. destruct universe as [[| t tickers] |]; intros Hin.
  - split; [exact Hin |]. intros tickers' Heq Hne. inversion Heq; subst.
    destruct (Hne eq_refl).
  - apply List.filter_In in Hin as [Hin Hsel]. split; [exact Hin |].
    intros tickers' Heq _. inversion Heq; subst. apply bool_decide_eq_true in Hsel.
    exact Hsel.
  - split; [exact Hin |]. intros ? Heq. discriminate Heq.
Qed.

(** X11.  Whether [compute_all_formulas] returns or an INSERT raises, it
    changes nothing but [computed_metrics], and there only the keys of the
    rows that its query selects: what the table holds under a key whose
    ticker and date are those of no selected row is what it held before, in
    particular under every key whose ticker is outside a universe that is
    given and not empty.  Every row of the table afterwards is a row it
    held before or carries the ticker and date of a selected row, the name
    and identifier of a formula, and a double. *)
Theorem batch_touches_only_selected_rows :
  forall (rt : Runtime) (parse : string -> result ast.expr)
         (sql_double : pyval -> option spec_float)
         (conn : Connection) (universe : option (list string)),
    let after := connection_after (compute_all_formulas rt parse sql_double conn universe) in
    let rows := select_fundamentals conn universe in
    formula_definitions after = formula_definitions conn
    /\ fundamentals after = fundamentals conn
    /\ (forall m,
        (forall row, In row rows ->
                     (ticker row, as_of row) <> (metric_ticker m, metric_as_of m)) ->
        stored m (computed_metrics after) = stored m (computed_metrics conn))
    /\ (forall m tickers,
        universe = Some tickers -> tickers <> [] ->
        metric_ticker m ∉ VStr <$> tickers ->
        stored m (computed_metrics after) = stored m (computed_metrics conn))
    /\ (forall m,
        In m (computed_metrics after) ->
        In m (computed_metrics conn)
        \/ exists row formula,
            In row rows /\ In formula (formula_definitions conn)
            /\ metric_ticker m = ticker row /\ metric_as_of m = as_of row
            /\ metric_name m = formula.1.2 /\ metric_formula_id m = formula.1.1
            /\ exists stored_value, metric_value m = VFloat stored_value).
Proof.
  intros rt parse sql_double conn universe after rows.
  assert (after = with_metrics conn
                    (apply_writes
                       (batch_writes rt parse sql_double (FormulaEngine_init rt None)
                          (formula_definitions conn) rows).1
                       (computed_metrics conn))) as Hafter.
  { subst after. rewrite compute_all_formulas_by_row. apply connection_after_outcome. }
  assert (forall m,
             (forall row, In row rows ->
                          (ticker row, as_of row) <> (metric_ticker m, metric_as_of m)) ->
             stored m (computed_metrics after) = stored m (computed_metrics conn)) as Hother.
  { intros m Hm. rewrite Hafter. cbn [with_metrics computed_metrics].
    apply stored_after_other_writes. intros w Hw.
    apply batch_writes_origin in Hw as (row & formula & Hrow & _ & Ht & Hd & _).
    apply same_key_false_iff. unfold metric_key. intros Hkey.
    apply (Hm row Hrow). rewrite <- Ht, <- Hd. congruence. }
  split; [rewrite Hafter; reflexivity |]. split; [rewrite Hafter; reflexivity |].
  split; [exact Hother |]. split.
  - intros m tickers Hu Hne Hout. apply Hother. intros row Hrow Heq.
    apply Hout. injection Heq as Ht Hd. rewrite <- Ht.
    exact (proj2 (select_fundamentals_in conn universe row Hrow) tickers Hu Hne).
  - intros m Hin. rewrite Hafter in Hin. cbn [with_metrics computed_metrics] in Hin.
    apply apply_writes_in in Hin as [Hw | Hold]; [right | left; exact Hold].
    exact (batch_writes_origin _ _ _ _ _ _ _ Hw).
Qed.

Lemma batch_touches_only_selected_rows_witness :
  let kept := {| metric_ticker := VStr "MSFT"; metric_as_of := VStr "2024-12-31";
                 metric_name := "Ticker Symbol";
                 metric_formula_id := "formula:ticker_symbol";
                 metric_value := float_lit 1 0 |} in
  let conn := with_metrics example_text_connection [kept] in
  (* the run raises at the row of AAPL, and the row of MSFT stays *)
  returned_count (compute_all_formulas example_runtime ast_parse example_sql_double conn
                    (Some ["AAPL"]))
  = None
  /\ stored kept
       (computed_metrics
          (connection_after
             (compute_all_formulas example_runtime ast_parse example_sql_double conn
                (Some ["AAPL"]))))
     = Some kept.
Proof.
  intros kept conn. split; [vm_compute; reflexivity |].
  destruct (batch_touches_only_selected_rows example_runtime ast_parse example_sql_double
              conn (Some ["AAPL"]))
    as (_ & _ & _ & Houtside & _).
  rewrite (Houtside kept ["AAPL"] eq_refl).
  - vm_compute. reflexivity.
  - discriminate.
  - intros Hin. apply list_elem_of_In in Hin. simpl in Hin.
    destruct Hin as [H | []]. discriminate H.
Defined.

(** ** Running the batch again *)

Lemma has_key_upsert_same w table : has_key w (upsert w table) = true.
Proof.
  unfold has_key. induction table as [| old rest IH]; cbn [upsert existsb].
  - rewrite same_key_refl. reflexivity.
  - destruct (same_key old w) eqn:E; cbn [existsb].
    + rewrite same_key_refl. reflexivity.
    + rewrite E. exact IH.
Qed.

Lemma has_key_upsert w x table : has_key w table = true -> has_key w (upsert x table) = true.
Proof.
  unfold has_key. induction table as [| old rest IH]; cbn [upsert existsb]; intros H;
    [discriminate H |].
  destruct (same_key old x) eqn:E; cbn [existsb].
  - destruct (same_key old w) eqn:Ew; cbn [orb] in H.
    + rewrite (same_key_trans x old w); [reflexivity | rewrite same_key_sym; exact E | exact Ew].
    + rewrite H. apply orb_true_r.
  - destruct (same_key old w); [reflexivity | apply IH; exact H].
Qed.

(** a later write to the same key replaces the earlier one where it is *)
Lemma upsert_same w w' table :
  same_key w' w = true -> upsert w (upsert w' table) = upsert w table.
Proof.
  intros Hk. induction table as [| old rest IH]; cbn [upsert].
  - rewrite Hk. reflexivity.
  - destruct (same_key old w') eqn:E'.
    + cbn [upsert]. rewrite Hk. rewrite (same_key_trans old w' w E' Hk). reflexivity.
    + replace (same_key old w) with false.
      * cbn [upsert]. replace (same_key old w) with false; [rewrite IH; reflexivity |].
        symmetry. destruct (same_key old w) eqn:E; [| reflexivity].
        rewrite <- E'. symmetry. apply (same_key_trans old w w' E).
        rewrite same_key_sym. exact Hk.
      * symmetry. destruct (same_key old w) eqn:E; [| reflexivity].
        rewrite <- E'. symmetry. apply (same_key_trans old w w' E).
        rewrite same_key_sym. exact Hk.
Qed.

(** writes to different keys commute when the table holds one of the keys *)
Lemma upsert_comm w w' table :
  same_key w w' = false ->
  has_key w table = true \/ has_key w' table = true ->
  upsert w (upsert w' table) = upsert w' (upsert w table).
Proof.
  intros Hne. unfold has_key.
  induction table as [| old rest IH]; cbn [existsb]; intros Hhas.
  - destruct Hhas as [H | H]; discriminate H.
  - cbn [upsert]. destruct (same_key old w) eqn:E, (same_key old w') eqn:E'.
    + rewrite (same_key_trans w old w') in Hne; [discriminate Hne | | exact E'].
      rewrite same_key_sym. exact E.
    + cbn [upsert]. rewrite E, Hne. reflexivity.
    + cbn [upsert]. rewrite E'. rewrite same_key_sym in Hne. rewrite Hne. reflexivity.
    + cbn [upsert]. rewrite E, E'. rewrite IH; [reflexivity |].
      destruct Hhas as [H | H]; [left | right]; exact H.
Qed.

Lemma has_keys_upsert (ws : list metric) x table :
  (forall w, In w ws -> has_key w table = true) ->
  forall w, In w ws -> has_key w (upsert x table) = true.
Proof. intros H w Hin. apply has_key_upsert. exact (H w Hin). Qed.

Lemma has_key_after_writes ws : forall table w,
  In w ws \/ has_key w table = true -> has_key w (apply_writes ws table) = true.
Proof.
  unfold apply_writes. induction ws as [| x rest IH]; intros table w H.
  - destruct H as [[] | H]. exact H.
  - cbn [fold_left]. apply IH. destruct H as [[<- | Hin] | H].
    + right. apply has_key_upsert_same.
    + left. exact Hin.
    + right. apply has_key_upsert. exact H.
Qed.

(** a write that a later write of the list overrides makes no difference *)
Lemma apply_writes_absorb ws w : forall table,
  (forall x, In x ws -> has_key x table = true) ->
  existsb (fun x => same_key w x) ws = true ->
  apply_writes ws (upsert w table) = apply_writes ws table.
Proof.
  unfold apply_writes. induction ws as [| x rest IH]; intros table Hhas Hex;
    [discriminate Hex |].
  cbn [fold_left existsb] in *. destruct (same_key w x) eqn:E.
  - rewrite upsert_same by exact E. reflexivity.
  - cbn [orb] in Hex.
    rewrite (upsert_comm x w table).
    + apply IH; [| exact Hex]. apply has_keys_upsert. intros y Hy. apply Hhas. right. exact Hy.
    + rewrite same_key_sym. exact E.
    + left. apply Hhas. left. reflexivity.
Qed.

(** a write to a key that the list does not write moves behind the list *)
Lemma apply_writes_commute ws w : forall table,
  (forall x, In x ws -> has_key x table = true) ->
  existsb (fun x => same_key w x) ws = false ->
  apply_writes ws (upsert w table) = upsert w (apply_writes ws table).
Proof.
  unfold apply_writes. induction ws as [| x rest IH]; intros table Hhas Hex; [reflexivity |].
  cbn [fold_left existsb] in *. apply orb_false_iff in Hex as [E Hex].
  rewrite (upsert_comm x w table).
  - apply IH; [| exact Hex]. apply has_keys_upsert. intros y Hy. apply Hhas. right. exact Hy.
  - rewrite same_key_sym. exact E.
  - left. apply Hhas. left. reflexivity.
Qed.

(** the writes of a batch, applied to the table they produced, leave it *)
Lemma apply_writes_twice ws : forall table,
  apply_writes ws (apply_writes ws table) = apply_writes ws table.
Proof.
  induction ws as [| w ws' IH] using rev_ind; intros table; [reflexivity |].
  assert (forall t, apply_writes (ws' ++ [w]) t = upsert w (apply_writes ws' t)) as Happ.
  { intros t. unfold apply_writes. rewrite fold_left_app. reflexivity. }
  rewrite !Happ. set (U := apply_writes ws' table).
  assert (forall x, In x ws' -> has_key x U = true) as Hhas.
  { intros x Hx. apply (has_key_after_writes ws' table x). left. exact Hx. }
  destruct (existsb (fun x => same_key w x) ws') eqn:Hex.
  - rewrite (apply_writes_absorb ws' w U Hhas Hex). subst U. rewrite IH. reflexivity.
  - rewrite (apply_writes_commute ws' w U Hhas Hex). subst U. rewrite IH.
    apply upsert_same. apply same_key_refl.
Qed.

(** X12.  Running [compute_all_formulas] a second time, on the connection
    the first run left and with the same universe, ends as the first run
    did: when the first run returned, the second changes no row of
    [computed_metrics] (on the columns ticker, as_of, metric_name,
    formula_id and value) and returns the same count; when an INSERT of the
    first run raised, the same INSERT of the second run raises and the
    table is again as the first run left it. *)
Theorem batch_run_again_changes_nothing :
  forall (rt : Runtime) (parse : string -> result ast.expr)
         (sql_double : pyval -> option spec_float)
         (conn : Connection) (universe : option (list string)),
    let first := compute_all_formulas rt parse sql_double conn universe in
    compute_all_formulas rt parse sql_double (connection_after first) universe = first.
Proof.
  intros rt parse sql_double conn universe first. subst first.
  rewrite (compute_all_formulas_by_row rt parse sql_double conn).
  rewrite connection_after_outcome. rewrite compute_all_formulas_by_row.
  set (log := batch_writes rt parse sql_double (FormulaEngine_init rt None)
                (formula_definitions conn) (select_fundamentals conn universe)).
  set (table := apply_writes log.1 (computed_metrics conn)).
  change (formula_definitions (with_metrics conn table)) with (formula_definitions conn).
  change (select_fundamentals (with_metrics conn table) universe)
    with (select_fundamentals conn universe).
  fold log. unfold batch_outcome.
  change (computed_metrics (with_metrics conn table)) with table.
  subst table. rewrite apply_writes_twice. reflexivity.
Qed.

(** ** What validation accepts *)

Section Supported.

Variable rt : Runtime.
Variable self : FormulaEngine.

Local Abbreviation errors_of := (fun e => v_errors (_validate_node rt self e vstart)).
Local Abbreviation accepted := (fun e => errors_of e = [] <-> supported self e = true).

Lemma operator_in_table op :
  is_Some (SAFE_OPERATORS rt (ast.OfOperator op)) <-> supported_operator op = true.
Proof.
  destruct op; simpl; split; intros H; eauto; try discriminate H;
    destruct H as [f Hf]; discriminate Hf.
Qed.

Lemma unaryop_in_table op :
  is_Some (SAFE_OPERATORS rt (ast.OfUnaryop op)) <-> supported_unaryop op = true.
Proof.
  destruct op; simpl; split; intros H; eauto; try discriminate H;
    destruct H as [f Hf]; discriminate Hf.
Qed.

Lemma cmpop_in_table op :
  is_Some (SAFE_OPERATORS rt (ast.OfCmpop op)) <-> supported_cmpop op = true.
Proof.
  destruct op; simpl; split; intros H; eauto; try discriminate H;
    destruct H as [f Hf]; discriminate Hf.
Qed.

Lemma supported_compare_eq lhs ops cs :
  supported self (ast.Compare lhs ops cs)
  = supported self lhs && supported_links self ops cs.
Proof.
  cbn [supported]. f_equal. revert ops.
  induction cs as [| c rest IH]; intros ops; destruct ops; try reflexivity.
  cbn [supported_links]. rewrite <- IH. reflexivity.
Qed.

Lemma app_nil_iff {A : Type} (l1 l2 : list A) : l1 ++ l2 = [] <-> l1 = [] /\ l2 = [].
Proof.
  split; [apply app_eq_nil | intros [-> ->]; reflexivity].
Qed.

Lemma accepted_each nodes :
  Forall (fun e => accepted e) nodes ->
  v_errors (validate_each rt self nodes vstart) = [] <-> forallb (supported self) nodes = true.
Proof.
  induction 1 as [| e rest He _ IH]; [split; reflexivity |].
  rewrite errors_each_cons, app_nil_iff. cbn [forallb]. rewrite andb_true_iff.
  cbv beta in He. rewrite He, IH. reflexivity.
Qed.

Lemma accepted_links cs :
  Forall (fun e => accepted e) cs ->
  forall ops,
    v_errors (validate_links rt self ops cs vstart) = []
    <-> supported_links self ops cs = true.
Proof.
  induction 1 as [| c rest Hc _ IH]; intros ops; [destruct ops; split; reflexivity |].
  destruct ops as [| op ops]; [split; reflexivity |].
  rewrite errors_links_cons, !app_nil_iff. cbn [supported_links].
  rewrite !andb_true_iff. cbv beta in Hc.
  rewrite check_operator_valid, cmpop_in_table, Hc, IH. tauto.
Qed.

(** Validation adds no error for a tree exactly when the tree is
    [supported]. *)
Lemma accepted_tree e : accepted e.
Proof.
  induction e as [c | id | lhs op rhs IHl IHr | op operand IH | lhs ops cs IHl IHcs
                 | op vs IHvs | func args _ IHargs | test body orelse IHt IHb IHo | kind]
    using ast.expr_ind'.
  - destruct c; simpl; split; intros H; try reflexivity; discriminate H.
  - split; reflexivity.
  - rewrite errors_binop, !app_nil_iff. cbn [supported]. rewrite !andb_true_iff.
    rewrite check_operator_valid, operator_in_table, IHl, IHr. tauto.
  - rewrite errors_unaryop, !app_nil_iff. cbn [supported]. rewrite !andb_true_iff.
    rewrite check_operator_valid, unaryop_in_table, IH. tauto.
  - rewrite errors_compare, supported_compare_eq, app_nil_iff, andb_true_iff.
    rewrite IHl, (accepted_links cs IHcs ops). tauto.
  - cbv beta. rewrite validate_boolop_eq. cbn [supported]. apply (accepted_each vs IHvs).
  - destruct func; try (split; intros H; discriminate H).
    rewrite errors_call. cbn [supported].
    destruct (functions self !! upper id).
    + cbn [app]. apply (accepted_each args IHargs).
    + split; intros H; discriminate H.
  - rewrite errors_ifexp, !app_nil_iff. cbn [supported]. rewrite !andb_true_iff.
    rewrite IHt, IHb, IHo. tauto.
  - split; intros H; discriminate H.
Qed.

End Supported.



(** ** The order of the formulas in a batch *)



(** ** The count of a batch *)

Lemma row_writes_length rt parse sql_double engine row formulas : forall row_computed,
  (length (row_writes rt parse sql_double engine row row_computed formulas).1
   <= length formulas)%nat.
Proof.
  induction formulas as [| f rest IH]; intros row_computed; [reflexivity |].
  cbn [row_writes length].
  pose proof (IH (register rt parse engine row row_computed f)) as Hrest.
  destruct (formula_write rt parse sql_double engine row row_computed f);
    cbv zeta; cbn [fst length]; lia.
Qed.

Lemma then_writes_length (first next : write_log) :
  (length (then_writes first next).1 <= length first.1 + length next.1)%nat.
Proof.
  unfold then_writes. destruct first.2; cbn [fst]; [lia |]. rewrite length_app. lia.
Qed.

Lemma batch_writes_length rt parse sql_double engine formulas rows :
  (length (batch_writes rt parse sql_double engine formulas rows).1
   <= length rows * length formulas)%nat.
Proof.
  induction rows as [| row rest IH]; [reflexivity |].
  cbn [batch_writes length].
  pose proof (then_writes_length
                (row_writes rt parse sql_double engine row [] formulas)
                (batch_writes rt parse sql_double engine formulas rest)) as Hthen.
  pose proof (row_writes_length rt parse sql_double engine row formulas []) as Hrow. lia.
Qed.

Lemma upsert_length w table :
  (length table <= length (upsert w table) <= S (length table))%nat.
Proof.
  induction table as [| old rest IH]; cbn [upsert length]; [lia |].
  destruct (same_key old w); cbn [length]; lia.
Qed.

Lemma apply_writes_length ws : forall table,
  (length table <= length (apply_writes ws table) <= length table + length ws)%nat.
Proof.
  unfold apply_writes. induction ws as [| w rest IH]; intros table; cbn [fold_left length];
    [lia |].
  pose proof (IH (upsert w table)) as Hrest. pose proof (upsert_length w table) as Hw. lia.
Qed.

(** X15.  Whether [compute_all_formulas] returns or an INSERT raises, the
    table [computed_metrics] loses no row and grows by at most the number of
    selected rows times the number of formulas.  A count that is returned
    is the number of writes made: it is at least zero and at most the number
    of selected rows times the number of formulas, and the table grows by
    at most the count.  (A write to a key the table already holds replaces
    the row, so the table can grow by less.) *)
Theorem batch_count_bounds :
  forall (rt : Runtime) (parse : string -> result ast.expr)
         (sql_double : pyval -> option spec_float)
         (conn : Connection) (universe : option (list string)),
    let run := compute_all_formulas rt parse sql_double conn universe in
    let rows := select_fundamentals conn universe in
    let table := computed_metrics conn in
    let table_after := computed_metrics (connection_after run) in
    let most := Z.of_nat (length rows) * Z.of_nat (length (formula_definitions conn)) in
    Z.of_nat (length table) <= Z.of_nat (length table_after) <= Z.of_nat (length table) + most
    /\ (forall count,
        returned_count run = Some count ->
        0 <= count <= most
        /\ Z.of_nat (length table_after) <= Z.of_nat (length table) + count).
Proof.
  intros rt parse sql_double conn universe run rows table table_after most.
  subst run table_after. rewrite compute_all_formulas_by_row.
  rewrite connection_after_outcome. fold rows.
  cbn [with_metrics computed_metrics]. fold table.
  pose proof (batch_writes_length rt parse sql_double (FormulaEngine_init rt None)
                (formula_definitions conn) rows) as Hn.
  pose proof (apply_writes_length
                (batch_writes rt parse sql_double (FormulaEngine_init rt None)
                   (formula_definitions conn) rows).1
                table) as Ht.
  split; [subst most; nia |].
  intros count Hcount. unfold batch_outcome in Hcount.
  destruct (batch_writes rt parse sql_double (FormulaEngine_init rt None)
              (formula_definitions conn) rows).2; [discriminate Hcount |].
  injection Hcount as <-. subst most. split; nia.
Qed.

Lemma batch_count_bounds_witness :
  returned_count (compute_all_formulas example_runtime ast_parse example_sql_double
                    example_connection None)
  = Some 2
  /\ 0 <= 2 <= 4
  /\ Z.of_nat (length (computed_metrics
                         (connection_after
                            (compute_all_formulas example_runtime ast_parse
                               example_sql_double example_connection None))))
     <= 2.
Proof.
  destruct (batch_count_bounds example_runtime ast_parse example_sql_double
              example_connection None) as [_ Hcount].
  assert (returned_count (compute_all_formulas example_runtime ast_parse example_sql_double
                            example_connection None)
          = Some 2) as Hrun by (vm_compute; reflexivity).
  split; [exact Hrun |]. exact (Hcount 2 Hrun).
Defined.

(** ** Screening *)

Lemma fold_lower_agree (items : list (string * pyval)) (m1 m2 : gmap string pyval) name :
  m1 !! name = m2 !! name ->
  fold_left (fun m kv => <[lower kv.1 := kv.2]> m) items m1 !! name
  = fold_left (fun m kv => <[lower kv.1 := kv.2]> m) items m2 !! name.
Proof.
  revert m1 m2. induction items as [| [k v] rest IH]; intros m1 m2 H; [exact H |].
  cbn [fold_left fst snd]. apply IH.
  destruct (decide (lower k = name)) as [-> | Hne].
  - rewrite !lookup_insert_eq. reflexivity.
  - rewrite !lookup_insert_ne by exact Hne. exact H.
Qed.

(** entries under other names do not matter for a name *)
Lemma dict_lower_skip (l1 mid l2 : list (string * pyval)) name :
  (forall k v, In (k, v) mid -> lower k <> name) ->
  dict_lower (l1 ++ mid ++ l2) !! name = dict_lower (l1 ++ l2) !! name.
Proof.
  intros Hmid. unfold dict_lower. rewrite !fold_left_app. apply fold_lower_agree.
  apply fold_lower_other. exact Hmid.
Qed.

(** [d[k] = v] replaces the entry of [k] where it is, or adds one at the
    end *)
Lemma dict_set_split k v items :
  NoDup (map fst items) ->
  exists before mid after,
    items = before ++ mid ++ after
    /\ dict_set k v items = before ++ [(k, v)] ++ after
    /\ (forall k' v', In (k', v') mid -> k' = k)
    /\ (forall k' v', In (k', v') (before ++ after) -> k' <> k).
Proof.
  induction items as [| [k0 v0] rest IH]; intros Hnd.
  - exists [], [], []. repeat split; intros k' v' [].
  - cbn [map fst] in Hnd. apply NoDup_cons in Hnd as [Hfresh Hnd]. cbn [dict_set].
    destruct (String.eqb k0 k) eqn:E.
    + apply String.eqb_eq in E. subst k0.
      exists [], [(k, v0)], rest. repeat split.
      * intros k' v' [H | []]. inversion H. reflexivity.
      * intros k' v' Hin ->. apply Hfresh. apply list_elem_of_In.
        apply (in_map fst rest (k, v') Hin).
    + apply String.eqb_neq in E.
      destruct (IH Hnd) as (before & mid & after & Hitems & Hset & Hmid & Hother).
      exists ((k0, v0) :: before), mid, after. repeat split.
      * rewrite Hitems. reflexivity.
      * rewrite Hset. reflexivity.
      * exact Hmid.
      * intros k' v' [H | Hin]; [inversion H; subst; exact E | exact (Hother k' v' Hin)].
Qed.

Lemma filter_not_null_app (l1 l2 : list (string * pyval)) :
  List.filter (fun kv => negb (is_none kv.2)) (l1 ++ l2)
  = List.filter (fun kv => negb (is_none kv.2)) l1
    ++ List.filter (fun kv => negb (is_none kv.2)) l2.
Proof. apply List.filter_app. Qed.

(** the context of a dictionary without computed fields, at a name that
    the entries [mid] do not have *)
Lemma build_context_skip l1 mid l2 name :
  (forall k v, In (k, v) mid -> lower k <> name) ->
  build_context (l1 ++ mid ++ l2) None !! name = build_context (l1 ++ l2) None !! name.
Proof.
  intros Hmid. unfold build_context. rewrite !filter_not_null_app.
  apply dict_lower_skip. intros k v Hin. apply List.filter_In in Hin as [Hin _].
  exact (Hmid k v Hin).
Qed.


